(** * ChiaCheck: the calculation engine and the cost histogram

    A shallow embedding of [CalculationEngine] (expression parsing, rounding,
    per-member costs, session totals, final amounts, custom split, tip
    distribution, payment suggestions) and of
    [AnalyticsManager.generateCostAnalytics] / [generateCostDistribution].

    Numbers.  Every JavaScript number of the program is modelled as an exact
    rational ([Q]); equalities between amounts are stated with [==].  The
    model therefore describes the arithmetic the code writes down, not the
    binary64 rounding or overflow of an actual engine.  NaN arises in one
    place, the share of a custom split for a member id that names an
    inherited property; the custom split and the matching loop are modelled
    a second time, in [WithNaN], on numbers that may be NaN.

    Exceptions are explicit: a computation that can [throw] has type
    [completion A].

    Objects.  The calculations read their input and build new values, so
    sessions are plain values there.  [calculateWithTip] copies the session
    and changes the copy in place; for it the session lives in a store of
    objects, and the method is a computation on that store. *)

From Stdlib Require Import QArith Qround Qabs Qminmax Lqa Lia ZArith Ascii Sorted.
From stdpp Require Import gmap strings list fin_maps.

Local Open Scope Q_scope.

(** ** Completions: normal return or [throw] *)

Inductive completion (A : Type) : Type :=
| Normal (a : A)
| Throw (message : string).
Arguments Normal {A} a.
Arguments Throw {A} message.

Global Instance completion_ret : MRet completion := λ A a, Normal a.
Global Instance completion_bind : MBind completion := λ A B k c,
  match c with
  | Normal a => k a
  | Throw e => Throw e
  end.

(** [try { c } catch (error) { handler error }] *)
Definition try_catch {A} (c : completion A) (handler : string → completion A)
  : completion A :=
  match c with
  | Normal a => Normal a
  | Throw e => handler e
  end.

Definition returns {A} (c : completion A) : Prop := ∃ a, c = Normal a.

(** ** Values that reach the engine as a price, an advance or a tip *)

Inductive JsValue : Type :=
| JsUndefined
| JsNull
| JsNumber (q : Q)
| JsString (s : string).

(** [!v] is false exactly on truthy values. *)
Definition truthy (v : JsValue) : bool :=
  match v with
  | JsUndefined | JsNull => false
  | JsNumber q => negb (Qeq_bool q 0)
  | JsString s => negb (String.eqb s "")
  end.

(** ** The host's evaluation of generated code

    [evaluateExpression] hands the text ['return (' + expression + ')'] to the
    [Function] constructor and calls the result.  What the host does with that
    text is not code of this program; it is a parameter of the development.
    The four outcomes are the ones the caller distinguishes. *)

Inductive HostResult : Type :=
| HostNumber (q : Q)      (* a finite number *)
| HostNonFinite           (* Infinity, -Infinity or NaN *)
| HostNotNumber           (* typeof result !== 'number' *)
| HostThrows.             (* SyntaxError while compiling, or a throw while running *)

(** ** The engine object *)

Record CalculationEngine : Type := {
  precision : nat;
  currency : string;
  roundingMethod : string
}.

(** [constructor()] *)
Definition constructor : CalculationEngine :=
  {| precision := 2; currency := "VND"; roundingMethod := "round" |}.

(** ** Characters and cleaning *)

Definition isDigit (c : ascii) : bool :=
  let n := nat_of_ascii c in (48 <=? n)%nat && (n <=? 57)%nat.

(** ASCII part of [\s] and of what [trim] removes.  Any other character of
    those classes is outside the kept set and is deleted by the cleaning. *)
Definition isWhitespace (c : ascii) : bool :=
  let n := nat_of_ascii c in
  ((9 <=? n)%nat && (n <=? 13)%nat) || (n =? 32)%nat.

(** The characters of [[\d+\-*/().]] that are not digits. *)
Definition isOperatorChar (c : ascii) : bool :=
  match c with
  | "+" | "-" | "*" | "/" | "(" | ")" | "." => true
  | _ => false
  end%char.

Definition isKept (c : ascii) : bool := isDigit c || isOperatorChar c.

Definition isCommaOrSpace (c : ascii) : bool :=
  Ascii.eqb c ","%char || isWhitespace c.

Fixpoint removeAll (bad : ascii → bool) (s : string) : string :=
  match s with
  | EmptyString => EmptyString
  | String c rest =>
      if bad c then removeAll bad rest else String c (removeAll bad rest)
  end.

Fixpoint allChars (p : ascii → bool) (s : string) : bool :=
  match s with
  | EmptyString => true
  | String c rest => p c && allChars p rest
  end.

(** [expression.trim() === ''] *)
Definition isBlank (s : string) : bool := allChars isWhitespace s.

(** [.replace(/[,\s]/g, '').replace(/[^\d+\-*/().]/g, '')] *)
Definition cleanExpression (s : string) : string :=
  removeAll (λ c, negb (isKept c)) (removeAll isCommaOrSpace s).

(** ** isValidExpression *)

(** [/^[\d+\-*/().\s]+$/.test(expression)] *)
Definition validPattern (expression : string) : bool :=
  negb (String.eqb expression "")
  && allChars (λ c, isKept c || isWhitespace c) expression.

(** The [for (const char of expression)] loop with its early [return false];
    [None] is that early return, [Some n] the counter after the loop. *)
Fixpoint parenthesesLoop (parenthesesCount : Z) (expression : string) : option Z :=
  match expression with
  | EmptyString => Some parenthesesCount
  | String char rest =>
      let n1 := if Ascii.eqb char "("%char then (parenthesesCount + 1)%Z
                else parenthesesCount in
      let n2 := if Ascii.eqb char ")"%char then (n1 - 1)%Z else n1 in
      if (n2 <? 0)%Z then None else parenthesesLoop n2 rest
  end.

Definition isValidExpression (expression : string) : bool :=
  if negb (validPattern expression) then false
  else match parenthesesLoop 0 expression with
       | None => false
       | Some parenthesesCount => (parenthesesCount =? 0)%Z
       end.

(** ** roundNumber *)

Definition Math_floor (x : Q) : Z := Qfloor x.
Definition Math_ceil (x : Q) : Z := Qceiling x.
(** Nearest integer, halves towards +infinity. *)
Definition Math_round (x : Q) : Z := Qfloor (x + (1 # 2)).

(** The optional second parameter, [precision = this.precision], is passed
    by no caller. *)
Definition roundNumber (this : CalculationEngine) (number : Q) : Q :=
  let factor := inject_Z (10 ^ Z.of_nat (precision this)) in
  if String.eqb (roundingMethod this) "floor" then
    inject_Z (Math_floor (number * factor)) / factor
  else if String.eqb (roundingMethod this) "ceil" then
    inject_Z (Math_ceil (number * factor)) / factor
  else
    inject_Z (Math_round (number * factor)) / factor.

(** ** Comparisons on numbers *)

Definition Qlt_bool (x y : Q) : bool := negb (Qle_bool y x).

(** [x || 0] on a number: a falsy number (zero) is replaced by [0]. *)
Definition orZero (x : Q) : Q := if Qeq_bool x 0 then 0 else x.

Definition Math_abs (x : Q) : Q := Qabs x.
Definition Math_min (x y : Q) : Q := Qmin x y.

(** ** Data model *)

Module Item.
Record t : Type := mk { name : string; price : JsValue }.
End Item.

Module BankInfo.
Record t : Type := mk {
  accountNumber : string;
  bankName : string;
  accountHolder : string
}.
End BankInfo.

Module Member.
Record t : Type := mk {
  id : string;
  name : string;
  items : option (list Item.t);      (* absent or an array *)
  advance : JsValue;
  bankInfo : option BankInfo.t
}.
End Member.

Module Session.
Record t : Type := mk { members : option (list Member.t) }.
End Session.

(** The object built by [calculateMemberCosts]. *)
Module MemberCost.
Record t : Type := mk {
  id : string;
  name : string;
  items : list Item.t;
  advance : Q;
  bankInfo : option BankInfo.t;
  totalSpent : Q;
  itemCount : nat
}.
End MemberCost.

Inductive Status : Type := needs_to_pay | gets_refund | even.

Global Instance Status_eq_dec : EqDecision Status.
Proof. solve_decision. Defined.

(** [{ ...member, amountPerPerson, finalAmount, status }] *)
Module MemberCalculation.
Record t : Type := mk {
  id : string;
  name : string;
  items : list Item.t;
  advance : Q;
  bankInfo : option BankInfo.t;
  totalSpent : Q;
  itemCount : nat;
  amountPerPerson : Q;
  finalAmount : Q;
  status : Status
}.
End MemberCalculation.

Module Totals.
Record t : Type := mk {
  totalCost : Q;
  totalAdvance : Q;
  memberCount : Q;
  totalItems : Q;
  averageSpent : Q;
  costPerPerson : Q;
  remainingBalance : Q
}.
End Totals.

(** [{ name, amount }] *)
Module Entry.
Record t : Type := mk { name : string; amount : Q }.
End Entry.

Module Summary.
Record t : Type := mk {
  needToPay : list Entry.t;
  getRefund : list Entry.t;
  even : list Entry.t;
  totalNeedToPay : Q;
  totalRefund : Q;
  balanceCheck : Q
}.
End Summary.

(** [{ memberCalculations, totals, summary }] *)
Module Calculations.
Record t : Type := mk {
  memberCalculations : list MemberCalculation.t;
  totals : Totals.t;
  summary : Summary.t
}.
End Calculations.

(** [array.reduce((sum, x) => sum + f(x), 0)] *)
Definition sumOf {A} (f : A → Q) (l : list A) : Q :=
  fold_left (λ sum x, sum + f x) l 0.

Definition count (n : nat) : Q := inject_Z (Z.of_nat n).

(** [{ from, to, amount }]; the [formattedAmount] text is display only and
    is left out. *)
Module Suggestion.
Record t : Type := mk { from : string; to : string; amount : Q }.
End Suggestion.

(** ** Array.prototype.sort with a comparison function

    A stable sort: [x] goes after [y] only when [compareFn x y > 0]. *)

Fixpoint insertSorted {A} (compareFn : A → A → Q) (x : A) (l : list A) : list A :=
  match l with
  | [] => [x]
  | y :: rest =>
      if Qlt_bool 0 (compareFn x y) then y :: insertSorted compareFn x rest
      else x :: y :: rest
  end.

Fixpoint sort {A} (compareFn : A → A → Q) (l : list A) : list A :=
  match l with
  | [] => []
  | x :: rest => insertSorted compareFn x (sort compareFn rest)
  end.

(** ** State of the matching loop of [generatePaymentSuggestions] *)

Module Matching.
Record t : Type := mk {
  needToPay : list Entry.t;
  getRefund : list Entry.t;
  suggestions : list Suggestion.t;
  payIndex : nat;
  refundIndex : nat
}.
End Matching.

Section Engine.

Variable hostFunction : string → HostResult.
Variable this : CalculationEngine.

(** ** evaluateExpression *)

Definition evaluateExpression (expression : string) : completion Q :=
  try_catch
    (match hostFunction ("return (" ++ expression ++ ")") with
     | HostThrows => Throw "host"
     | HostNotNumber | HostNonFinite => Throw "Invalid result"
     | HostNumber result => Normal result
     end)
    (λ _, Throw "Expression evaluation failed").

(** ** parseExpression *)

(** The body of the [try] block. *)
Definition parseExpression_try (expression : JsValue) : completion Q :=
  if negb (truthy expression) then Normal 0
  else match expression with
       | JsString s =>
           if isBlank s then Normal 0
           else
             let cleanExpression := cleanExpression s in
             if String.eqb cleanExpression "" then Normal 0
             else if negb (isValidExpression cleanExpression)
                  then Throw "Invalid expression"
                  else result ← evaluateExpression cleanExpression;
                       Normal (roundNumber this result)
       | _ =>
           (* a number has no [trim] method *)
           Throw "expression.trim is not a function"
       end.

Definition parseExpression (expression : JsValue) : completion Q :=
  try_catch (parseExpression_try expression) (λ _, Normal 0).

(** ** calculateMemberCosts *)

(** [calculation.items.reduce((total, item) => total + (parse(item.price) || 0), 0)] *)
Fixpoint sumItems (items : list Item.t) (total : Q) : completion Q :=
  match items with
  | [] => Normal total
  | item :: rest =>
      parsed ← parseExpression (Item.price item);
      let itemPrice := orZero parsed in
      sumItems rest (total + itemPrice)
  end.

Definition memberCost (member : Member.t) : completion MemberCost.t :=
  let items := default [] (Member.items member) in
  parsed ← parseExpression (Member.advance member);
  let advance := orZero parsed in
  totalSpent ← sumItems items 0;
  Normal {| MemberCost.id := Member.id member;
            MemberCost.name := Member.name member;
            MemberCost.items := items;
            MemberCost.advance := advance;
            MemberCost.bankInfo := Member.bankInfo member;
            MemberCost.totalSpent := roundNumber this totalSpent;
            MemberCost.itemCount := length items |}.

Fixpoint calculateMemberCosts (members : list Member.t)
  : completion (list MemberCost.t) :=
  match members with
  | [] => Normal []
  | member :: rest =>
      calculation ← memberCost member;
      memberCalculations ← calculateMemberCosts rest;
      Normal (calculation :: memberCalculations)
  end.

(** ** calculateSessionTotals *)

Definition calculateSessionTotals (memberCalculations : list MemberCost.t)
  : Totals.t :=
  let memberCount := count (length memberCalculations) in
  let totalCost := sumOf MemberCost.totalSpent memberCalculations in
  let totalAdvance := sumOf MemberCost.advance memberCalculations in
  let totalItems := sumOf (λ member, count (MemberCost.itemCount member))
                          memberCalculations in
  let costPerPerson :=
    if Qlt_bool 0 memberCount then totalCost / memberCount else 0 in
  let averageSpent :=
    if Qlt_bool 0 memberCount then totalCost / memberCount else 0 in
  let remainingBalance := totalCost - totalAdvance in
  (* Object.keys(totals).forEach(key => totals[key] = roundNumber(totals[key])) *)
  {| Totals.totalCost := roundNumber this totalCost;
     Totals.totalAdvance := roundNumber this totalAdvance;
     Totals.memberCount := roundNumber this memberCount;
     Totals.totalItems := roundNumber this totalItems;
     Totals.averageSpent := roundNumber this averageSpent;
     Totals.costPerPerson := roundNumber this costPerPerson;
     Totals.remainingBalance := roundNumber this remainingBalance |}.

(** ** calculateFinalAmounts *)

(** The status block that [calculateFinalAmounts] and [calculateCustomSplit]
    both contain, from [calculation.finalAmount = amountPerPerson - advance]
    to the two final roundings. *)
Definition finalize (member : MemberCost.t) (amountPerPerson : Q)
  : MemberCalculation.t :=
  let finalAmount := amountPerPerson - MemberCost.advance member in
  let outcome : Status * Q :=
    if Qlt_bool (Math_abs finalAmount) (1 # 100) then (even, 0)
    else if Qlt_bool 0 finalAmount then (needs_to_pay, finalAmount)
    else (gets_refund, Math_abs finalAmount) in
  {| MemberCalculation.id := MemberCost.id member;
     MemberCalculation.name := MemberCost.name member;
     MemberCalculation.items := MemberCost.items member;
     MemberCalculation.advance := MemberCost.advance member;
     MemberCalculation.bankInfo := MemberCost.bankInfo member;
     MemberCalculation.totalSpent := MemberCost.totalSpent member;
     MemberCalculation.itemCount := MemberCost.itemCount member;
     MemberCalculation.amountPerPerson := roundNumber this amountPerPerson;
     MemberCalculation.finalAmount := roundNumber this (outcome.2);
     MemberCalculation.status := outcome.1 |}.

Definition calculateFinalAmounts (memberCalculations : list MemberCost.t)
    (totals : Totals.t) : list MemberCalculation.t :=
  map (λ member, finalize member (Totals.costPerPerson totals))
      memberCalculations.

(** ** generateSummary *)

Definition withStatus (s : Status) (memberCalculations : list MemberCalculation.t)
  : list MemberCalculation.t :=
  filter (λ m, MemberCalculation.status m = s) memberCalculations.

(** One round of the [forEach] with its [switch (member.status)]. *)
Definition summarize (summary : Summary.t) (member : MemberCalculation.t)
  : Summary.t :=
  let name := MemberCalculation.name member in
  let finalAmount := MemberCalculation.finalAmount member in
  match MemberCalculation.status member with
  | needs_to_pay =>
      {| Summary.needToPay :=
           Summary.needToPay summary ++ [Entry.mk name finalAmount];
         Summary.getRefund := Summary.getRefund summary;
         Summary.even := Summary.even summary;
         Summary.totalNeedToPay := Summary.totalNeedToPay summary + finalAmount;
         Summary.totalRefund := Summary.totalRefund summary;
         Summary.balanceCheck := Summary.balanceCheck summary |}
  | gets_refund =>
      {| Summary.needToPay := Summary.needToPay summary;
         Summary.getRefund :=
           Summary.getRefund summary ++ [Entry.mk name finalAmount];
         Summary.even := Summary.even summary;
         Summary.totalNeedToPay := Summary.totalNeedToPay summary;
         Summary.totalRefund := Summary.totalRefund summary + finalAmount;
         Summary.balanceCheck := Summary.balanceCheck summary |}
  | even =>
      {| Summary.needToPay := Summary.needToPay summary;
         Summary.getRefund := Summary.getRefund summary;
         Summary.even := Summary.even summary ++ [Entry.mk name 0];
         Summary.totalNeedToPay := Summary.totalNeedToPay summary;
         Summary.totalRefund := Summary.totalRefund summary;
         Summary.balanceCheck := Summary.balanceCheck summary |}
  end.

Definition generateSummary (memberCalculations : list MemberCalculation.t)
    (totals : Totals.t) : Summary.t :=
  let summary :=
    fold_left summarize memberCalculations
      {| Summary.needToPay := []; Summary.getRefund := []; Summary.even := [];
         Summary.totalNeedToPay := 0; Summary.totalRefund := 0;
         Summary.balanceCheck := 0 |} in
  let totalNeedToPay := roundNumber this (Summary.totalNeedToPay summary) in
  let totalRefund := roundNumber this (Summary.totalRefund summary) in
  {| Summary.needToPay := Summary.needToPay summary;
     Summary.getRefund := Summary.getRefund summary;
     Summary.even := Summary.even summary;
     Summary.totalNeedToPay := totalNeedToPay;
     Summary.totalRefund := totalRefund;
     Summary.balanceCheck := roundNumber this (totalNeedToPay - totalRefund) |}.

(** ** validateCalculations *)

Definition validateCalculations (memberCalculations : list MemberCalculation.t)
    (totals : Totals.t) : bool :=
  let totalAdvances := sumOf MemberCalculation.advance memberCalculations in
  let totalNeedToPay :=
    sumOf MemberCalculation.finalAmount
          (withStatus needs_to_pay memberCalculations) in
  let calculatedTotal := totalAdvances + totalNeedToPay in
  let difference := Math_abs (calculatedTotal - Totals.totalCost totals) in
  Qle_bool difference (1 # 100).

(** ** calculateSession *)

Definition emptyCalculations : Calculations.t :=
  {| Calculations.memberCalculations := [];
     Calculations.totals := calculateSessionTotals [];
     Calculations.summary := generateSummary [] (calculateSessionTotals []) |}.

Definition calculateSession (session : option Session.t)
  : completion Calculations.t :=
  try_catch
    (match session with
     | None => Normal emptyCalculations
     | Some session =>
         match Session.members session with
         | None | Some [] => Normal emptyCalculations
         | Some members =>
             memberCalculations ← calculateMemberCosts members;
             let totals := calculateSessionTotals memberCalculations in
             let finalCalculations :=
               calculateFinalAmounts memberCalculations totals in
             let summary := generateSummary finalCalculations totals in
             let _ := validateCalculations finalCalculations totals in
             Normal {| Calculations.memberCalculations := finalCalculations;
                       Calculations.totals := totals;
                       Calculations.summary := summary |}
         end
     end)
    (λ error, Throw ("Failed to calculate session: " ++ error)).

(** ** calculateCustomSplit *)

(** [Object.values(percentages).reduce((sum, p) => sum + p, 0)] *)
Definition totalPercentage (percentages : gmap string Q) : Q :=
  sumOf snd (map_to_list percentages).

(** [percentages[member.id] || 0] on the properties of the object itself;
    what the lookup finds along the prototype chain is in
    [WithNaN.percentageOf]. *)
Definition percentageOf (percentages : gmap string Q) (id : string) : Q :=
  orZero (default 0 (percentages !! id)).

Definition calculateCustomSplit (session : option Session.t)
    (percentages : option (gmap string Q)) : completion Calculations.t :=
  try_catch
    (match session, percentages with
     | Some session, Some percentages =>
         match Session.members session with
         | None => Throw "Invalid parameters for custom split"
         | Some members =>
             if Qlt_bool (1 # 100) (Math_abs (totalPercentage percentages - 100))
             then Throw "Percentages must sum to 100%"
             else
               memberCalculations ← calculateMemberCosts members;
               let totals := calculateSessionTotals memberCalculations in
               let customCalculations :=
                 map (λ member,
                        let percentage :=
                          percentageOf percentages (MemberCost.id member) in
                        finalize member
                          (Totals.totalCost totals * percentage / 100))
                     memberCalculations in
               let summary := generateSummary customCalculations totals in
               Normal {| Calculations.memberCalculations := customCalculations;
                         Calculations.totals := totals;
                         Calculations.summary := summary |}
         end
     | _, _ => Throw "Invalid parameters for custom split"
     end)
    (λ error, Throw error).

(** ** generatePaymentSuggestions *)

Definition entries (s : Status) (memberCalculations : list MemberCalculation.t)
  : list Entry.t :=
  sort (λ a b, Entry.amount b - Entry.amount a)
       (map (λ m, {| Entry.name := MemberCalculation.name m;
                     Entry.amount := MemberCalculation.finalAmount m |})
            (withStatus s memberCalculations)).

(** [payIndex < needToPay.length && refundIndex < getRefund.length] *)
Definition loopCondition (st : Matching.t) : bool :=
  (Matching.payIndex st <? length (Matching.needToPay st))%nat
  && (Matching.refundIndex st <? length (Matching.getRefund st))%nat.

Definition setAmount (e : Entry.t) (amount : Q) : Entry.t :=
  {| Entry.name := Entry.name e; Entry.amount := amount |}.

(** One execution of the loop body; the state is returned unchanged when an
    index is out of range, which the loop condition excludes. *)
Definition loopBody (st : Matching.t) : Matching.t :=
  match Matching.needToPay st !! Matching.payIndex st,
        Matching.getRefund st !! Matching.refundIndex st with
  | Some payer, Some receiver =>
      let transferAmount := Math_min (Entry.amount payer) (Entry.amount receiver) in
      let suggestions :=
        if Qlt_bool (1 # 100) transferAmount then
          Matching.suggestions st ++
            [{| Suggestion.from := Entry.name payer;
                Suggestion.to := Entry.name receiver;
                Suggestion.amount := roundNumber this transferAmount |}]
        else Matching.suggestions st in
      let payer := setAmount payer (Entry.amount payer - transferAmount) in
      let receiver := setAmount receiver (Entry.amount receiver - transferAmount) in
      {| Matching.needToPay := <[Matching.payIndex st := payer]> (Matching.needToPay st);
         Matching.getRefund := <[Matching.refundIndex st := receiver]> (Matching.getRefund st);
         Matching.suggestions := suggestions;
         Matching.payIndex :=
           if Qle_bool (Entry.amount payer) (1 # 100)
           then S (Matching.payIndex st) else Matching.payIndex st;
         Matching.refundIndex :=
           if Qle_bool (Entry.amount receiver) (1 # 100)
           then S (Matching.refundIndex st) else Matching.refundIndex st |}
  | _, _ => st
  end.

(** The [while] loop, run with a bound on the number of iterations.  The
    result carries the number of iterations executed; [None] means the bound
    was reached with the condition still true. *)
Fixpoint whileLoop (fuel : nat) (st : Matching.t) : option (nat * Matching.t) :=
  if loopCondition st then
    match fuel with
    | O => None
    | S fuel =>
        '(iterations, final) ← whileLoop fuel (loopBody st);
        Some (S iterations, final)
    end
  else Some (O, st).

Definition initialMatching (calculations : Calculations.t) : Matching.t :=
  {| Matching.needToPay :=
       entries needs_to_pay (Calculations.memberCalculations calculations);
     Matching.getRefund :=
       entries gets_refund (Calculations.memberCalculations calculations);
     Matching.suggestions := [];
     Matching.payIndex := 0;
     Matching.refundIndex := 0 |}.

(** Iterations the loop can need: one index moves in every iteration. *)
Definition enoughFuel (st : Matching.t) : nat :=
  length (Matching.needToPay st) + length (Matching.getRefund st).

Definition runMatching (calculations : Calculations.t)
  : option (nat * Matching.t) :=
  let st := initialMatching calculations in
  whileLoop (enoughFuel st) st.

(** The method wraps its body in a [try] whose [catch] returns [[]]; with
    [calculations] of the right shape nothing in the body throws.  The loop
    is run with [enoughFuel], which is enough ([runMatching_returns]). *)
Definition generatePaymentSuggestions (calculations : Calculations.t)
  : list Suggestion.t :=
  match runMatching calculations with
  | Some (_, final) => Matching.suggestions final
  | None => []
  end.

End Engine.

(** ** A reference host for the arithmetic fragment

    One admissible value of the [hostFunction] parameter, used to run the
    model on concrete sessions: decimal literals, binary [+ - * /], unary
    [+ -] and parentheses, with JavaScript's precedence and left
    associativity, division by zero giving an infinity or NaN.  Texts outside
    this fragment ([**], [++], [--], comments, regular-expression literals,
    calls, literals with a leading zero) are answered with [HostThrows];
    negative zero is not distinguished from zero. *)

Module ReferenceHost.

Inductive token : Type :=
| TNumber (q : Q)
| TPlus | TMinus | TStar | TSlash | TOpen | TClose.

Inductive value : Type :=
| Finite (q : Q)
| Infinity (negative : bool)
| NaN.

(** A numeric literal being read: mantissa, denominator, digits before the
    dot, digits after it, whether the dot was seen, whether the first digit
    was a zero. *)
Record literal : Type := mkLiteral {
  mantissa : Z;
  denominator : positive;
  digitsBefore : nat;
  digitsAfter : nat;
  dotSeen : bool;
  leadingZero : bool
}.

Definition digitValue (c : ascii) : Z := Z.of_nat (nat_of_ascii c) - 48.

Definition pushDigit (c : ascii) (l : option literal) : literal :=
  match l with
  | None => mkLiteral (digitValue c) 1 1 0 false (Ascii.eqb c "0"%char)
  | Some l =>
      if dotSeen l then
        mkLiteral (mantissa l * 10 + digitValue c) (denominator l * 10)
                  (digitsBefore l) (S (digitsAfter l)) true (leadingZero l)
      else
        mkLiteral (mantissa l * 10 + digitValue c) 1
                  (S (digitsBefore l)) 0 false (leadingZero l)
  end%Z.

(** [None] when the literal is not one of the fragment. *)
Definition closeLiteral (l : literal) : option token :=
  if (digitsBefore l + digitsAfter l =? 0)%nat then None
  else if leadingZero l && (1 <? digitsBefore l)%nat then None
  else Some (TNumber (mantissa l # denominator l)).

Definition operatorToken (c : ascii) : option token :=
  match c with
  | "+" => Some TPlus
  | "-" => Some TMinus
  | "*" => Some TStar
  | "/" => Some TSlash
  | "(" => Some TOpen
  | ")" => Some TClose
  | _ => None
  end%char.

Fixpoint tokenize (s : string) (current : option literal) : option (list token) :=
  match s with
  | EmptyString =>
      match current with
      | None => Some []
      | Some l => t ← closeLiteral l; Some [t]
      end
  | String c rest =>
      if isDigit c then tokenize rest (Some (pushDigit c current))
      else if Ascii.eqb c "."%char then
        match current with
        | None => tokenize rest (Some (mkLiteral 0 1 0 0 true false))
        | Some l =>
            if dotSeen l then None
            else tokenize rest
                   (Some (mkLiteral (mantissa l) 1 (digitsBefore l) 0 true
                                    (leadingZero l)))
        end
      else
        op ← operatorToken c;
        ts ← tokenize rest None;
        match current with
        | None => Some (op :: ts)
        | Some l => t ← closeLiteral l; Some (t :: op :: ts)
        end
  end.

(** Adjacent characters that the host reads as one punctuator or as the
    start of a comment. *)
Fixpoint outsideFragment (ts : list token) : bool :=
  match ts with
  | TPlus :: (TPlus :: _) as rest
  | TMinus :: (TMinus :: _) as rest
  | TStar :: (TStar :: _) as rest
  | TSlash :: (TSlash :: _) as rest
  | TSlash :: (TStar :: _) as rest => true
  | _ :: rest => outsideFragment rest
  | [] => false
  end.

Definition negate (v : value) : value :=
  match v with
  | Finite q => Finite (- q)
  | Infinity s => Infinity (negb s)
  | NaN => NaN
  end.

Definition add (a b : value) : value :=
  match a, b with
  | Finite x, Finite y => Finite (x + y)
  | Finite _, Infinity s | Infinity s, Finite _ => Infinity s
  | Infinity s, Infinity s' => if Bool.eqb s s' then Infinity s else NaN
  | _, _ => NaN
  end.

Definition isNegative (q : Q) : bool := Qlt_bool q 0.

Definition mul (a b : value) : value :=
  match a, b with
  | Finite x, Finite y => Finite (x * y)
  | Finite x, Infinity s | Infinity s, Finite x =>
      if Qeq_bool x 0 then NaN else Infinity (xorb s (isNegative x))
  | Infinity s, Infinity s' => Infinity (xorb s s')
  | _, _ => NaN
  end.

Definition div (a b : value) : value :=
  match a, b with
  | Finite x, Finite y =>
      if Qeq_bool y 0 then
        if Qeq_bool x 0 then NaN else Infinity (isNegative x)
      else Finite (x / y)
  | Finite _, Infinity _ => Finite 0
  | Infinity s, Finite y => Infinity (xorb s (isNegative y))
  | _, _ => NaN
  end.

Definition parsed : Type := option (value * list token).

Fixpoint parseSum (fuel : nat) (ts : list token) : parsed :=
  match fuel with
  | O => None
  | S fuel => '(v, rest) ← parseProduct fuel ts; sumRest fuel v rest
  end
with sumRest (fuel : nat) (acc : value) (ts : list token) : parsed :=
  match fuel with
  | O => None
  | S fuel =>
      match ts with
      | TPlus :: ts' =>
          '(v, rest) ← parseProduct fuel ts'; sumRest fuel (add acc v) rest
      | TMinus :: ts' =>
          '(v, rest) ← parseProduct fuel ts';
          sumRest fuel (add acc (negate v)) rest
      | _ => Some (acc, ts)
      end
  end
with parseProduct (fuel : nat) (ts : list token) : parsed :=
  match fuel with
  | O => None
  | S fuel => '(v, rest) ← parseUnary fuel ts; productRest fuel v rest
  end
with productRest (fuel : nat) (acc : value) (ts : list token) : parsed :=
  match fuel with
  | O => None
  | S fuel =>
      match ts with
      | TStar :: ts' =>
          '(v, rest) ← parseUnary fuel ts'; productRest fuel (mul acc v) rest
      | TSlash :: ts' =>
          '(v, rest) ← parseUnary fuel ts'; productRest fuel (div acc v) rest
      | _ => Some (acc, ts)
      end
  end
with parseUnary (fuel : nat) (ts : list token) : parsed :=
  match fuel with
  | O => None
  | S fuel =>
      match ts with
      | TNumber q :: rest => Some (Finite q, rest)
      | TPlus :: ts' => parseUnary fuel ts'
      | TMinus :: ts' => '(v, rest) ← parseUnary fuel ts'; Some (negate v, rest)
      | TOpen :: ts' =>
          '(v, rest) ← parseSum fuel ts';
          match rest with
          | TClose :: rest' => Some (v, rest')
          | _ => None
          end
      | _ => None
      end
  end.

Definition stripReturn (body : string) : option string :=
  if String.prefix "return " body
  then Some (String.substring 7 (String.length body - 7) body)
  else None.

(** [new Function(body)()] on the fragment. *)
Definition run (body : string) : HostResult :=
  match stripReturn body with
  | None => HostThrows
  | Some text =>
      match tokenize text None with
      | None => HostThrows
      | Some ts =>
          if outsideFragment ts then HostThrows
          else match parseSum (4 * length ts + 4) ts with
               | Some (Finite q, []) => HostNumber q
               | Some (_, []) => HostNonFinite
               | _ => HostThrows
               end
      end
  end.

End ReferenceHost.


(** ** The session as objects in a store

    [calculateWithTip] works on a copy of the session and changes that copy
    in place.  To speak about what it may change, sessions are also modelled
    the way the program holds them: objects in a store, referring to each
    other by location. *)

Definition loc : Type := positive.

Inductive object : Type :=
| SessionObject (members : option loc)
| ArrayObject (elements : list loc)
| MemberObject (id name : string) (items : option loc) (advance : JsValue)
               (bankInfo : option BankInfo.t)
| ItemObject (name : string) (price : JsValue).

Abbreviation store := (gmap loc object).

(** Locations an object refers to. *)
Definition refs (o : object) : list loc :=
  match o with
  | SessionObject members => option_list members
  | ArrayObject elements => elements
  | MemberObject _ _ items _ _ => option_list items
  | ItemObject _ _ => []
  end.

(** Computations on the store that may throw. *)
Definition Heap (A : Type) : Type := store → store * completion A.

Definition retHeap {A} (a : A) : Heap A := λ h, (h, Normal a).

Definition bindHeap {A B} (m : Heap A) (k : A → Heap B) : Heap B :=
  λ h, match m h with
       | (h', Normal a) => k a h'
       | (h', Throw e) => (h', Throw e)
       end.

Definition throwHeap {A} (message : string) : Heap A := λ h, (h, Throw message).

Definition lift {A} (c : completion A) : Heap A := λ h, (h, c).

(** [new]: the object is put at a location not in use. *)
Definition allocate (o : object) : Heap loc :=
  λ h, let l := fresh (dom h) in (<[l := o]> h, Normal l).

(** Assignment to a property of, or [push] on, the object at [l]. *)
Definition assign (l : loc) (o : object) : Heap unit :=
  λ h, (<[l := o]> h, Normal tt).

Definition getObject (l : loc) : Heap object :=
  λ h, match h !! l with
       | Some o => (h, Normal o)
       | None => (h, Throw "TypeError")
       end.

Notation "x ⇐ m ;; k" := (bindHeap m (λ x, k))
  (at level 100, m at next level, right associativity).

Fixpoint forEach {A} (f : A → Heap unit) (l : list A) : Heap unit :=
  match l with
  | [] => retHeap tt
  | x :: rest => _ ⇐ f x ;; forEach f rest
  end.

Fixpoint mapHeap {A B} (f : A → Heap B) (l : list A) : Heap (list B) :=
  match l with
  | [] => retHeap []
  | x :: rest => y ⇐ f x ;; ys ⇐ mapHeap f rest ;; retHeap (y :: ys)
  end.

(** *** Reading a session out of the store *)

Definition readItem (h : store) (l : loc) : option Item.t :=
  match h !! l with
  | Some (ItemObject name price) => Some (Item.mk name price)
  | _ => None
  end.

Definition readArray {A} (readElement : store → loc → option A)
    (h : store) (l : loc) : option (list A) :=
  match h !! l with
  | Some (ArrayObject elements) => mapM (readElement h) elements
  | _ => None
  end.

Definition readOptional {A} (read : store → loc → option A)
    (h : store) (l : option loc) : option (option A) :=
  match l with
  | None => Some None
  | Some l => Some <$> read h l
  end.

Definition readMember (h : store) (l : loc) : option Member.t :=
  match h !! l with
  | Some (MemberObject id name items advance bankInfo) =>
      items ← readOptional (readArray readItem) h items;
      Some (Member.mk id name items advance bankInfo)
  | _ => None
  end.

Definition readSession (h : store) (l : loc) : option Session.t :=
  match h !! l with
  | Some (SessionObject members) =>
      members ← readOptional (readArray readMember) h members;
      Some (Session.mk members)
  | _ => None
  end.

(** The argument of a method: [null] or a session in the store.  A store in
    which the reference does not lead to a session of the expected shape
    makes the method throw. *)
Definition getSession (session : option loc) : Heap (option Session.t) :=
  λ h, match session with
       | None => (h, Normal None)
       | Some l =>
           match readSession h l with
           | Some s => (h, Normal (Some s))
           | None => (h, Throw "TypeError")
           end
       end.

(** *** JSON.parse(JSON.stringify(session)) *)

Definition parseItem (item : Item.t) : Heap loc :=
  allocate (ItemObject (Item.name item) (Item.price item)).

Definition parseArray {A} (parseElement : A → Heap loc) (l : list A) : Heap loc :=
  elements ⇐ mapHeap parseElement l ;;
  allocate (ArrayObject elements).

Definition parseOptional {A} (parse : A → Heap loc) (x : option A)
  : Heap (option loc) :=
  match x with
  | None => retHeap None
  | Some x => l ⇐ parse x ;; retHeap (Some l)
  end.

Definition parseMember (member : Member.t) : Heap loc :=
  items ⇐ parseOptional (parseArray parseItem) (Member.items member) ;;
  allocate (MemberObject (Member.id member) (Member.name member) items
                         (Member.advance member) (Member.bankInfo member)).

Definition parseSession (session : Session.t) : Heap loc :=
  members ⇐ parseOptional (parseArray parseMember) (Session.members session) ;;
  allocate (SessionObject members).

Definition JSON_clone (session : option loc) : Heap (option loc) :=
  value ⇐ getSession session ;;
  parseOptional parseSession value.

(** *** Adding the tip item to a member of the copy *)

(** [if (!member.items) member.items = []; member.items.push({ name, price })] *)
Definition pushItem (member : loc) (name : string) (price : JsValue) : Heap unit :=
  o ⇐ getObject member ;;
  match o with
  | MemberObject id memberName items advance bankInfo =>
      array ⇐ match items with
              | Some array => retHeap array
              | None =>
                  array ⇐ allocate (ArrayObject []) ;;
                  _ ⇐ assign member
                        (MemberObject id memberName (Some array) advance bankInfo) ;;
                  retHeap array
              end ;;
      a ⇐ getObject array ;;
      match a with
      | ArrayObject elements =>
          item ⇐ allocate (ItemObject name price) ;;
          assign array (ArrayObject (elements ++ [item]))
      | _ => throwHeap "TypeError"
      end
  | _ => throwHeap "TypeError"
  end.

(** [sessionWithTip.members] as the list of its elements; reading it from
    [null], or its [length] when it is absent, throws. *)
Definition membersOf (session : option loc) : Heap (list loc) :=
  match session with
  | None => throwHeap "TypeError"
  | Some l =>
      o ⇐ getObject l ;;
      match o with
      | SessionObject (Some array) =>
          a ⇐ getObject array ;;
          match a with
          | ArrayObject elements => retHeap elements
          | _ => throwHeap "TypeError"
          end
      | _ => throwHeap "TypeError"
      end
  end.

Section Tip.

Variable hostFunction : string → HostResult.
Variable this : CalculationEngine.

(** [calculateSession] applied to a session of the store. *)
Definition calculateSessionAt (session : option loc) : Heap Calculations.t :=
  value ⇐ getSession session ;;
  lift (calculateSession hostFunction this value).

(** [session.members] handed to [calculateMemberCosts]. *)
Definition originalMembers (session : option loc) : Heap (list Member.t) :=
  value ⇐ getSession session ;;
  match value with
  | Some s =>
      match Session.members s with
      | Some members => retHeap members
      | None => throwHeap "TypeError"
      end
  | None => throwHeap "TypeError"
  end.

(** The [catch] block of [calculateWithTip] logs and throws the error again,
    so the body below is the whole method. *)
Definition calculateWithTip (session : option loc) (tipAmount : JsValue)
    (tipDistribution : string) : Heap Calculations.t :=
  parsed ⇐ lift (parseExpression hostFunction this tipAmount) ;;
  let tipValue := orZero parsed in
  if Qle_bool tipValue 0 then calculateSessionAt session
  else
    sessionWithTip ⇐ JSON_clone session ;;
    _ ⇐ (if String.eqb tipDistribution "equal" then
           members ⇐ membersOf sessionWithTip ;;
           let tipPerPerson := tipValue / count (length members) in
           forEach (λ member,
                      pushItem member "Tip (Equal Split)" (JsNumber tipPerPerson))
                   members
         else if String.eqb tipDistribution "proportional" then
           original ⇐ originalMembers session ;;
           memberCalculations ⇐
             lift (calculateMemberCosts hostFunction this original) ;;
           let totalSpent := sumOf MemberCost.totalSpent memberCalculations in
           if Qlt_bool 0 totalSpent then
             members ⇐ membersOf sessionWithTip ;;
             forEach (λ '(member, index),
                        match memberCalculations !! index with
                        | Some calculation =>
                            let memberSpent := MemberCost.totalSpent calculation in
                            let tipForMember :=
                              (memberSpent / totalSpent) * tipValue in
                            pushItem member "Tip (Proportional)"
                                     (JsNumber tipForMember)
                        | None => throwHeap "TypeError"
                        end)
                     (zip members (seq 0 (length members)))
           else retHeap tt
         else retHeap tt) ;;
    calculateSessionAt sessionWithTip.

End Tip.

(** ** AnalyticsManager: cost analytics *)

(** One bucket of the histogram.  The program stores the two bounds as one
    formatted text, [range]; the model keeps the numbers. *)
Module Bucket.
Record t : Type := mk {
  bucketMin : Q;
  bucketMax : Q;
  count : nat;
  percentage : Q
}.
End Bucket.

Module CostAnalytics.
Record t : Type := mk {
  total : Q;
  average : Q;
  median : Q;
  min : Q;
  max : Q;
  distribution : list Bucket.t
}.
End CostAnalytics.

(** A stored session as the analytics read it: [totals] may be absent. *)
Module StoredSession.
Record t : Type := mk { totals : option Totals.t }.
End StoredSession.

(** [Math.min(...costs)] and [Math.max(...costs)] of a non-empty array. *)
Definition spreadMin (costs : list Q) : Q :=
  match costs with
  | [] => 0
  | x :: rest => fold_left Qmin rest x
  end.

Definition spreadMax (costs : list Q) : Q :=
  match costs with
  | [] => 0
  | x :: rest => fold_left Qmax rest x
  end.

Definition inBucket (bucketMin bucketMax cost : Q) : bool :=
  Qle_bool bucketMin cost && Qlt_bool cost bucketMax.

Definition generateCostDistribution (costs : list Q) : list Bucket.t :=
  if (length costs =? 0)%nat then []
  else
    let min := spreadMin costs in
    let max := spreadMax costs in
    let range := max - min in
    let buckets := Nat.min 10 (length costs) in
    let bucketSize := range / count buckets in
    map (λ i,
           let bucketMin := min + count i * bucketSize in
           let bucketMax := min + (count i + 1) * bucketSize in
           let n := length (filter (λ cost, inBucket bucketMin bucketMax cost = true)
                                   costs) in
           {| Bucket.bucketMin := bucketMin;
              Bucket.bucketMax := bucketMax;
              Bucket.count := n;
              Bucket.percentage := (count n / count (length costs)) * 100 |})
        (seq 0 buckets).

(** [sessions.map(s => s.totals?.totalCost || 0).filter(c => c > 0)] *)
Definition positiveCosts (sessions : list StoredSession.t) : list Q :=
  filter (λ c, Qlt_bool 0 c = true)
         (map (λ s, orZero (default 0 (Totals.totalCost <$> StoredSession.totals s)))
              sessions).

Definition generateCostAnalytics (sessions : list StoredSession.t)
  : CostAnalytics.t :=
  let costs := positiveCosts sessions in
  if (length costs =? 0)%nat then
    {| CostAnalytics.total := 0; CostAnalytics.average := 0;
       CostAnalytics.median := 0; CostAnalytics.min := 0;
       CostAnalytics.max := 0; CostAnalytics.distribution := [] |}
  else
    let costs := sort (λ a b, a - b) costs in
    {| CostAnalytics.total := sumOf id costs;
       CostAnalytics.average := sumOf id costs / count (length costs);
       CostAnalytics.median := nth (length costs / 2) costs 0;
       CostAnalytics.min := nth 0 costs 0;
       CostAnalytics.max := nth (length costs - 1) costs 0;
       CostAnalytics.distribution := generateCostDistribution costs |}.

(** ** AnalyticsManager: member and item analytics *)

(** A stored session as these analytics read it. *)
Module SavedSession.
Record t : Type := mk {
  id : string;
  members : option (list Member.t)
}.
End SavedSession.

(** [{ sessions, totalSpent, totalAdvance, items, averagePerSession }] *)
Module MemberStats.
Record t : Type := mk {
  sessions : nat;
  totalSpent : Q;
  totalAdvance : Q;
  items : nat;
  averagePerSession : Q
}.
End MemberStats.

(** A number that may be [Infinity], the start value of [minCost]. *)
Inductive Extended : Type :=
| Finite (q : Q)
| PlusInfinity.

(** [Math.min(a, price)] for a finite [price]. *)
Definition Math_min_extended (a : Extended) (price : Q) : Extended :=
  match a with
  | Finite m => Finite (Math_min m price)
  | PlusInfinity => Finite price
  end.

Definition Math_max (x y : Q) : Q := Qmax x y.

(** [{ count, totalCost, averageCost, minCost, maxCost, sessions }] while
    the items are gone through. *)
Module ItemStats.
Record t : Type := mk {
  count : nat;
  totalCost : Q;
  averageCost : Q;
  minCost : Extended;
  maxCost : Q;
  sessions : gset string
}.
End ItemStats.

(** The same once [sessions] is replaced by [sessionCount]. *)
Module ItemSummary.
Record t : Type := mk {
  count : nat;
  totalCost : Q;
  averageCost : Q;
  minCost : Extended;
  maxCost : Q;
  sessionCount : nat
}.
End ItemSummary.

(** [l.forEach(x => { ... })] on a state, stopping at the first throw. *)
Fixpoint forEachM {A S} (f : S → A → completion S) (l : list A) (s : S)
  : completion S :=
  match l with
  | [] => Normal s
  | x :: rest => s' ← f s x; forEachM f rest s'
  end.

Section Analytics.

Variable hostFunction : string → HostResult.
(** [window.calculationEngine], which may be missing. *)
Variable calculationEngine : option CalculationEngine.

(** [window.calculationEngine?.parseExpression(value) || 0] *)
Definition parsedOrZero (value : JsValue) : completion Q :=
  match calculationEngine with
  | Some this =>
      parsed ← parseExpression hostFunction this value;
      Normal (orZero parsed)
  | None => Normal 0
  end.

(** One round of the [member.items.forEach] of [generateMemberAnalytics]:
    [stats.totalSpent += price; stats.items += 1]. *)
Definition addItem (stats : MemberStats.t) (item : Item.t)
  : completion MemberStats.t :=
  price ← parsedOrZero (Item.price item);
  Normal {| MemberStats.sessions := MemberStats.sessions stats;
            MemberStats.totalSpent := MemberStats.totalSpent stats + price;
            MemberStats.totalAdvance := MemberStats.totalAdvance stats;
            MemberStats.items := MemberStats.items stats + 1;
            MemberStats.averagePerSession := MemberStats.averagePerSession stats |}.

(** One round of [session.members.forEach]: [memberStats.get(name) || {...}]
    with every figure 0, [stats.sessions += 1], the items when [member.items]
    is there, [stats.totalAdvance += advance], the average, and
    [memberStats.set(name, stats)]. *)
Definition addMember (memberStats : gmap string MemberStats.t)
    (member : Member.t) : completion (gmap string MemberStats.t) :=
  let name := Member.name member in
  let stats :=
    default {| MemberStats.sessions := 0; MemberStats.totalSpent := 0;
               MemberStats.totalAdvance := 0; MemberStats.items := 0;
               MemberStats.averagePerSession := 0 |}
            (memberStats !! name) in
  let stats :=
    {| MemberStats.sessions := MemberStats.sessions stats + 1;
       MemberStats.totalSpent := MemberStats.totalSpent stats;
       MemberStats.totalAdvance := MemberStats.totalAdvance stats;
       MemberStats.items := MemberStats.items stats;
       MemberStats.averagePerSession := MemberStats.averagePerSession stats |} in
  stats ← match Member.items member with
          | Some items => forEachM addItem items stats
          | None => Normal stats
          end;
  advance ← parsedOrZero (Member.advance member);
  Normal (<[name :=
              {| MemberStats.sessions := MemberStats.sessions stats;
                 MemberStats.totalSpent := MemberStats.totalSpent stats;
                 MemberStats.totalAdvance :=
                   MemberStats.totalAdvance stats + advance;
                 MemberStats.items := MemberStats.items stats;
                 MemberStats.averagePerSession :=
                   MemberStats.totalSpent stats
                   / count (MemberStats.sessions stats) |}]> memberStats).

(** [if (!session.members) return;] leaves a session without members out. *)
Definition generateMemberAnalytics (sessions : list SavedSession.t)
  : completion (gmap string MemberStats.t) :=
  forEachM (λ memberStats session,
              match SavedSession.members session with
              | None => Normal memberStats
              | Some members => forEachM addMember members memberStats
              end)
           sessions ∅.

(** One round of the innermost [member.items.forEach] of
    [generateItemAnalytics], for an item of a member of the session
    [sessionId]: [itemStats.get(name) || {...}] starts from [minCost: Infinity]
    and an empty set of sessions. *)
Definition countItem (sessionId : string) (itemStats : gmap string ItemStats.t)
    (item : Item.t) : completion (gmap string ItemStats.t) :=
  let name := Item.name item in
  price ← parsedOrZero (Item.price item);
  let stats :=
    default {| ItemStats.count := 0; ItemStats.totalCost := 0;
               ItemStats.averageCost := 0; ItemStats.minCost := PlusInfinity;
               ItemStats.maxCost := 0; ItemStats.sessions := ∅ |}
            (itemStats !! name) in
  let count' := (ItemStats.count stats + 1)%nat in
  let totalCost := ItemStats.totalCost stats + price in
  Normal (<[name :=
              {| ItemStats.count := count';
                 ItemStats.totalCost := totalCost;
                 ItemStats.averageCost := totalCost / count count';
                 ItemStats.minCost :=
                   Math_min_extended (ItemStats.minCost stats) price;
                 ItemStats.maxCost := Math_max (ItemStats.maxCost stats) price;
                 ItemStats.sessions := {[ sessionId ]} ∪ ItemStats.sessions stats |}]>
            itemStats).

(** [stats.sessionCount = stats.sessions.size; delete stats.sessions] *)
Definition closeStats (stats : ItemStats.t) : ItemSummary.t :=
  {| ItemSummary.count := ItemStats.count stats;
     ItemSummary.totalCost := ItemStats.totalCost stats;
     ItemSummary.averageCost := ItemStats.averageCost stats;
     ItemSummary.minCost := ItemStats.minCost stats;
     ItemSummary.maxCost := ItemStats.maxCost stats;
     ItemSummary.sessionCount := size (ItemStats.sessions stats) |}.

(** Sessions without members and members without items are left out. *)
Definition generateItemAnalytics (sessions : list SavedSession.t)
  : completion (gmap string ItemSummary.t) :=
  forEachM (S := gmap string ItemStats.t) (λ itemStats session,
                match SavedSession.members session with
                | None => Normal itemStats
                | Some members =>
                    forEachM (λ itemStats member,
                                match Member.items member with
                                | None => Normal itemStats
                                | Some items =>
                                    forEachM (countItem (SavedSession.id session))
                                             items itemStats
                                end)
                             members itemStats
                end)
             sessions ∅
  ≫= λ itemStats : gmap string ItemStats.t, Normal (closeStats <$> itemStats).

End Analytics.

(** ** The custom split and the matching loop with NaN

    [calculateCustomSplit] reads [percentages[member.id]], which looks the
    id up along the prototype chain of the percentages object: an id that
    names a property of [Object.prototype] and is no property of the object
    itself yields a function (the object [Object.prototype] for
    ["__proto__"]).  That value is truthy, so [|| 0] keeps it, and its
    product with the total cost is NaN.  The definitions of this part carry
    the amounts of a custom split as numbers that may be NaN, from the share
    down to the matching loop. *)

Inductive Number : Type :=
| Num (q : Q)
| NaN.

(** The property names an object literal inherits from [Object.prototype]. *)
Definition Object_prototype : list string :=
  ["constructor"; "__defineGetter__"; "__defineSetter__"; "hasOwnProperty";
   "__lookupGetter__"; "__lookupSetter__"; "isPrototypeOf";
   "propertyIsEnumerable"; "toString"; "valueOf"; "__proto__";
   "toLocaleString"].

(** What [percentages[member.id] || 0] is: a number, or the truthy value
    inherited under that name. *)
Inductive Percentage : Type :=
| Percent (p : Q)
| InheritedValue.

Module WithNaN.

(** [x - y], [x + y], [x < y], [x <= y]: NaN in, NaN or [false] out. *)
Definition minus (x y : Number) : Number :=
  match x, y with
  | Num a, Num b => Num (a - b)
  | _, _ => NaN
  end.

Definition plus (x y : Number) : Number :=
  match x, y with
  | Num a, Num b => Num (a + b)
  | _, _ => NaN
  end.

Definition lessThan (x y : Number) : bool :=
  match x, y with
  | Num a, Num b => Qlt_bool a b
  | _, _ => false
  end.

Definition atMost (x y : Number) : bool :=
  match x, y with
  | Num a, Num b => Qle_bool a b
  | _, _ => false
  end.

Definition Math_abs (x : Number) : Number :=
  match x with
  | Num a => Num (Qabs a)
  | NaN => NaN
  end.

Definition Math_min (x y : Number) : Number :=
  match x, y with
  | Num a, Num b => Num (Qmin a b)
  | _, _ => NaN
  end.

(** [Math.round(NaN * factor) / factor] is NaN, and so for the other two
    methods. *)
Definition roundNumber (this : CalculationEngine) (number : Number) : Number :=
  match number with
  | Num q => Num (roundNumber this q)
  | NaN => NaN
  end.

(** [{ ...member, amountPerPerson, finalAmount, status }] *)
Module MemberCalculation.
Record t : Type := mk {
  id : string;
  name : string;
  items : list Item.t;
  advance : Q;
  bankInfo : option BankInfo.t;
  totalSpent : Q;
  itemCount : nat;
  amountPerPerson : Number;
  finalAmount : Number;
  status : Status
}.
End MemberCalculation.

(** [{ name, amount }] *)
Module Entry.
Record t : Type := mk { name : string; amount : Number }.
End Entry.

Module Summary.
Record t : Type := mk {
  needToPay : list Entry.t;
  getRefund : list Entry.t;
  even : list Entry.t;
  totalNeedToPay : Number;
  totalRefund : Number;
  balanceCheck : Number
}.
End Summary.

(** [{ memberCalculations, totals, summary }] *)
Module Calculations.
Record t : Type := mk {
  memberCalculations : list MemberCalculation.t;
  totals : Totals.t;
  summary : Summary.t
}.
End Calculations.

(** [{ from, to, amount }] *)
Module Suggestion.
Record t : Type := mk { from : string; to : string; amount : Number }.
End Suggestion.

Module Matching.
Record t : Type := mk {
  needToPay : list Entry.t;
  getRefund : list Entry.t;
  suggestions : list Suggestion.t;
  payIndex : nat;
  refundIndex : nat
}.
End Matching.

(** [percentages[id] || 0] *)
Definition percentageOf (percentages : gmap string Q) (id : string)
  : Percentage :=
  match percentages !! id with
  | Some p => Percent (orZero p)
  | None =>
      if bool_decide (id ∈ Object_prototype) then InheritedValue
      else Percent 0
  end.

(** [(totals.totalCost * percentage) / 100] *)
Definition shareOf (totalCost : Q) (percentage : Percentage) : Number :=
  match percentage with
  | Percent p => Num (totalCost * p / 100)
  | InheritedValue => NaN
  end.

(** [Array.prototype.sort], as [sort] above; a comparison that yields NaN
    counts as 0.  With NaN among the amounts the comparison is not
    consistent, and the order of more than one entry is then up to the
    host. *)
Fixpoint insertSorted {A} (compareFn : A → A → Number) (x : A) (l : list A)
  : list A :=
  match l with
  | [] => [x]
  | y :: rest =>
      if lessThan (Num 0) (compareFn x y) then y :: insertSorted compareFn x rest
      else x :: y :: rest
  end.

Fixpoint sort {A} (compareFn : A → A → Number) (l : list A) : list A :=
  match l with
  | [] => []
  | x :: rest => insertSorted compareFn x (sort compareFn rest)
  end.

Section Engine.

Variable hostFunction : string → HostResult.
Variable this : CalculationEngine.

(** The status block of [calculateCustomSplit]. *)
Definition finalize (member : MemberCost.t) (amountPerPerson : Number)
  : MemberCalculation.t :=
  let finalAmount := minus amountPerPerson (Num (MemberCost.advance member)) in
  let outcome : Status * Number :=
    if lessThan (Math_abs finalAmount) (Num (1 # 100)) then (even, Num 0)
    else if lessThan (Num 0) finalAmount then (needs_to_pay, finalAmount)
    else (gets_refund, Math_abs finalAmount) in
  {| MemberCalculation.id := MemberCost.id member;
     MemberCalculation.name := MemberCost.name member;
     MemberCalculation.items := MemberCost.items member;
     MemberCalculation.advance := MemberCost.advance member;
     MemberCalculation.bankInfo := MemberCost.bankInfo member;
     MemberCalculation.totalSpent := MemberCost.totalSpent member;
     MemberCalculation.itemCount := MemberCost.itemCount member;
     MemberCalculation.amountPerPerson := roundNumber this amountPerPerson;
     MemberCalculation.finalAmount := roundNumber this (outcome.2);
     MemberCalculation.status := outcome.1 |}.

Definition withStatus (s : Status) (memberCalculations : list MemberCalculation.t)
  : list MemberCalculation.t :=
  filter (λ m, MemberCalculation.status m = s) memberCalculations.

(** One round of the [forEach] of [generateSummary]. *)
Definition summarize (summary : Summary.t) (member : MemberCalculation.t)
  : Summary.t :=
  let name := MemberCalculation.name member in
  let finalAmount := MemberCalculation.finalAmount member in
  match MemberCalculation.status member with
  | needs_to_pay =>
      {| Summary.needToPay :=
           Summary.needToPay summary ++ [Entry.mk name finalAmount];
         Summary.getRefund := Summary.getRefund summary;
         Summary.even := Summary.even summary;
         Summary.totalNeedToPay :=
           plus (Summary.totalNeedToPay summary) finalAmount;
         Summary.totalRefund := Summary.totalRefund summary;
         Summary.balanceCheck := Summary.balanceCheck summary |}
  | gets_refund =>
      {| Summary.needToPay := Summary.needToPay summary;
         Summary.getRefund :=
           Summary.getRefund summary ++ [Entry.mk name finalAmount];
         Summary.even := Summary.even summary;
         Summary.totalNeedToPay := Summary.totalNeedToPay summary;
         Summary.totalRefund := plus (Summary.totalRefund summary) finalAmount;
         Summary.balanceCheck := Summary.balanceCheck summary |}
  | even =>
      {| Summary.needToPay := Summary.needToPay summary;
         Summary.getRefund := Summary.getRefund summary;
         Summary.even := Summary.even summary ++ [Entry.mk name (Num 0)];
         Summary.totalNeedToPay := Summary.totalNeedToPay summary;
         Summary.totalRefund := Summary.totalRefund summary;
         Summary.balanceCheck := Summary.balanceCheck summary |}
  end.

Definition generateSummary (memberCalculations : list MemberCalculation.t)
    (totals : Totals.t) : Summary.t :=
  let summary :=
    fold_left summarize memberCalculations
      {| Summary.needToPay := []; Summary.getRefund := []; Summary.even := [];
         Summary.totalNeedToPay := Num 0; Summary.totalRefund := Num 0;
         Summary.balanceCheck := Num 0 |} in
  let totalNeedToPay := roundNumber this (Summary.totalNeedToPay summary) in
  let totalRefund := roundNumber this (Summary.totalRefund summary) in
  {| Summary.needToPay := Summary.needToPay summary;
     Summary.getRefund := Summary.getRefund summary;
     Summary.even := Summary.even summary;
     Summary.totalNeedToPay := totalNeedToPay;
     Summary.totalRefund := totalRefund;
     Summary.balanceCheck := roundNumber this (minus totalNeedToPay totalRefund) |}.

Definition calculateCustomSplit (session : option Session.t)
    (percentages : option (gmap string Q)) : completion Calculations.t :=
  try_catch
    (match session, percentages with
     | Some session, Some percentages =>
         match Session.members session with
         | None => Throw "Invalid parameters for custom split"
         | Some members =>
             if Qlt_bool (1 # 100) (Qabs (totalPercentage percentages - 100))
             then Throw "Percentages must sum to 100%"
             else
               memberCalculations ← calculateMemberCosts hostFunction this members;
               let totals := calculateSessionTotals this memberCalculations in
               let customCalculations :=
                 map (λ member,
                        let percentage :=
                          percentageOf percentages (MemberCost.id member) in
                        finalize member
                          (shareOf (Totals.totalCost totals) percentage))
                     memberCalculations in
               let summary := generateSummary customCalculations totals in
               Normal {| Calculations.memberCalculations := customCalculations;
                         Calculations.totals := totals;
                         Calculations.summary := summary |}
         end
     | _, _ => Throw "Invalid parameters for custom split"
     end)
    (λ error, Throw error).

(** [generatePaymentSuggestions]: the two sorted lists, *)
Definition entries (s : Status) (memberCalculations : list MemberCalculation.t)
  : list Entry.t :=
  sort (λ a b, minus (Entry.amount b) (Entry.amount a))
       (map (λ m, {| Entry.name := MemberCalculation.name m;
                     Entry.amount := MemberCalculation.finalAmount m |})
            (withStatus s memberCalculations)).

(** the loop condition, *)
Definition loopCondition (st : Matching.t) : bool :=
  (Matching.payIndex st <? length (Matching.needToPay st))%nat
  && (Matching.refundIndex st <? length (Matching.getRefund st))%nat.

Definition setAmount (e : Entry.t) (amount : Number) : Entry.t :=
  {| Entry.name := Entry.name e; Entry.amount := amount |}.

(** the loop body, *)
Definition loopBody (st : Matching.t) : Matching.t :=
  match Matching.needToPay st !! Matching.payIndex st,
        Matching.getRefund st !! Matching.refundIndex st with
  | Some payer, Some receiver =>
      let transferAmount := Math_min (Entry.amount payer) (Entry.amount receiver) in
      let suggestions :=
        if lessThan (Num (1 # 100)) transferAmount then
          Matching.suggestions st ++
            [{| Suggestion.from := Entry.name payer;
                Suggestion.to := Entry.name receiver;
                Suggestion.amount := roundNumber this transferAmount |}]
        else Matching.suggestions st in
      let payer := setAmount payer (minus (Entry.amount payer) transferAmount) in
      let receiver :=
        setAmount receiver (minus (Entry.amount receiver) transferAmount) in
      {| Matching.needToPay := <[Matching.payIndex st := payer]> (Matching.needToPay st);
         Matching.getRefund := <[Matching.refundIndex st := receiver]> (Matching.getRefund st);
         Matching.suggestions := suggestions;
         Matching.payIndex :=
           if atMost (Entry.amount payer) (Num (1 # 100))
           then S (Matching.payIndex st) else Matching.payIndex st;
         Matching.refundIndex :=
           if atMost (Entry.amount receiver) (Num (1 # 100))
           then S (Matching.refundIndex st) else Matching.refundIndex st |}
  | _, _ => st
  end.

(** and the loop, run with a bound on the number of iterations: [None]
    means the bound was reached with the condition still true. *)
Fixpoint whileLoop (fuel : nat) (st : Matching.t) : option (nat * Matching.t) :=
  if loopCondition st then
    match fuel with
    | O => None
    | S fuel =>
        '(iterations, final) ← whileLoop fuel (loopBody st);
        Some (S iterations, final)
    end
  else Some (O, st).

Definition initialMatching (calculations : Calculations.t) : Matching.t :=
  {| Matching.needToPay :=
       entries needs_to_pay (Calculations.memberCalculations calculations);
     Matching.getRefund :=
       entries gets_refund (Calculations.memberCalculations calculations);
     Matching.suggestions := [];
     Matching.payIndex := 0;
     Matching.refundIndex := 0 |}.

(** [generatePaymentSuggestions calculations] returns [suggestions]: the
    loop ends after some number of iterations.  Nothing in the body throws,
    so the [catch] is never entered. *)
Definition generatePaymentSuggestions (calculations : Calculations.t)
    (suggestions : list Suggestion.t) : Prop :=
  ∃ fuel iterations final,
    whileLoop fuel (initialMatching calculations) = Some (iterations, final)
    ∧ Matching.suggestions final = suggestions.

End Engine.

End WithNaN.

(** * Specification vocabulary *)

(** [10 ^ precision] *)
Definition factor (this : CalculationEngine) : Q :=
  inject_Z (10 ^ Z.of_nat (precision this)).

(** A number with at most [precision] decimals. *)
Definition rounded (this : CalculationEngine) (q : Q) : Prop :=
  ∃ z : Z, q == inject_Z z / factor this.

(** The value [parseExpression] returns. *)
Definition parseValue (hostFunction : string → HostResult)
    (this : CalculationEngine) (expression : JsValue) : Q :=
  match parseExpression hostFunction this expression with
  | Normal v => v
  | Throw _ => 0
  end.

(** What [calculateMemberCosts] builds for one member. *)
Definition costOf (hostFunction : string → HostResult)
    (this : CalculationEngine) (member : Member.t) : MemberCost.t :=
  let items := default [] (Member.items member) in
  {| MemberCost.id := Member.id member;
     MemberCost.name := Member.name member;
     MemberCost.items := items;
     MemberCost.advance :=
       orZero (parseValue hostFunction this (Member.advance member));
     MemberCost.bankInfo := Member.bankInfo member;
     MemberCost.totalSpent :=
       roundNumber this
         (fold_left (λ total item,
                       total + orZero (parseValue hostFunction this (Item.price item)))
                    items 0);
     MemberCost.itemCount := length items |}.

(** The result of [calculateSession] on a session with these members. *)
Definition settle (hostFunction : string → HostResult)
    (this : CalculationEngine) (members : list Member.t) : Calculations.t :=
  let memberCalculations := map (costOf hostFunction this) members in
  let totals := calculateSessionTotals this memberCalculations in
  let finalCalculations := calculateFinalAmounts this memberCalculations totals in
  {| Calculations.memberCalculations := finalCalculations;
     Calculations.totals := totals;
     Calculations.summary := generateSummary this finalCalculations totals |}.

(** The result of [calculateCustomSplit] once the parameters are accepted. *)
Definition splitBy (hostFunction : string → HostResult)
    (this : CalculationEngine) (members : list Member.t)
    (percentages : gmap string Q) : Calculations.t :=
  let memberCalculations := map (costOf hostFunction this) members in
  let totals := calculateSessionTotals this memberCalculations in
  let customCalculations :=
    map (λ member,
           finalize this member
             (Totals.totalCost totals
              * percentageOf percentages (MemberCost.id member) / 100))
        memberCalculations in
  {| Calculations.memberCalculations := customCalculations;
     Calculations.totals := totals;
     Calculations.summary := generateSummary this customCalculations totals |}.

(** Entries the two indices of the matching loop have not passed yet. *)
Definition remaining (st : Matching.t) : nat :=
  (length (Matching.needToPay st) - Matching.payIndex st)
  + (length (Matching.getRefund st) - Matching.refundIndex st).

(** An amount as [calculateFinalAmounts] leaves it: not negative, rounded. *)
Definition settledAmount (this : CalculationEngine) (q : Q) : Prop :=
  0 <= q ∧ rounded this q.

(** A settlement result: every final amount is a settled amount. *)
Definition settled (this : CalculationEngine) (calculations : Calculations.t)
  : Prop :=
  Forall (λ m, settledAmount this (MemberCalculation.finalAmount m))
         (Calculations.memberCalculations calculations).

(** Remaining balances of at most 0.01. *)
Definition small (l : list Entry.t) : Prop :=
  Forall (λ e, Entry.amount e <= 1 # 100) l.

Definition paid (st : Matching.t) : Q :=
  sumOf Suggestion.amount (Matching.suggestions st).

(** What every iteration of the matching loop keeps true; [owed] and [due]
    are the totals of the two sides before the loop. *)
Record invariant (this : CalculationEngine) (owed due : Q) (st : Matching.t)
  : Prop := {
  inv_payers :
    Forall (λ e, settledAmount this (Entry.amount e)) (Matching.needToPay st);
  inv_receivers :
    Forall (λ e, settledAmount this (Entry.amount e)) (Matching.getRefund st);
  inv_owed : paid st + sumOf Entry.amount (Matching.needToPay st) <= owed;
  inv_due : paid st + sumOf Entry.amount (Matching.getRefund st) <= due;
  inv_paid : small (take (Matching.payIndex st) (Matching.needToPay st));
  inv_refunded : small (take (Matching.refundIndex st) (Matching.getRefund st))
}.

(** What the suggestions have [name] pay, and what they have [name]
    receive. *)
Definition paidBy (name : string) (suggestions : list Suggestion.t) : Q :=
  sumOf Suggestion.amount
        (filter (λ s, Suggestion.from s = name) suggestions).

Definition receivedBy (name : string) (suggestions : list Suggestion.t) : Q :=
  sumOf Suggestion.amount
        (filter (λ s, Suggestion.to s = name) suggestions).

(** The balances once the suggested transfers are made: what a payer still
    owes, what a receiver is still due. *)
Definition payersServed (calculations : Calculations.t)
    (suggestions : list Suggestion.t) : Prop :=
  Forall (λ m, MemberCalculation.finalAmount m
               - paidBy (MemberCalculation.name m) suggestions <= 1 # 100)
         (withStatus needs_to_pay (Calculations.memberCalculations calculations)).

Definition receiversServed (calculations : Calculations.t)
    (suggestions : list Suggestion.t) : Prop :=
  Forall (λ m, MemberCalculation.finalAmount m
               - receivedBy (MemberCalculation.name m) suggestions <= 1 # 100)
         (withStatus gets_refund (Calculations.memberCalculations calculations)).

(** The suggested amounts stay within both totals. *)
Definition withinTotals (calculations : Calculations.t)
    (suggestions : list Suggestion.t) : Prop :=
  sumOf Suggestion.amount suggestions
  <= Qmin (sumOf MemberCalculation.finalAmount
             (withStatus needs_to_pay (Calculations.memberCalculations calculations)))
          (sumOf MemberCalculation.finalAmount
             (withStatus gets_refund (Calculations.memberCalculations calculations))).

(** The transfers stay within both totals and leave nobody, payer or
    receiver, with more than 0.01. *)
Definition transfersSettleEveryone (this : CalculationEngine)
    (calculations : Calculations.t) : Prop :=
  let suggestions := generatePaymentSuggestions this calculations in
  withinTotals calculations suggestions
  ∧ payersServed calculations suggestions
  ∧ receiversServed calculations suggestions.

(** Entries from the greatest amount to the least. *)
Definition descending (l : list Entry.t) : Prop :=
  StronglySorted (λ a b, Entry.amount b <= Entry.amount a) l.

(** Every entry of one side that was above 0.01 at first has had all that
    went off its amount suggested: what is left of its first amount after
    the transfers [moved] under its name is in its current amount. *)
Definition covered (initial current : list Entry.t) (moved : string → Q)
  : Prop :=
  ∀ i e0 e, initial !! i = Some e0 → current !! i = Some e →
    Entry.amount e0 <= 1 # 100
    ∨ Entry.amount e0 - moved (Entry.name e0) <= Entry.amount e.

(** From [index] on the entries were at most 0.01 at first. *)
Definition tinyFrom (index : nat) (initial : list Entry.t) : Prop :=
  ∀ i e0, (index ≤ i)%nat → initial !! i = Some e0 →
    Entry.amount e0 <= 1 # 100.

(** The entries behind [index] are as they were at first, and the entry at
    [index] is so too unless more than 0.01 is left of it. *)
Definition untouched (index : nat) (initial current : list Entry.t) : Prop :=
  map Entry.name current = map Entry.name initial
  ∧ (∀ i e, (index < i)%nat → current !! i = Some e → initial !! i = Some e)
  ∧ (∀ e, current !! index = Some e →
       1 # 100 < Entry.amount e ∨ initial !! index = Some e).

(** What every iteration of the matching loop keeps true of the suggestions
    made so far. *)
Record served (calculations : Calculations.t) (st : Matching.t) : Prop := {
  served_payers :
    untouched (Matching.payIndex st)
              (Matching.needToPay (initialMatching calculations))
              (Matching.needToPay st);
  served_receivers :
    untouched (Matching.refundIndex st)
              (Matching.getRefund (initialMatching calculations))
              (Matching.getRefund st);
  served_amounts :
    Forall (λ s, 0 <= Suggestion.amount s) (Matching.suggestions st);
  served_payer_side :
    covered (Matching.needToPay (initialMatching calculations))
            (Matching.needToPay st)
            (λ name, paidBy name (Matching.suggestions st))
    ∨ tinyFrom (Matching.refundIndex st)
               (Matching.getRefund (initialMatching calculations));
  served_receiver_side :
    covered (Matching.getRefund (initialMatching calculations))
            (Matching.getRefund st)
            (λ name, receivedBy name (Matching.suggestions st))
    ∨ tinyFrom (Matching.payIndex st)
               (Matching.needToPay (initialMatching calculations));
  served_one_side :
    covered (Matching.needToPay (initialMatching calculations))
            (Matching.needToPay st)
            (λ name, paidBy name (Matching.suggestions st))
    ∨ covered (Matching.getRefund (initialMatching calculations))
              (Matching.getRefund st)
              (λ name, receivedBy name (Matching.suggestions st))
}.

(** The shares of a custom split whose percentages sum to 100 add up to the
    total cost within 0.01. *)
Definition customSplitAddsUp (hostFunction : string → HostResult)
    (this : CalculationEngine) (session : option Session.t)
    (percentages : gmap string Q) : Prop :=
  ∀ calculations,
    totalPercentage percentages == 100 →
    calculateCustomSplit hostFunction this session (Some percentages)
      = Normal calculations →
    Qabs (sumOf MemberCalculation.amountPerPerson
            (Calculations.memberCalculations calculations)
          - Totals.totalCost (Calculations.totals calculations)) <= 1 # 100.

(** [h] extends [h0], and no object added since [h0] refers into [h0]. *)
Definition isolated (h0 h : store) : Prop :=
  h0 ⊆ h
  ∧ ∀ l o, h !! l = Some o → l ∉ dom h0 → Forall (λ l', l' ∉ dom h0) (refs o).

(** [m] keeps the objects of [h0] as they are, and its result satisfies
    [post]. *)
Definition keeps (h0 : store) {A} (m : Heap A) (post : A → Prop) : Prop :=
  ∀ h, isolated h0 h →
       isolated h0 (m h).1 ∧ ∀ a, (m h).2 = Normal a → post a.

(** Number of buckets of [distribution] whose range contains [cost]. *)
Definition countedIn (distribution : list Bucket.t) (cost : Q) : nat :=
  length (filter (λ b, inBucket (Bucket.bucketMin b) (Bucket.bucketMax b) cost = true)
                 distribution).


Definition bucketWidth (costs : list Q) : Q :=
  (spreadMax costs - spreadMin costs) / count (Nat.min 10 (length costs)).

(** The bucket with index [i]. *)
Definition bucketOf (costs : list Q) (i : nat) : Bucket.t :=
  let bucketMin := spreadMin costs + count i * bucketWidth costs in
  let bucketMax := spreadMin costs + (count i + 1) * bucketWidth costs in
  let n := length (filter (λ cost, inBucket bucketMin bucketMax cost = true) costs) in
  {| Bucket.bucketMin := bucketMin;
     Bucket.bucketMax := bucketMax;
     Bucket.count := n;
     Bucket.percentage := (count n / count (length costs)) * 100 |}.



(** ** Concrete sessions *)

(** Scenario A: Alice bought one item priced ["2*25000"] and advanced
    nothing; Bob bought nothing and advanced 60000.  The application creates
    a member with the number [0] as advance and later stores what is typed
    into the advance field, a text; Bob's advance is a parameter here. *)
Definition alice : Member.t :=
  {| Member.id := "a"; Member.name := "Alice";
     Member.items :=
       Some [ {| Item.name := "beer"; Item.price := JsString "2*25000" |} ];
     Member.advance := JsNumber 0;
     Member.bankInfo := None |}.

Definition bob (advance : JsValue) : Member.t :=
  {| Member.id := "b"; Member.name := "Bob";
     Member.items := Some [];
     Member.advance := advance;
     Member.bankInfo := None |}.

Definition scenarioA (bobAdvance : JsValue) : option Session.t :=
  Some {| Session.members := Some [alice; bob bobAdvance] |}.

(** What scenario A is expected to produce. *)
Definition scenarioA_expected (calculations : Calculations.t)
    (suggestions : list Suggestion.t) : Prop :=
  Totals.costPerPerson (Calculations.totals calculations) == 25000
  ∧ (∃ a b,
       Calculations.memberCalculations calculations = [a; b]
       ∧ MemberCalculation.name a = "Alice"
       ∧ MemberCalculation.finalAmount a == 25000
       ∧ MemberCalculation.status a = needs_to_pay
       ∧ MemberCalculation.name b = "Bob"
       ∧ MemberCalculation.finalAmount b == 35000
       ∧ MemberCalculation.status b = gets_refund)
  ∧ (∃ t,
       suggestions = [t]
       ∧ Suggestion.from t = "Alice" ∧ Suggestion.to t = "Bob"
       ∧ Suggestion.amount t == 25000).

(** Scenario D: the percentages [{a: 60, b: 41}]. *)
Definition scenarioD : gmap string Q := {[ "a" := 60; "b" := 41 ]}.

(** A member with one item and no advance. *)
Definition guest (id : string) (price : string) : Member.t :=
  {| Member.id := id; Member.name := id;
     Member.items :=
       Some [ {| Item.name := "dish"; Item.price := JsString price |} ];
     Member.advance := JsNumber 0;
     Member.bankInfo := None |}.

(** One member, and the whole bill given to an id that is no member. *)
Definition strangerSession : option Session.t :=
  Some {| Session.members := Some [guest "a" "100"] |}.

Definition strangerPercentages : gmap string Q := {[ "b" := 100 ]}.

(** Six members; five shares of 0.375% and one of 98.125% of a bill of 1. *)
Definition crumbsMembers : list Member.t :=
  [guest "a" "1"; guest "b" "0"; guest "c" "0"; guest "d" "0"; guest "e" "0";
   guest "f" "0"].

Definition crumbsPercentages : gmap string Q :=
  {[ "a" := 98125 # 1000; "b" := 375 # 1000; "c" := 375 # 1000;
     "d" := 375 # 1000; "e" := 375 # 1000; "f" := 375 # 1000 ]}.

(** Two members with complete percentages. *)
Definition pairMembers : list Member.t := [guest "a" "100"; guest "b" "0"].

Definition pairPercentages : gmap string Q := {[ "a" := 60; "b" := 40 ]}.

(** A store holding scenario A: the session at 1, its members array at 2,
    Alice at 3 with her items array at 4 and her item at 5, Bob at 6 with
    no items array. *)
Definition scenarioStore : store :=
  {[ 1%positive := SessionObject (Some 2%positive);
     2%positive := ArrayObject [3%positive; 6%positive];
     3%positive := MemberObject "a" "Alice" (Some 4%positive) (JsNumber 0) None;
     4%positive := ArrayObject [5%positive];
     5%positive := ItemObject "beer" (JsString "2*25000");
     6%positive := MemberObject "b" "Bob" None (JsString "60000") None ]}.

(** ** Vocabulary of the further properties *)

(** Occurrences of a character in a text. *)
Fixpoint occurrences (c : ascii) (s : string) : Z :=
  match s with
  | EmptyString => 0%Z
  | String d rest => ((if Ascii.eqb d c then 1 else 0) + occurrences c rest)%Z
  end.

(** The first [n] characters of a text. *)
Fixpoint firstChars (n : nat) (s : string) : string :=
  match n, s with
  | S n, String c rest => String c (firstChars n rest)
  | _, _ => EmptyString
  end.

(** Parentheses that are balanced: no prefix closes more than it opens, and
    the whole text closes as many as it opens. *)
Definition balanced (s : string) : Prop :=
  (∀ n, (occurrences ")" (firstChars n s) <= occurrences "(" (firstChars n s))%Z)
  ∧ occurrences "(" s = occurrences ")" s.

(** [costPerPerson - advance], the difference [calculateFinalAmounts]
    classifies. *)
Definition shareLeft (totals : Totals.t) (c : MemberCalculation.t) : Q :=
  Totals.costPerPerson totals - MemberCalculation.advance c.

(** [{ name, amount: finalAmount }] *)
Definition entryOf (m : MemberCalculation.t) : Entry.t :=
  {| Entry.name := MemberCalculation.name m;
     Entry.amount := MemberCalculation.finalAmount m |}.

(** Names of the members with a given status. *)
Definition namesWith (status : Status) (calculations : Calculations.t)
  : list string :=
  map MemberCalculation.name
      (withStatus status (Calculations.memberCalculations calculations)).

(** A suggestion from a payer to a receiver of [calculations], of 0.01 or
    more and rounded. *)
Definition properSuggestion (this : CalculationEngine)
    (calculations : Calculations.t) (s : Suggestion.t) : Prop :=
  1 # 100 <= Suggestion.amount s
  ∧ rounded this (Suggestion.amount s)
  ∧ Suggestion.from s ∈ namesWith needs_to_pay calculations
  ∧ Suggestion.to s ∈ namesWith gets_refund calculations.

(** What is still owed minus what is still due. *)
Definition imbalance (st : Matching.t) : Q :=
  sumOf Entry.amount (Matching.needToPay st)
  - sumOf Entry.amount (Matching.getRefund st).

(** The array of items a member object refers to. *)
Definition itemsLocOf (h : store) (member : loc) : option loc :=
  match h !! member with
  | Some (MemberObject _ _ (Some array) _ _) => Some array
  | _ => None
  end.

(** A session held at [root] whose members are the objects [memberLocs]
    with the contents [members], no member object and no array of items used
    twice. *)
Definition ownsMembers (h : store) (root array : loc) (memberLocs : list loc)
    (members : list Member.t) : Prop :=
  h !! root = Some (SessionObject (Some array))
  ∧ h !! array = Some (ArrayObject memberLocs)
  ∧ NoDup memberLocs
  ∧ Forall2 (λ l member, readMember h l = Some member) memberLocs members
  ∧ NoDup (array :: omap (itemsLocOf h) memberLocs).

(** [member] after [member.items.push({ name, price })]. *)
Definition withItem (name : string) (price : JsValue) (member : Member.t)
  : Member.t :=
  {| Member.id := Member.id member;
     Member.name := Member.name member;
     Member.items :=
       Some (default [] (Member.items member) ++ [Item.mk name price]);
     Member.advance := Member.advance member;
     Member.bankInfo := Member.bankInfo member |}.

(** Two members whose shares come out the same: same identity, same
    advance, the same total spent. *)
Definition sameSpending (hostFunction : string → HostResult)
    (this : CalculationEngine) (a b : Member.t) : Prop :=
  Member.id a = Member.id b ∧ Member.name a = Member.name b
  ∧ Member.advance a = Member.advance b
  ∧ MemberCost.totalSpent (costOf hostFunction this a)
    == MemberCost.totalSpent (costOf hostFunction this b).

(** Two results that charge and refund the same. *)
Definition sameAmounts (a b : Calculations.t) : Prop :=
  Totals.totalCost (Calculations.totals a)
  == Totals.totalCost (Calculations.totals b)
  ∧ Totals.totalAdvance (Calculations.totals a)
    == Totals.totalAdvance (Calculations.totals b)
  ∧ Totals.costPerPerson (Calculations.totals a)
    == Totals.costPerPerson (Calculations.totals b)
  ∧ Totals.remainingBalance (Calculations.totals a)
    == Totals.remainingBalance (Calculations.totals b)
  ∧ Forall2 (λ x y,
               MemberCalculation.id x = MemberCalculation.id y
               ∧ MemberCalculation.name x = MemberCalculation.name y
               ∧ MemberCalculation.totalSpent x == MemberCalculation.totalSpent y
               ∧ MemberCalculation.advance x = MemberCalculation.advance y
               ∧ MemberCalculation.finalAmount x == MemberCalculation.finalAmount y
               ∧ MemberCalculation.status x = MemberCalculation.status y)
            (Calculations.memberCalculations a)
            (Calculations.memberCalculations b).

(** What [parsedOrZero] yields. *)
Definition priceOf (hostFunction : string → HostResult)
    (calculationEngine : option CalculationEngine) (value : JsValue) : Q :=
  match calculationEngine with
  | Some this => orZero (parseValue hostFunction this value)
  | None => 0
  end.

(** The members of all sessions, in the order they are gone through. *)
Definition allMembers (sessions : list SavedSession.t) : list Member.t :=
  sessions ≫= λ session, default [] (SavedSession.members session).

Definition membersNamed (name : string) (sessions : list SavedSession.t)
  : list Member.t :=
  filter (λ member, Member.name member = name) (allMembers sessions).

Definition itemsOf (members : list Member.t) : list Item.t :=
  members ≫= λ member, default [] (Member.items member).

(** The items of all sessions, each with the id of its session. *)
Definition allItems (sessions : list SavedSession.t) : list (string * Item.t) :=
  sessions ≫= λ session,
    (λ item, (SavedSession.id session, item))
      <$> itemsOf (default [] (SavedSession.members session)).

Definition itemsNamed (name : string) (sessions : list SavedSession.t)
  : list (string * Item.t) :=
  filter (λ entry, Item.name entry.2 = name) (allItems sessions).

(** A value of a map after the entries with its key have gone in, one after
    the other; [step entry old new] is what one entry does. *)
Inductive Steps {A V} (step : A → option V → V → Prop)
  : list A → option V → option V → Prop :=
| Steps_nil old : Steps step [] old old
| Steps_cons entry entries old value new :
    step entry old value → Steps step entries (Some value) new →
    Steps step (entry :: entries) old new.

(** What one member does to the statistics of its name. *)
Definition memberStep (hostFunction : string → HostResult)
    (calculationEngine : option CalculationEngine)
    (member : Member.t) (old : option MemberStats.t) (new : MemberStats.t)
  : Prop :=
  let items := default [] (Member.items member) in
  let price := λ item, priceOf hostFunction calculationEngine (Item.price item) in
  let sessions := from_option MemberStats.sessions 0%nat old in
  let totalSpent := from_option MemberStats.totalSpent 0 old in
  let totalAdvance := from_option MemberStats.totalAdvance 0 old in
  let itemCount := from_option MemberStats.items 0%nat old in
  MemberStats.sessions new = (sessions + 1)%nat
  ∧ MemberStats.items new = (itemCount + length items)%nat
  ∧ MemberStats.totalSpent new == totalSpent + sumOf price items
  ∧ MemberStats.totalAdvance new
    == totalAdvance + priceOf hostFunction calculationEngine (Member.advance member)
  ∧ MemberStats.averagePerSession new
    == MemberStats.totalSpent new / count (MemberStats.sessions new).

(** What one item does to the statistics of its name. *)
Definition itemStep (hostFunction : string → HostResult)
    (calculationEngine : option CalculationEngine)
    (entry : string * Item.t) (old : option ItemStats.t) (new : ItemStats.t)
  : Prop :=
  let price := priceOf hostFunction calculationEngine (Item.price entry.2) in
  ItemStats.count new = (from_option ItemStats.count 0%nat old + 1)%nat
  ∧ ItemStats.totalCost new = from_option ItemStats.totalCost 0 old + price
  ∧ ItemStats.averageCost new
    = ItemStats.totalCost new / count (ItemStats.count new)
  ∧ ItemStats.minCost new
    = Math_min_extended (from_option ItemStats.minCost PlusInfinity old) price
  ∧ ItemStats.maxCost new
    = Math_max (from_option ItemStats.maxCost 0 old) price
  ∧ ItemStats.sessions new
    = {[ entry.1 ]} ∪ from_option ItemStats.sessions ∅ old.

(** ** Vocabulary of the custom split with NaN *)

(** A result without NaN among the results that may hold NaN. *)
Definition ofEntry (e : Entry.t) : WithNaN.Entry.t :=
  {| WithNaN.Entry.name := Entry.name e;
     WithNaN.Entry.amount := Num (Entry.amount e) |}.

Definition ofMemberCalculation (c : MemberCalculation.t)
  : WithNaN.MemberCalculation.t :=
  {| WithNaN.MemberCalculation.id := MemberCalculation.id c;
     WithNaN.MemberCalculation.name := MemberCalculation.name c;
     WithNaN.MemberCalculation.items := MemberCalculation.items c;
     WithNaN.MemberCalculation.advance := MemberCalculation.advance c;
     WithNaN.MemberCalculation.bankInfo := MemberCalculation.bankInfo c;
     WithNaN.MemberCalculation.totalSpent := MemberCalculation.totalSpent c;
     WithNaN.MemberCalculation.itemCount := MemberCalculation.itemCount c;
     WithNaN.MemberCalculation.amountPerPerson :=
       Num (MemberCalculation.amountPerPerson c);
     WithNaN.MemberCalculation.finalAmount :=
       Num (MemberCalculation.finalAmount c);
     WithNaN.MemberCalculation.status := MemberCalculation.status c |}.

Definition ofSummary (s : Summary.t) : WithNaN.Summary.t :=
  {| WithNaN.Summary.needToPay := map ofEntry (Summary.needToPay s);
     WithNaN.Summary.getRefund := map ofEntry (Summary.getRefund s);
     WithNaN.Summary.even := map ofEntry (Summary.even s);
     WithNaN.Summary.totalNeedToPay := Num (Summary.totalNeedToPay s);
     WithNaN.Summary.totalRefund := Num (Summary.totalRefund s);
     WithNaN.Summary.balanceCheck := Num (Summary.balanceCheck s) |}.

Definition ofCalculations (c : Calculations.t) : WithNaN.Calculations.t :=
  {| WithNaN.Calculations.memberCalculations :=
       map ofMemberCalculation (Calculations.memberCalculations c);
     WithNaN.Calculations.totals := Calculations.totals c;
     WithNaN.Calculations.summary := ofSummary (Calculations.summary c) |}.

(** No id of [members] finds an inherited value in [percentages]: an id that
    names a property of [Object.prototype] is a key of [percentages]. *)
Definition ownPercentages (percentages : gmap string Q)
    (members : list Member.t) : Prop :=
  Forall (λ member,
            Member.id member ∈ Object_prototype →
            is_Some (percentages !! Member.id member))
         members.

(** The loop is at a payer and a receiver one of whose amounts is NaN. *)
Definition stuck (st : WithNaN.Matching.t) : Prop :=
  ∃ payer receiver,
    WithNaN.Matching.needToPay st !! WithNaN.Matching.payIndex st = Some payer
    ∧ WithNaN.Matching.getRefund st !! WithNaN.Matching.refundIndex st
      = Some receiver
    ∧ (WithNaN.Entry.amount payer = NaN ∨ WithNaN.Entry.amount receiver = NaN).

(** Two members, the second with the id ["toString"], and the whole bill of
    100 given to the first. *)
Definition inheritedIdSession : option Session.t :=
  Some {| Session.members := Some [guest "a" "100"; guest "toString" "0"] |}.

Definition inheritedIdPercentages : gmap string Q := {[ "a" := 100 ]}.

Definition ofSuggestion (s : Suggestion.t) : WithNaN.Suggestion.t :=
  {| WithNaN.Suggestion.from := Suggestion.from s;
     WithNaN.Suggestion.to := Suggestion.to s;
     WithNaN.Suggestion.amount := Num (Suggestion.amount s) |}.

Definition ofMatching (st : Matching.t) : WithNaN.Matching.t :=
  {| WithNaN.Matching.needToPay := map ofEntry (Matching.needToPay st);
     WithNaN.Matching.getRefund := map ofEntry (Matching.getRefund st);
     WithNaN.Matching.suggestions := map ofSuggestion (Matching.suggestions st);
     WithNaN.Matching.payIndex := Matching.payIndex st;
     WithNaN.Matching.refundIndex := Matching.refundIndex st |}.

(** * Comparisons *)

Lemma Qlt_bool_true x y : Qlt_bool x y = true ↔ x < y.
Proof.
  unfold Qlt_bool. rewrite negb_true_iff, <- not_true_iff_false, Qle_bool_iff.
  split; [apply Qnot_le_lt | apply Qlt_not_le].
Qed.

Lemma Qlt_bool_false x y : Qlt_bool x y = false ↔ y <= x.
Proof. unfold Qlt_bool. by rewrite negb_false_iff, Qle_bool_iff. Qed.

Lemma orZero_eq x : orZero x == x.
Proof.
  unfold orZero. destruct (Qeq_bool x 0) eqn:E; [|reflexivity].
  symmetry. by apply Qeq_bool_iff.
Qed.

(** * Rounding *)

Lemma factor_pos this : 0 < factor this.
Proof.
  unfold factor. change 0 with (inject_Z 0). rewrite <- Zlt_Qlt.
  apply Z.pow_pos_nonneg; lia.
Qed.

Lemma roundNumber_cases this x :
  ∃ z : Z, roundNumber this x = inject_Z z / factor this
    ∧ (z = Math_floor (x * factor this) ∨ z = Math_ceil (x * factor this)
       ∨ z = Math_round (x * factor this)).
Proof.
  unfold roundNumber, factor.
  destruct (String.eqb _ "floor"); [eauto|].
  destruct (String.eqb _ "ceil"); eauto 6.
Qed.

Lemma roundNumber_rounded this x : rounded this (roundNumber this x).
Proof.
  destruct (roundNumber_cases this x) as (z & -> & _). by exists z.
Qed.

Lemma Math_round_Z (z : Z) : Math_round (inject_Z z) = z.
Proof.
  unfold Math_round.
  apply Z.le_antisymm.
  - assert (H : inject_Z (Qfloor (inject_Z z + (1 # 2))) < inject_Z (z + 1)).
    { eapply Qle_lt_trans; [apply Qfloor_le|].
      rewrite inject_Z_plus. unfold inject_Z at 3. lra. }
    rewrite <- Zlt_Qlt in H. lia.
  - rewrite <- (Qfloor_Z z) at 1. apply Qfloor_resp_le. lra.
Qed.

Lemma roundNumber_proper this : Proper (Qeq ==> Qeq) (roundNumber this).
Proof.
  intros x y Hxy. unfold roundNumber, Math_floor, Math_ceil, Math_round.
  destruct (String.eqb _ "floor"); [by rewrite Hxy|].
  destruct (String.eqb _ "ceil"); by rewrite Hxy.
Qed.

#[global] Existing Instance roundNumber_proper.

(** Rounding leaves a rounded number as it is. *)
Lemma roundNumber_fixed this q : rounded this q → roundNumber this q == q.
Proof.
  intros [z Hz]. rewrite Hz at 2.
  pose proof (factor_pos this) as Hf.
  assert (Hq : q * factor this == inject_Z z).
  { rewrite Hz. field. lra. }
  destruct (roundNumber_cases this q) as (z' & -> & Hz').
  assert (z' = z) as ->; [|reflexivity].
  unfold Math_floor, Math_ceil in Hz'.
  destruct Hz' as [->| [->| ->]].
  - rewrite (Qfloor_comp _ _ Hq). apply Qfloor_Z.
  - rewrite (Qceiling_comp _ _ Hq). apply Qceiling_Z.
  - unfold Math_round. rewrite (Qfloor_comp _ (inject_Z z + (1 # 2))).
    + apply Math_round_Z.
    + by rewrite Hq.
Qed.

Lemma rounded_0 this : rounded this 0.
Proof. exists 0%Z. pose proof (factor_pos this). field. lra. Qed.

Lemma rounded_plus this a b : rounded this a → rounded this b → rounded this (a + b).
Proof.
  intros [x Hx] [y Hy]. exists (x + y)%Z.
  rewrite Hx, Hy, inject_Z_plus. pose proof (factor_pos this). field. lra.
Qed.

Lemma rounded_minus this a b : rounded this a → rounded this b → rounded this (a - b).
Proof.
  intros [x Hx] [y Hy]. exists (x - y)%Z.
  rewrite Hx, Hy. unfold Z.sub. rewrite inject_Z_plus, inject_Z_opp.
  pose proof (factor_pos this). field. lra.
Qed.

Lemma rounded_proper this a b : a == b → rounded this a → rounded this b.
Proof. intros Hab [x Hx]. exists x. by rewrite <- Hab. Qed.

Lemma rounded_min this a b :
  rounded this a → rounded this b → rounded this (Math_min a b).
Proof.
  intros Ha Hb. unfold Math_min.
  destruct (Q.min_spec a b) as [[_ H]|[_ H]].
  - apply (rounded_proper this a); [by symmetry | done].
  - apply (rounded_proper this b); [by symmetry | done].
Qed.

Lemma roundNumber_nonneg this x : 0 <= x → 0 <= roundNumber this x.
Proof.
  intros Hx. pose proof (factor_pos this) as Hf.
  destruct (roundNumber_cases this x) as (z & -> & Hz).
  assert (0 <= x * factor this) as Hxf.
  { apply Qmult_le_0_compat; lra. }
  assert (0 <= z)%Z as Hz0.
  { unfold Math_floor, Math_ceil, Math_round in Hz.
    destruct Hz as [->| [->| ->]].
    - apply (Qfloor_resp_le 0). lra.
    - apply (Qceiling_resp_le 0). lra.
    - apply (Qfloor_resp_le 0). lra. }
  apply Qle_shift_div_l; [done|]. rewrite Zle_Qle in Hz0.
  change (inject_Z 0) with 0 in Hz0. lra.
Qed.

Lemma roundNumber_constructor x :
  roundNumber constructor x = inject_Z (Qfloor (x * 100 + (1 # 2))) / 100.
Proof. reflexivity. Qed.

(** With the constructor's settings a number moves by at most half a cent. *)
Lemma roundNumber_error x : Qabs (roundNumber constructor x - x) <= 1 # 200.
Proof.
  rewrite roundNumber_constructor.
  set (y := x * 100 + (1 # 2)).
  pose proof (Qfloor_le y) as H1. pose proof (Qlt_floor y) as H2.
  rewrite inject_Z_plus in H2. change (inject_Z 1) with 1 in H2.
  apply Qabs_Qle_condition.
  set (f := inject_Z (Qfloor y)) in *. clearbody f. unfold y in H1, H2.
  unfold Qdiv. change (/ 100) with (1 # 100).
  split; lra.
Qed.

(** * Sums *)

Lemma fold_sum {A} (f : A → Q) l a :
  fold_left (λ sum x, sum + f x) l a == a + sumOf f l.
Proof.
  unfold sumOf. revert a. induction l as [|x l IH]; intros a; simpl.
  - lra.
  - rewrite (IH (a + f x)), (IH (0 + f x)). lra.
Qed.

Lemma sumOf_nil {A} (f : A → Q) : sumOf f [] = 0.
Proof. reflexivity. Qed.

Lemma sumOf_cons {A} (f : A → Q) x l : sumOf f (x :: l) == f x + sumOf f l.
Proof. unfold sumOf at 1. simpl. rewrite fold_sum. lra. Qed.

Lemma sumOf_app {A} (f : A → Q) l1 l2 :
  sumOf f (l1 ++ l2) == sumOf f l1 + sumOf f l2.
Proof.
  induction l1 as [|x l1 IH]; simpl.
  - rewrite sumOf_nil. lra.
  - rewrite !sumOf_cons, IH. lra.
Qed.

Lemma sumOf_map {A B} (f : B → Q) (g : A → B) l :
  sumOf f (map g l) == sumOf (λ x, f (g x)) l.
Proof.
  induction l as [|x l IH]; simpl; [reflexivity|].
  by rewrite !sumOf_cons, IH.
Qed.

Lemma sumOf_ext {A} (f g : A → Q) l :
  (∀ x, x ∈ l → f x == g x) → sumOf f l == sumOf g l.
Proof.
  induction l as [|x l IH]; intros H; [reflexivity|].
  rewrite !sumOf_cons, IH, (H x); [reflexivity|left|].
  intros y Hy. apply H. by right.
Qed.

Lemma sumOf_Permutation {A} (f : A → Q) l1 l2 :
  l1 ≡ₚ l2 → sumOf f l1 == sumOf f l2.
Proof.
  induction 1 as [|x l1 l2 _ IH|x y l|l1 l2 l3 _ IH1 _ IH2].
  - reflexivity.
  - by rewrite !sumOf_cons, IH.
  - rewrite !sumOf_cons. lra.
  - by rewrite IH1.
Qed.

Lemma sumOf_nonneg {A} (f : A → Q) l :
  (∀ x, x ∈ l → 0 <= f x) → 0 <= sumOf f l.
Proof.
  induction l as [|x l IH]; intros H.
  - rewrite sumOf_nil. lra.
  - rewrite sumOf_cons.
    assert (0 <= f x) by (apply H; left).
    assert (0 <= sumOf f l) by (apply IH; intros y Hy; apply H; by right).
    lra.
Qed.

Lemma sumOf_rounded {A} this (f : A → Q) l :
  (∀ x, x ∈ l → rounded this (f x)) → rounded this (sumOf f l).
Proof.
  induction l as [|x l IH]; intros H.
  - apply rounded_0.
  - eapply rounded_proper; [symmetry; apply sumOf_cons|].
    apply rounded_plus; [apply H; left|].
    apply IH. intros y Hy. apply H. by right.
Qed.

Lemma sumOf_insert {A} (f : A → Q) (l : list A) i x y :
  l !! i = Some x → sumOf f (<[i := y]> l) == sumOf f l - f x + f y.
Proof.
  revert i. induction l as [|z l IH]; intros [|i] H; simplify_eq/=.
  - rewrite !sumOf_cons. lra.
  - rewrite !sumOf_cons, (IH i) by done. lra.
Qed.

Lemma sumOf_scale {A} (f : A → Q) k l :
  sumOf (λ x, k * f x) l == k * sumOf f l.
Proof.
  induction l as [|x l IH].
  - rewrite !sumOf_nil. ring.
  - rewrite !sumOf_cons, IH. ring.
Qed.

Lemma count_pos n : (0 < n)%nat → 0 < count n.
Proof.
  intros H. unfold count. change 0 with (inject_Z 0). rewrite <- Zlt_Qlt. lia.
Qed.

Lemma count_S n : count (S n) == count n + 1.
Proof.
  unfold count. rewrite Nat2Z.inj_succ, <- Z.add_1_r. by rewrite inject_Z_plus.
Qed.

Lemma count_le n m : (n ≤ m)%nat → count n <= count m.
Proof. intros H. unfold count. rewrite <- Zle_Qle. lia. Qed.

Lemma sumOf_rounding_error {A} (f : A → Q) l :
  Qabs (sumOf (λ x, roundNumber constructor (f x)) l - sumOf f l)
  <= count (length l) * (1 # 200).
Proof.
  induction l as [|x l IH].
  - rewrite !sumOf_nil. by vm_compute.
  - rewrite !sumOf_cons. cbn [length]. rewrite count_S.
    pose proof (roundNumber_error (f x)) as Hx.
    apply Qabs_Qle_condition in Hx, IH. apply Qabs_Qle_condition.
    split; lra.
Qed.

(** The values of a map, summed, are the looked-up values summed over its
    keys taken once each. *)
Lemma sum_of_lookups (ids : list string) (m : gmap string Q) :
  NoDup ids → dom m = list_to_set ids →
  sumOf (λ id, default 0 (m !! id)) ids == sumOf snd (map_to_list m).
Proof.
  intros Hnd. revert m. induction Hnd as [|id ids Hid Hnd IH]; intros m Hdom.
  - apply dom_empty_inv_L in Hdom. subst m. by rewrite map_to_list_empty.
  - assert (is_Some (m !! id)) as [x Hx].
    { apply elem_of_dom. rewrite Hdom, list_to_set_cons.
      apply elem_of_union_l. by apply elem_of_singleton. }
    rewrite <- (sumOf_Permutation _ _ _ (map_to_list_delete m id x Hx)).
    rewrite !sumOf_cons, Hx. simpl.
    rewrite <- (IH (delete id m)).
    + apply Qplus_comp; [reflexivity|].
      apply sumOf_ext. intros id' Hid'.
      rewrite lookup_delete_ne; [reflexivity|]. by intros ->.
    + rewrite dom_delete_L, Hdom, list_to_set_cons.
      apply set_eq. intros y.
      rewrite elem_of_difference, elem_of_union, elem_of_singleton,
        elem_of_list_to_set.
      split; [by intros [[->|?] ?]|].
      intros Hy. split; [by right|]. by intros ->.
Qed.

(** * Expression parsing *)

Example run_product : ReferenceHost.run "return (2*25000)" = HostNumber 50000.
Proof. vm_compute. reflexivity. Qed.

Section ParseFacts.
Variable hostFunction : string → HostResult.
Variable this : CalculationEngine.

Lemma parseExpression_returns expression :
  returns (parseExpression hostFunction this expression).
Proof.
  unfold returns, parseExpression.
  destruct (parseExpression_try hostFunction this expression); simpl; eauto.
Qed.

Lemma parseExpression_value expression :
  parseExpression hostFunction this expression
  = Normal (parseValue hostFunction this expression).
Proof.
  unfold parseValue.
  by destruct (parseExpression_returns expression) as [v ->].
Qed.

(** The cleaned text only holds kept characters: the pattern test of
    [isValidExpression] cannot fail on it unless it is empty. *)
Lemma validPattern_clean s :
  validPattern (cleanExpression s) = negb (String.eqb (cleanExpression s) "").
Proof.
  unfold validPattern, cleanExpression.
  set (t := removeAll isCommaOrSpace s).
  assert (allChars (λ c, isKept c || isWhitespace c)
            (removeAll (λ c, negb (isKept c)) t) = true) as ->.
  { induction t as [|c t IH]; simpl; [done|].
    destruct (isKept c) eqn:E; simpl; [|done]. by rewrite E. }
  by rewrite andb_true_r.
Qed.

(** A number has no [trim]: the call throws inside the [try] block and the
    [catch] returns 0, whatever the number. *)
Lemma parseExpression_number q :
  parseExpression hostFunction this (JsNumber q) = Normal 0.
Proof.
  unfold parseExpression, parseExpression_try. simpl.
  by destruct (Qeq_bool q 0).
Qed.

(** * Member costs and session totals *)

Lemma sumItems_normal items total :
  sumItems hostFunction this items total =
  Normal (fold_left (λ total item,
                       total + orZero (parseValue hostFunction this (Item.price item)))
                    items total).
Proof.
  revert total. induction items as [|item items IH]; intros total; simpl; [done|].
  rewrite parseExpression_value. simpl. apply IH.
Qed.

Lemma memberCost_normal member :
  memberCost hostFunction this member = Normal (costOf hostFunction this member).
Proof.
  unfold memberCost. rewrite parseExpression_value. simpl.
  by rewrite sumItems_normal.
Qed.

Lemma calculateMemberCosts_normal members :
  calculateMemberCosts hostFunction this members
  = Normal (map (costOf hostFunction this) members).
Proof.
  induction members as [|member members IH]; simpl; [done|].
  rewrite memberCost_normal. simpl. by rewrite IH.
Qed.

Lemma calculateSession_normal session :
  calculateSession hostFunction this session =
  Normal (match session with
          | Some s =>
              match Session.members s with
              | Some (member :: members) =>
                  settle hostFunction this (member :: members)
              | _ => emptyCalculations this
              end
          | None => emptyCalculations this
          end).
Proof.
  unfold calculateSession.
  destruct session as [s|]; [|done].
  destruct (Session.members s) as [[|member members]|]; try done.
  by rewrite calculateMemberCosts_normal.
Qed.

Lemma calculateSession_returns session :
  returns (calculateSession hostFunction this session).
Proof. rewrite calculateSession_normal. by eexists. Qed.

Lemma calculateSession_settle session :
  ∃ members,
    calculateSession hostFunction this session
    = Normal (settle hostFunction this members).
Proof.
  rewrite calculateSession_normal.
  destruct session as [s|]; [|by exists []].
  destruct (Session.members s) as [[|member members]|];
    [by exists [] | by exists (member :: members) | by exists []].
Qed.

Lemma totalSpent_sum members :
  sumOf MemberCalculation.totalSpent
        (Calculations.memberCalculations (settle hostFunction this members))
  == Totals.totalCost (Calculations.totals (settle hostFunction this members)).
Proof.
  unfold settle, calculateFinalAmounts; simpl.
  rewrite sumOf_map.
  rewrite (sumOf_ext _ MemberCost.totalSpent) by (intros; reflexivity).
  symmetry. apply roundNumber_fixed, sumOf_rounded.
  intros x [member [-> _]]%list_elem_of_fmap. apply roundNumber_rounded.
Qed.

Lemma finalize_settled member amount :
  settledAmount this (MemberCalculation.finalAmount (finalize this member amount)).
Proof.
  unfold finalize; cbn [MemberCalculation.finalAmount].
  split; [|apply roundNumber_rounded].
  apply roundNumber_nonneg.
  destruct (Qlt_bool _ (1 # 100)); cbn [snd]; [lra|].
  destruct (Qlt_bool 0 _) eqn:E; cbn [snd].
  - apply Qlt_bool_true in E. lra.
  - apply Qabs_nonneg.
Qed.

Lemma settle_settled members : settled this (settle hostFunction this members).
Proof.
  unfold settled, settle, calculateFinalAmounts; simpl.
  apply Forall_fmap, Forall_forall. intros m _. apply finalize_settled.
Qed.

Lemma calculateSession_settled session calculations :
  calculateSession hostFunction this session = Normal calculations →
  settled this calculations.
Proof.
  destruct (calculateSession_settle session) as [members ->].
  intros [= <-]. apply settle_settled.
Qed.

(** * Custom split *)

Lemma calculateCustomSplit_accepts s members percentages :
  Session.members s = Some members →
  Qabs (totalPercentage percentages - 100) <= 1 # 100 →
  calculateCustomSplit hostFunction this (Some s) (Some percentages)
  = Normal (splitBy hostFunction this members percentages).
Proof.
  intros Hm Hp. unfold calculateCustomSplit. rewrite Hm.
  apply Qlt_bool_false in Hp. unfold Math_abs. rewrite Hp.
  by rewrite calculateMemberCosts_normal.
Qed.

Lemma splitBy_settled members percentages :
  settled this (splitBy hostFunction this members percentages).
Proof.
  unfold settled, splitBy; simpl.
  apply Forall_fmap, Forall_forall. intros m _. apply finalize_settled.
Qed.

Lemma finalize_proper member a b :
  a == b →
  MemberCalculation.status (finalize this member a)
    = MemberCalculation.status (finalize this member b)
  ∧ MemberCalculation.finalAmount (finalize this member a)
    == MemberCalculation.finalAmount (finalize this member b)
  ∧ MemberCalculation.amountPerPerson (finalize this member a)
    == MemberCalculation.amountPerPerson (finalize this member b).
Proof.
  intros Hab. unfold finalize.
  cbn [MemberCalculation.status MemberCalculation.finalAmount
       MemberCalculation.amountPerPerson].
  set (x := a - MemberCost.advance member).
  set (y := b - MemberCost.advance member).
  assert (x == y) as Hxy by (unfold x, y; by rewrite Hab).
  assert (Math_abs x == Math_abs y) as Habs by (unfold Math_abs; by rewrite Hxy).
  assert (Qlt_bool (Math_abs x) (1 # 100) = Qlt_bool (Math_abs y) (1 # 100)) as ->.
  { unfold Qlt_bool. f_equal. apply eq_true_iff_eq.
    rewrite !Qle_bool_iff. by rewrite Habs. }
  assert (Qlt_bool 0 x = Qlt_bool 0 y) as ->.
  { unfold Qlt_bool. f_equal. apply eq_true_iff_eq.
    rewrite !Qle_bool_iff. by rewrite Hxy. }
  split_and!.
  - destruct (Qlt_bool _ (1 # 100)); [reflexivity|].
    by destruct (Qlt_bool 0 y).
  - destruct (Qlt_bool _ (1 # 100)); [reflexivity|].
    destruct (Qlt_bool 0 y); cbn [snd]; [by rewrite Hxy | by rewrite Habs].
  - by rewrite Hab.
Qed.

(** What [finalize] makes of a share of zero: the advance alone decides. *)
Lemma finalize_zero member :
  let advance := MemberCost.advance member in
  let c := finalize this member 0 in
  (Qabs advance < 1 # 100 →
     MemberCalculation.status c = even ∧ MemberCalculation.finalAmount c == 0)
  ∧ (1 # 100 <= Qabs advance → advance < 0 →
     MemberCalculation.status c = needs_to_pay
     ∧ MemberCalculation.finalAmount c == roundNumber this (- advance))
  ∧ (1 # 100 <= Qabs advance → 0 <= advance →
     MemberCalculation.status c = gets_refund
     ∧ MemberCalculation.finalAmount c == roundNumber this advance).
Proof.
  intros advance c. unfold c, finalize.
  cbn [MemberCalculation.status MemberCalculation.finalAmount]. fold advance.
  assert (Math_abs (0 - advance) == Qabs advance) as Habs.
  { unfold Math_abs. assert (0 - advance == - advance) as -> by ring.
    apply Qabs_opp. }
  split_and!.
  - intros H.
    assert (Qlt_bool (Math_abs (0 - advance)) (1 # 100) = true) as ->.
    { apply Qlt_bool_true. by rewrite Habs. }
    split; [done|]. apply roundNumber_fixed, rounded_0.
  - intros H1 H2.
    assert (Qlt_bool (Math_abs (0 - advance)) (1 # 100) = false) as ->.
    { apply Qlt_bool_false. by rewrite Habs. }
    assert (Qlt_bool 0 (0 - advance) = true) as ->.
    { apply Qlt_bool_true. lra. }
    split; [done|]. cbn [snd]. apply roundNumber_proper. ring.
  - intros H1 H2.
    assert (Qlt_bool (Math_abs (0 - advance)) (1 # 100) = false) as ->.
    { apply Qlt_bool_false. by rewrite Habs. }
    assert (Qlt_bool 0 (0 - advance) = false) as ->.
    { apply Qlt_bool_false. lra. }
    split; [done|]. cbn [snd]. apply roundNumber_proper.
    rewrite Habs. by apply Qabs_pos.
Qed.

End ParseFacts.

(** * Sorting *)

Lemma insertSorted_Permutation {A} (compareFn : A → A → Q) x l :
  insertSorted compareFn x l ≡ₚ x :: l.
Proof.
  induction l as [|y l IH]; simpl; [done|].
  destruct (Qlt_bool 0 (compareFn x y)); [|done].
  rewrite IH. apply Permutation_swap.
Qed.

Lemma sort_Permutation {A} (compareFn : A → A → Q) l : sort compareFn l ≡ₚ l.
Proof.
  induction l as [|x l IH]; simpl; [done|].
  by rewrite insertSorted_Permutation, IH.
Qed.

Lemma insertSorted_ascending x l :
  Sorted Qle l → Sorted Qle (insertSorted (λ a b, a - b) x l).
Proof.
  induction 1 as [|y l Hl IH Hy]; simpl; [by repeat constructor|].
  destruct (Qlt_bool 0 (x - y)) eqn:E.
  - apply Qlt_bool_true in E. constructor; [done|].
    destruct l as [|z l]; simpl in *.
    + constructor. lra.
    + destruct (Qlt_bool 0 (x - z)); constructor; [by inversion Hy | lra].
  - apply Qlt_bool_false in E. constructor; [by constructor|]. constructor. lra.
Qed.

Lemma sort_ascending l : Sorted Qle (sort (λ a b, a - b) l).
Proof.
  induction l as [|x l IH]; simpl; [constructor|].
  by apply insertSorted_ascending.
Qed.
(** * The matching loop *)

Section MatchingFacts.
Variable this : CalculationEngine.

Lemma loopCondition_true st :
  loopCondition st = true ↔
  (Matching.payIndex st < length (Matching.needToPay st))%nat
  ∧ (Matching.refundIndex st < length (Matching.getRefund st))%nat.
Proof.
  unfold loopCondition. rewrite andb_true_iff, !Nat.ltb_lt. done.
Qed.

Lemma loopCondition_lookup st :
  loopCondition st = true →
  ∃ payer receiver,
    Matching.needToPay st !! Matching.payIndex st = Some payer
    ∧ Matching.getRefund st !! Matching.refundIndex st = Some receiver.
Proof.
  intros [H1 H2]%loopCondition_true.
  apply lookup_lt_is_Some_2 in H1 as [payer ?].
  apply lookup_lt_is_Some_2 in H2 as [receiver ?]. eauto.
Qed.

Lemma min_exhausts a b :
  Qle_bool (a - Math_min a b) (1 # 100) = true
  ∨ Qle_bool (b - Math_min a b) (1 # 100) = true.
Proof.
  unfold Math_min. rewrite !Qle_bool_iff.
  destruct (Q.min_spec a b) as [[_ ->]|[_ ->]]; [left|right]; lra.
Qed.

Lemma loopBody_lengths st :
  length (Matching.needToPay (loopBody this st)) = length (Matching.needToPay st)
  ∧ length (Matching.getRefund (loopBody this st)) = length (Matching.getRefund st).
Proof.
  unfold loopBody.
  destruct (_ !! _) as [payer|]; [|done].
  destruct (_ !! _) as [receiver|]; [|done].
  simpl. by rewrite !length_insert.
Qed.

(** Every iteration moves at least one of the two indices, by one. *)
Lemma loopBody_progress st :
  loopCondition st = true →
  let st' := loopBody this st in
  (Matching.payIndex st ≤ Matching.payIndex st' ≤ S (Matching.payIndex st))%nat
  ∧ (Matching.refundIndex st ≤ Matching.refundIndex st' ≤ S (Matching.refundIndex st))%nat
  ∧ (Matching.payIndex st + Matching.refundIndex st
     < Matching.payIndex st' + Matching.refundIndex st')%nat.
Proof.
  intros (payer & receiver & Hp & Hr)%loopCondition_lookup. simpl.
  unfold loopBody. rewrite Hp, Hr. simpl.
  destruct (min_exhausts (Entry.amount payer) (Entry.amount receiver)) as [->| ->];
    repeat case_match; lia.
Qed.

Lemma loopBody_remaining st :
  loopCondition st = true →
  (S (remaining (loopBody this st)) ≤ remaining st)%nat.
Proof.
  intros Hc. pose proof (loopBody_progress st Hc) as (H1 & H2 & H3).
  apply loopCondition_true in Hc as [Hp Hr].
  destruct (loopBody_lengths st) as [Lp Lr].
  unfold remaining. rewrite Lp, Lr. simpl in *. lia.
Qed.

Lemma whileLoop_terminates fuel st :
  (remaining st ≤ fuel)%nat →
  ∃ iterations final,
    whileLoop this fuel st = Some (iterations, final)
    ∧ loopCondition final = false
    ∧ (loopCondition st = false → iterations = O)
    ∧ (loopCondition st = true → (S iterations ≤ remaining st)%nat).
Proof.
  revert st. induction fuel as [|fuel IH]; intros st Hfuel.
  - destruct (loopCondition st) eqn:Hc.
    + apply loopCondition_true in Hc. unfold remaining in Hfuel. lia.
    + exists O, st. simpl. rewrite Hc. done.
  - destruct (loopCondition st) eqn:Hc.
    + pose proof (loopBody_remaining st Hc) as Hr.
      destruct (IH (loopBody this st)) as (n & final & Hw & Hf & Hz & Hs); [lia|].
      exists (S n), final. simpl. rewrite Hc, Hw. simpl.
      split_and!; [done|done|done|]. intros _.
      destruct (loopCondition (loopBody this st)) eqn:Hc'.
      * specialize (Hs eq_refl). lia.
      * rewrite (Hz eq_refl).
        apply loopCondition_true in Hc. unfold remaining. lia.
    + exists O, st. simpl. rewrite Hc. done.
Qed.

Lemma whileLoop_invariant (I : Matching.t → Prop) :
  (∀ st, loopCondition st = true → I st → I (loopBody this st)) →
  ∀ fuel st iterations final,
    whileLoop this fuel st = Some (iterations, final) → I st → I final.
Proof.
  intros Hstep. induction fuel as [|fuel IH]; intros st n final; simpl;
    destruct (loopCondition st) eqn:Hc; try done.
  - by intros [= _ <-].
  - destruct (whileLoop this fuel (loopBody this st)) as [[n' final']|] eqn:Hw;
      simpl; [|done].
    intros [= _ <-] HI. eapply IH; eauto.
  - by intros [= _ <-].
Qed.


Lemma settledAmount_rest a b :
  settledAmount this a → settledAmount this b →
  settledAmount this (a - Math_min a b) ∧ settledAmount this (b - Math_min a b).
Proof.
  intros [Ha Ra] [Hb Rb]. unfold settledAmount, Math_min.
  pose proof (Q.le_min_l a b). pose proof (Q.le_min_r a b).
  split_and!; try lra; apply rounded_minus; try done; by apply rounded_min.
Qed.

Lemma Forall_insert_entry (P : Entry.t → Prop) (l : list Entry.t) i e :
  Forall P l → P e → Forall P (<[i := e]> l).
Proof.
  intros Hl He. apply Forall_forall. intros x Hx.
  apply list_elem_of_lookup in Hx as [j Hj].
  destruct (decide (i = j)) as [->|Hne].
  - destruct (decide (j < length l)%nat).
    + rewrite list_lookup_insert_eq in Hj by done. by simplify_eq.
    + rewrite list_insert_ge in Hj by lia.
      eapply Forall_lookup_1 in Hl; eauto.
  - rewrite list_lookup_insert_ne in Hj by done.
    eapply Forall_lookup_1 in Hl; eauto.
Qed.

Lemma small_advance (l : list Entry.t) i e amount :
  l !! i = Some e →
  small (take i l) →
  small (take (if Qle_bool amount (1 # 100) then S i else i)
              (<[i := setAmount e amount]> l)).
Proof.
  intros Hi Hs.
  assert (i < length l)%nat as Hlt by (by eapply lookup_lt_Some).
  destruct (Qle_bool amount (1 # 100)) eqn:E.
  - erewrite take_S_r; [|by apply list_lookup_insert_eq].
    rewrite take_insert_ge by lia.
    apply Forall_app. split; [done|].
    constructor; [|constructor]. simpl. by apply Qle_bool_iff.
  - by rewrite take_insert_ge by lia.
Qed.

Lemma loopBody_invariant owed due st :
  loopCondition st = true → invariant this owed due st →
  invariant this owed due (loopBody this st).
Proof.
  intros (payer & receiver & Hp & Hr)%loopCondition_lookup [I1 I2 I3 I4 I5 I6].
  unfold loopBody. rewrite Hp, Hr.
  pose proof (Forall_lookup_1 _ _ _ _ I1 Hp) as Sp.
  pose proof (Forall_lookup_1 _ _ _ _ I2 Hr) as Sr.
  simpl in Sp, Sr.
  set (t := Math_min (Entry.amount payer) (Entry.amount receiver)).
  assert (settledAmount this t) as [Ht Rt].
  { destruct Sp, Sr. split; [|by apply rounded_min].
    unfold t, Math_min. by apply Q.min_glb. }
  assert (paid {| Matching.needToPay := [];
                  Matching.getRefund := [];
                  Matching.suggestions :=
                    if Qlt_bool (1 # 100) t
                    then Matching.suggestions st ++
                         [{| Suggestion.from := Entry.name payer;
                             Suggestion.to := Entry.name receiver;
                             Suggestion.amount := roundNumber this t |}]
                    else Matching.suggestions st;
                  Matching.payIndex := 0; Matching.refundIndex := 0 |}
          <= paid st + t) as Hpaid.
  { unfold paid; simpl. destruct (Qlt_bool _ t).
    - rewrite sumOf_app, sumOf_cons, sumOf_nil. simpl.
      rewrite roundNumber_fixed by done. lra.
    - lra. }
  unfold paid in *; simpl in Hpaid.
  split; simpl.
  - apply Forall_insert_entry; [done|]. simpl. by apply settledAmount_rest.
  - apply Forall_insert_entry; [done|]. simpl. by apply settledAmount_rest.
  - rewrite (sumOf_insert _ _ _ _ _ Hp). unfold paid. simpl. fold t. lra.
  - rewrite (sumOf_insert _ _ _ _ _ Hr). unfold paid. simpl. fold t. lra.
  - by apply small_advance.
  - by apply small_advance.
Qed.

Lemma entries_Permutation status memberCalculations :
  entries status memberCalculations ≡ₚ
  map (λ m, {| Entry.name := MemberCalculation.name m;
               Entry.amount := MemberCalculation.finalAmount m |})
      (withStatus status memberCalculations).
Proof. apply sort_Permutation. Qed.

Lemma entries_sum status memberCalculations :
  sumOf Entry.amount (entries status memberCalculations)
  == sumOf MemberCalculation.finalAmount (withStatus status memberCalculations).
Proof.
  rewrite (sumOf_Permutation _ _ _ (entries_Permutation _ _)).
  by rewrite sumOf_map.
Qed.

Lemma entries_settled status calculations :
  settled this calculations →
  Forall (λ e, settledAmount this (Entry.amount e))
         (entries status (Calculations.memberCalculations calculations)).
Proof.
  intros H. rewrite entries_Permutation.
  apply Forall_fmap, Forall_forall. intros m Hm. simpl.
  apply list_elem_of_filter in Hm as [_ Hm].
  by eapply Forall_forall in H.
Qed.

Lemma initial_invariant calculations :
  settled this calculations →
  invariant this
    (sumOf MemberCalculation.finalAmount
       (withStatus needs_to_pay (Calculations.memberCalculations calculations)))
    (sumOf MemberCalculation.finalAmount
       (withStatus gets_refund (Calculations.memberCalculations calculations)))
    (initialMatching calculations).
Proof.
  intros H. split; simpl.
  - by apply entries_settled.
  - by apply entries_settled.
  - unfold paid; simpl. rewrite sumOf_nil, entries_sum. lra.
  - unfold paid; simpl. rewrite sumOf_nil, entries_sum. lra.
  - constructor.
  - constructor.
Qed.

Lemma runMatching_returns calculations :
  ∃ iterations final,
    runMatching this calculations = Some (iterations, final)
    ∧ loopCondition final = false
    ∧ (loopCondition (initialMatching calculations) = false → iterations = O)
    ∧ (loopCondition (initialMatching calculations) = true →
       (S iterations ≤ remaining (initialMatching calculations))%nat).
Proof.
  apply whileLoop_terminates. unfold remaining, enoughFuel. lia.
Qed.


End MatchingFacts.

(** * The matching loop: what the suggestions settle *)

Lemma paidBy_snoc name suggestions s :
  paidBy name (suggestions ++ [s])
  == paidBy name suggestions
     + (if decide (Suggestion.from s = name) then Suggestion.amount s else 0).
Proof.
  unfold paidBy. rewrite filter_app, sumOf_app, filter_cons, filter_nil.
  destruct (decide (Suggestion.from s = name)).
  - rewrite sumOf_cons, sumOf_nil. lra.
  - rewrite sumOf_nil. lra.
Qed.

Lemma receivedBy_snoc name suggestions s :
  receivedBy name (suggestions ++ [s])
  == receivedBy name suggestions
     + (if decide (Suggestion.to s = name) then Suggestion.amount s else 0).
Proof.
  unfold receivedBy. rewrite filter_app, sumOf_app, filter_cons, filter_nil.
  destruct (decide (Suggestion.to s = name)).
  - rewrite sumOf_cons, sumOf_nil. lra.
  - rewrite sumOf_nil. lra.
Qed.

Lemma paidBy_nonneg name suggestions :
  Forall (λ s, 0 <= Suggestion.amount s) suggestions →
  0 <= paidBy name suggestions.
Proof.
  intros H. apply sumOf_nonneg. intros s [_ Hs]%list_elem_of_filter.
  by apply (proj1 (Forall_forall _ _) H).
Qed.

Lemma receivedBy_nonneg name suggestions :
  Forall (λ s, 0 <= Suggestion.amount s) suggestions →
  0 <= receivedBy name suggestions.
Proof.
  intros H. apply sumOf_nonneg. intros s [_ Hs]%list_elem_of_filter.
  by apply (proj1 (Forall_forall _ _) H).
Qed.

(** [sort] with the comparison [b.amount - a.amount] of
    [generatePaymentSuggestions]. *)
Lemma insertSorted_descending x l :
  descending l →
  descending (insertSorted (λ a b, Entry.amount b - Entry.amount a) x l).
Proof.
  unfold descending. induction l as [|y l IH]; intros Hl; cbn [insertSorted].
  - by repeat constructor.
  - apply StronglySorted_inv in Hl as [Hl Hy].
    destruct (Qlt_bool 0 (Entry.amount y - Entry.amount x)) eqn:E.
    + apply Qlt_bool_true in E. constructor; [by apply IH|].
      rewrite insertSorted_Permutation. constructor; [lra|done].
    + apply Qlt_bool_false in E. constructor; [by constructor|].
      constructor; [lra|].
      eapply Forall_impl; [exact Hy|]. cbn beta. intros z Hz. lra.
Qed.

Lemma sort_descending l :
  descending (sort (λ a b, Entry.amount b - Entry.amount a) l).
Proof.
  induction l as [|x l IH]; cbn [sort]; [constructor|].
  by apply insertSorted_descending.
Qed.

Lemma descending_lookup l i j a b :
  descending l → (i ≤ j)%nat → l !! i = Some a → l !! j = Some b →
  Entry.amount b <= Entry.amount a.
Proof.
  unfold descending. intros Hl. revert i j.
  induction Hl as [|x l Hl IH Hx]; intros i j Hij Hi Hj; [done|].
  destruct i as [|i], j as [|j]; simplify_eq/=; try lia.
  - lra.
  - apply (proj1 (Forall_forall _ _) Hx). by eapply list_elem_of_lookup_2.
  - apply (IH i j); [lia|done|done].
Qed.

Lemma tinyFrom_head initial index e0 :
  descending initial → initial !! index = Some e0 →
  Entry.amount e0 <= 1 # 100 → tinyFrom index initial.
Proof.
  intros Hd H0 Ht i e Hi He.
  pose proof (descending_lookup _ _ _ _ _ Hd Hi H0 He). lra.
Qed.

Lemma tinyFrom_mono index index' initial :
  (index ≤ index')%nat → tinyFrom index initial → tinyFrom index' initial.
Proof. intros Hle Ht i e Hi. apply Ht. lia. Qed.

Lemma tinyFrom_end index initial :
  (length initial ≤ index)%nat → tinyFrom index initial.
Proof.
  intros Hlen i e Hi He. apply lookup_lt_Some in He. lia.
Qed.

Lemma setAmount_names (l : list Entry.t) i e amount :
  l !! i = Some e →
  map Entry.name (<[i := setAmount e amount]> l) = map Entry.name l.
Proof.
  intros Hi. apply list_eq. intros j.
  rewrite !list_lookup_fmap.
  destruct (decide (i = j)) as [->|Hne].
  - rewrite list_lookup_insert_eq by (by eapply lookup_lt_Some). by rewrite Hi.
  - by rewrite list_lookup_insert_ne.
Qed.

Lemma untouched_step index initial current e amount :
  untouched index initial current → current !! index = Some e →
  untouched (if Qle_bool amount (1 # 100) then S index else index) initial
            (<[index := setAmount e amount]> current).
Proof.
  intros (Hnames & Hfresh & Hhead) He.
  assert (index < length current)%nat as Hlt by (by eapply lookup_lt_Some).
  split_and!.
  - by rewrite setAmount_names.
  - intros i x Hi. rewrite list_lookup_insert_ne.
    + apply Hfresh. destruct (Qle_bool _ _); lia.
    + destruct (Qle_bool _ _); lia.
  - intros x. destruct (Qle_bool amount (1 # 100)) eqn:E.
    + rewrite list_lookup_insert_ne by lia. intros Hx. right.
      apply Hfresh; [lia|done].
    + rewrite list_lookup_insert_eq by done. intros [= <-]. left.
      cbn [setAmount Entry.amount].
      apply Qnot_le_lt. intros Hle. apply Qle_bool_iff in Hle. congruence.
Qed.

Lemma untouched_initial (index : nat) (initial current : list Entry.t) e :
  untouched index initial current → current !! index = Some e →
  ∃ e0, initial !! index = Some e0 ∧ Entry.name e0 = Entry.name e
        ∧ (Entry.amount e <= 1 # 100 → e0 = e).
Proof.
  intros (Hnames & _ & Hhead) He.
  assert (map Entry.name initial !! index = Some (Entry.name e)) as Hn.
  { rewrite <- Hnames, list_lookup_fmap, He. done. }
  rewrite list_lookup_fmap in Hn.
  destruct (initial !! index) as [e0|] eqn:E0; [|done].
  injection Hn as Hn. exists e0. split_and!; [done|done|].
  intros Hsmall. destruct (Hhead e He) as [Hgt|Heq]; [lra|congruence].
Qed.

Lemma covered_step initial current (moved moved' : string → Q) k p t :
  covered initial current moved → current !! k = Some p →
  (∀ name, moved name <= moved' name) →
  (∀ e0, initial !! k = Some e0 →
     Entry.amount e0 <= 1 # 100
     ∨ Entry.amount e0 - moved' (Entry.name e0) <= Entry.amount p - t) →
  covered initial (<[k := setAmount p (Entry.amount p - t)]> current) moved'.
Proof.
  intros Hc Hp Hmore Hk i e0 e H0 He.
  destruct (decide (k = i)) as [->|Hne].
  - rewrite list_lookup_insert_eq in He by (by eapply lookup_lt_Some).
    injection He as <-. cbn [setAmount Entry.amount]. by apply Hk.
  - rewrite list_lookup_insert_ne in He by done.
    destruct (Hc i e0 e H0 He) as [Hs|Hs]; [by left|right].
    pose proof (Hmore (Entry.name e0)). lra.
Qed.

Lemma covered_served initial current (moved : string → Q) index :
  length current = length initial →
  (∀ name, 0 <= moved name) →
  small (take index current) →
  covered initial current moved → tinyFrom index initial →
  Forall (λ e0, Entry.amount e0 - moved (Entry.name e0) <= 1 # 100) initial.
Proof.
  intros Hlen Hpos Hsmall Hc Ht. apply Forall_lookup. intros i e0 H0.
  pose proof (Hpos (Entry.name e0)) as Hm.
  destruct (decide (i < index)%nat) as [Hlt|Hge].
  - assert (i < length current)%nat as Hi
      by (rewrite Hlen; by eapply lookup_lt_Some).
    apply lookup_lt_is_Some_2 in Hi as [e He].
    assert (Entry.amount e <= 1 # 100) as Hs.
    { apply (Forall_lookup_1 _ _ i e Hsmall). by rewrite lookup_take_lt. }
    destruct (Hc i e0 e H0 He); lra.
  - assert (Entry.amount e0 <= 1 # 100) by (apply (Ht i); [lia|done]). lra.
Qed.

Section SettleFacts.
Variable this : CalculationEngine.

Lemma initial_served calculations : served calculations (initialMatching calculations).
Proof.
  assert (∀ index (l : list Entry.t), untouched index l l) as Hu.
  { intros index l. split_and!; [done|by intros|by right]. }
  assert (∀ (l : list Entry.t) (moved : string → Q),
            (∀ name, moved name == 0) → covered l l moved) as Hc.
  { intros l moved Hz i e0 e H0 He. right. simplify_eq.
    rewrite Hz. lra. }
  split; cbn [initialMatching Matching.needToPay Matching.getRefund
              Matching.suggestions Matching.payIndex Matching.refundIndex].
  - apply Hu.
  - apply Hu.
  - constructor.
  - left. by apply Hc.
  - left. by apply Hc.
  - left. by apply Hc.
Qed.

Lemma loopBody_served owed due calculations st :
  loopCondition st = true →
  invariant this owed due st → served calculations st →
  served calculations (loopBody this st).
Proof.
  intros (payer & receiver & Lp & Lr)%loopCondition_lookup
    [I1 I2 _ _ _ _] [Up Ur Hpos Hone Hother Heither].
  pose proof (sort_descending
                (map (λ m, {| Entry.name := MemberCalculation.name m;
                              Entry.amount := MemberCalculation.finalAmount m |})
                     (withStatus needs_to_pay
                        (Calculations.memberCalculations calculations)))) as Dp.
  pose proof (sort_descending
                (map (λ m, {| Entry.name := MemberCalculation.name m;
                              Entry.amount := MemberCalculation.finalAmount m |})
                     (withStatus gets_refund
                        (Calculations.memberCalculations calculations)))) as Dr.
  change (sort _ _) with (Matching.needToPay (initialMatching calculations)) in Dp.
  change (sort _ _) with (Matching.getRefund (initialMatching calculations)) in Dr.
  set (P0 := Matching.needToPay (initialMatching calculations)) in *.
  set (R0 := Matching.getRefund (initialMatching calculations)) in *.
  destruct (untouched_initial _ _ _ _ Up Lp) as (p0 & Lp0 & Np & Fp).
  destruct (untouched_initial _ _ _ _ Ur Lr) as (r0 & Lr0 & Nr & Fr).
  pose proof (Forall_lookup_1 _ _ _ _ I1 Lp) as [Hp0 Rp].
  pose proof (Forall_lookup_1 _ _ _ _ I2 Lr) as [Hr0 Rr].
  cbn beta in Hp0, Rp, Hr0, Rr.
  unfold loopBody. rewrite Lp, Lr.
  set (t := Math_min (Entry.amount payer) (Entry.amount receiver)).
  assert (0 <= t) as Ht by (unfold t, Math_min; by apply Q.min_glb).
  assert (t <= Entry.amount payer ∧ t <= Entry.amount receiver) as [Htp Htr].
  { unfold t, Math_min. split; [apply Q.le_min_l|apply Q.le_min_r]. }
  assert (rounded this t) as Rt by (by apply rounded_min).
  set (suggestion := {| Suggestion.from := Entry.name payer;
                        Suggestion.to := Entry.name receiver;
                        Suggestion.amount := roundNumber this t |}).
  set (suggestions := if Qlt_bool (1 # 100) t
                      then Matching.suggestions st ++ [suggestion]
                      else Matching.suggestions st).
  set (payIndex := if Qle_bool (Entry.amount (setAmount payer (Entry.amount payer - t)))
                                (1 # 100)
                   then S (Matching.payIndex st) else Matching.payIndex st).
  set (refundIndex :=
         if Qle_bool (Entry.amount (setAmount receiver (Entry.amount receiver - t)))
                     (1 # 100)
         then S (Matching.refundIndex st) else Matching.refundIndex st).
  assert (Matching.payIndex st ≤ payIndex)%nat as Hpi
    by (unfold payIndex;
        destruct (Qle_bool (Entry.amount (setAmount payer _)) _); lia).
  assert (Matching.refundIndex st ≤ refundIndex)%nat as Hri
    by (unfold refundIndex;
        destruct (Qle_bool (Entry.amount (setAmount receiver _)) _); lia).
  (* what the suggestions move, before and after *)
  assert (∀ name, paidBy name (Matching.suggestions st) <= paidBy name suggestions)
    as Mp.
  { intros name. unfold suggestions. destruct (Qlt_bool _ t); [|lra].
    rewrite paidBy_snoc. unfold suggestion; cbn [Suggestion.from Suggestion.amount].
    destruct (decide _); [rewrite roundNumber_fixed by done|]; lra. }
  assert (∀ name, receivedBy name (Matching.suggestions st)
                  <= receivedBy name suggestions) as Mr.
  { intros name. unfold suggestions. destruct (Qlt_bool _ t); [|lra].
    rewrite receivedBy_snoc. unfold suggestion; cbn [Suggestion.to Suggestion.amount].
    destruct (decide _); [rewrite roundNumber_fixed by done|]; lra. }
  (* the payers stay covered when the transfer is suggested or the payer was
     at most 0.01 at first, and so the receivers *)
  assert (1 # 100 < t ∨ Entry.amount p0 <= 1 # 100 →
          covered P0 (Matching.needToPay st)
                  (λ name, paidBy name (Matching.suggestions st)) →
          covered P0 (<[Matching.payIndex st
                        := setAmount payer (Entry.amount payer - t)]>
                        (Matching.needToPay st))
                  (λ name, paidBy name suggestions)) as Cp.
  { intros Hcase Hc. apply (covered_step _ _ _ _ _ _ _ Hc Lp Mp).
    intros e0 He0. assert (e0 = p0) as -> by congruence.
    destruct Hcase as [Hgt|Hsmall]; [|by left].
    destruct (Hc _ _ _ Lp0 Lp) as [Hs|Hs]; [by left|right].
    unfold suggestions. apply Qlt_bool_true in Hgt. rewrite Hgt.
    rewrite paidBy_snoc. unfold suggestion; cbn [Suggestion.from Suggestion.amount].
    rewrite decide_True by done. rewrite roundNumber_fixed by done. lra. }
  assert (1 # 100 < t ∨ Entry.amount r0 <= 1 # 100 →
          covered R0 (Matching.getRefund st)
                  (λ name, receivedBy name (Matching.suggestions st)) →
          covered R0 (<[Matching.refundIndex st
                        := setAmount receiver (Entry.amount receiver - t)]>
                        (Matching.getRefund st))
                  (λ name, receivedBy name suggestions)) as Cr.
  { intros Hcase Hc. apply (covered_step _ _ _ _ _ _ _ Hc Lr Mr).
    intros e0 He0. assert (e0 = r0) as -> by congruence.
    destruct Hcase as [Hgt|Hsmall]; [|by left].
    destruct (Hc _ _ _ Lr0 Lr) as [Hs|Hs]; [by left|right].
    unfold suggestions. apply Qlt_bool_true in Hgt. rewrite Hgt.
    rewrite receivedBy_snoc. unfold suggestion; cbn [Suggestion.to Suggestion.amount].
    rewrite decide_True by done. rewrite roundNumber_fixed by done. lra. }
  assert (Entry.amount p0 <= 1 # 100 → tinyFrom payIndex P0) as Tp.
  { intros Hs. eapply tinyFrom_mono; [exact Hpi|].
    by eapply tinyFrom_head. }
  assert (Entry.amount r0 <= 1 # 100 → tinyFrom refundIndex R0) as Tr.
  { intros Hs. eapply tinyFrom_mono; [exact Hri|].
    by eapply tinyFrom_head. }
  assert (tinyFrom (Matching.payIndex st) P0 → Entry.amount p0 <= 1 # 100) as Np0
    by (intros Hty; by apply (Hty _ _ (Nat.le_refl _) Lp0)).
  assert (tinyFrom (Matching.refundIndex st) R0 → Entry.amount r0 <= 1 # 100)
    as Nr0 by (intros Hty; by apply (Hty _ _ (Nat.le_refl _) Lr0)).
  (* a transfer that is not suggested comes from an entry that was at most
     0.01 at first *)
  assert (t <= 1 # 100 →
          Entry.amount p0 <= 1 # 100 ∨ Entry.amount r0 <= 1 # 100) as Hskip.
  { intros Hle. unfold t, Math_min in Hle.
    destruct (Q.min_spec (Entry.amount payer) (Entry.amount receiver))
      as [[_ E]|[_ E]]; rewrite E in Hle.
    - left. by rewrite (Fp Hle).
    - right. by rewrite (Fr Hle). }
  split; cbn [Matching.needToPay Matching.getRefund Matching.suggestions
              Matching.payIndex Matching.refundIndex];
    fold t; fold suggestion; fold suggestions; fold payIndex; fold refundIndex.
  - by apply untouched_step.
  - by apply untouched_step.
  - unfold suggestions. destruct (Qlt_bool _ t); [|done].
    apply Forall_app. split; [done|]. constructor; [|constructor].
    unfold suggestion; cbn [Suggestion.amount]. by rewrite roundNumber_fixed.
  - destruct (Qlt_le_dec (1 # 100) t) as [Hgt|Hle].
    + destruct Hone as [Hc|Hty]; [left; apply Cp; [by left|done]|right].
      by eapply tinyFrom_mono.
    + destruct (Qlt_le_dec (1 # 100) (Entry.amount r0)) as [Hr|Hr];
        [|right; by apply Tr].
      destruct Hone as [Hc|Hty]; [|specialize (Nr0 Hty); lra].
      left. apply Cp; [|done]. right. destruct (Hskip Hle); [done|lra].
  - destruct (Qlt_le_dec (1 # 100) t) as [Hgt|Hle].
    + destruct Hother as [Hc|Hty]; [left; apply Cr; [by left|done]|right].
      by eapply tinyFrom_mono.
    + destruct (Qlt_le_dec (1 # 100) (Entry.amount p0)) as [Hp|Hp];
        [|right; by apply Tp].
      destruct Hother as [Hc|Hty]; [|specialize (Np0 Hty); lra].
      left. apply Cr; [|done]. right. destruct (Hskip Hle); [lra|done].
  - destruct (Qlt_le_dec (1 # 100) t) as [Hgt|Hle].
    + destruct Heither as [Hc|Hc];
        [left; apply Cp|right; apply Cr]; [by left|done|by left|done].
    + destruct (Qlt_le_dec (1 # 100) (Entry.amount p0)) as [Hp|Hp].
      * (* the receiver was at most 0.01 at first *)
        right. apply Cr; [right; destruct (Hskip Hle); [lra|done]|].
        destruct Hother as [Hc|Hty]; [done|specialize (Np0 Hty); lra].
      * destruct (Qlt_le_dec (1 # 100) (Entry.amount r0)) as [Hr|Hr].
        -- left. apply Cp; [by right|].
           destruct Hone as [Hc|Hty]; [done|specialize (Nr0 Hty); lra].
        -- destruct Heither as [Hc|Hc];
             [left; apply Cp|right; apply Cr]; [by right|done|by right|done].
Qed.

End SettleFacts.

(** * The store: what [calculateWithTip] may change *)

Section Frame.
Variable h0 : store.

Abbreviation new := (λ l : loc, l ∉ dom h0).

Lemma isolated_refl : isolated h0 h0.
Proof.
  split; [done|]. intros l o Hl Hnew. destruct Hnew. apply elem_of_dom. eauto.
Qed.

Lemma keeps_ret {A} (a : A) (post : A → Prop) : post a → keeps h0 (retHeap a) post.
Proof. intros Hp h Hh. split; [done|]. by intros ? [= <-]. Qed.

Lemma keeps_throw {A} message (post : A → Prop) : keeps h0 (throwHeap message) post.
Proof. intros h Hh. split; [done|]. by intros ? [=]. Qed.

Lemma keeps_lift {A} (c : completion A) (post : A → Prop) :
  (∀ a, c = Normal a → post a) → keeps h0 (lift c) post.
Proof. intros Hp h Hh. split; [done|]. apply Hp. Qed.

Lemma keeps_bind {A B} (m : Heap A) (k : A → Heap B) P Q :
  keeps h0 m P → (∀ a, P a → keeps h0 (k a) Q) → keeps h0 (bindHeap m k) Q.
Proof.
  intros Hm Hk h Hh. unfold bindHeap.
  destruct (Hm h Hh) as [H1 H2]. destruct (m h) as [h' [a|e]]; simpl in *.
  - by apply Hk; [apply H2|].
  - split; [done|]. by intros ? [=].
Qed.

Lemma keeps_weaken {A} (m : Heap A) (P Q : A → Prop) :
  keeps h0 m P → (∀ a, P a → Q a) → keeps h0 m Q.
Proof.
  intros Hm HPQ h Hh. destruct (Hm h Hh) as [H1 H2]. split; [done|].
  intros a Ha. by apply HPQ, H2.
Qed.

Lemma isolated_insert h l o :
  isolated h0 h → new l → Forall new (refs o) → isolated h0 (<[l := o]> h).
Proof.
  intros [Hsub Hrefs] Hl Ho. split.
  - apply insert_subseteq_r; [|done]. by apply not_elem_of_dom.
  - intros l' o' Hl' Hnew. destruct (decide (l = l')) as [->|Hne].
    + rewrite lookup_insert_eq in Hl'. by simplify_eq.
    + rewrite lookup_insert_ne in Hl' by done. eauto.
Qed.

Lemma fresh_new h : isolated h0 h → new (fresh (dom h)).
Proof.
  intros [Hsub _] Hin. apply (is_fresh (dom h)).
  by apply (subseteq_dom _ _ Hsub).
Qed.

Lemma keeps_allocate o : Forall new (refs o) → keeps h0 (allocate o) new.
Proof.
  intros Ho h Hh. unfold allocate; simpl. split.
  - apply isolated_insert; [done|by apply fresh_new|done].
  - intros ? [= <-]. by apply fresh_new.
Qed.

Lemma keeps_assign l o :
  new l → Forall new (refs o) → keeps h0 (assign l o) (λ _, True).
Proof.
  intros Hl Ho h Hh. unfold assign; simpl. split; [|done].
  by apply isolated_insert.
Qed.

Lemma keeps_getObject l :
  new l → keeps h0 (getObject l) (λ o, Forall new (refs o)).
Proof.
  intros Hl h Hh. unfold getObject.
  destruct (h !! l) as [o|] eqn:E; simpl; (split; [done|]); [|by intros ? [=]].
  intros ? [= <-]. destruct Hh as [_ Hrefs]. eauto.
Qed.

Lemma keeps_getSession session : keeps h0 (getSession session) (λ _, True).
Proof.
  intros h Hh. unfold getSession.
  destruct session as [l|]; [|done]. by destruct (readSession h l).
Qed.

Lemma keeps_mapHeap {A B} (f : A → Heap B) (P : B → Prop) l :
  (∀ x, keeps h0 (f x) P) → keeps h0 (mapHeap f l) (Forall P).
Proof.
  intros Hf. induction l as [|x l IH]; simpl.
  - by apply keeps_ret.
  - eapply keeps_bind; [apply Hf|]. intros y Hy.
    eapply keeps_bind; [apply IH|]. intros ys Hys.
    apply keeps_ret. by constructor.
Qed.

Lemma keeps_forEach {A} (f : A → Heap unit) l :
  Forall (λ x, keeps h0 (f x) (λ _, True)) l →
  keeps h0 (forEach f l) (λ _, True).
Proof.
  induction 1 as [|x l Hx _ IH]; simpl.
  - by apply keeps_ret.
  - eapply keeps_bind; [apply Hx|]. intros _ _. apply IH.
Qed.

Lemma keeps_parseOptional {A} (parse : A → Heap loc) x :
  (∀ a, keeps h0 (parse a) new) →
  keeps h0 (parseOptional parse x) (λ l, Forall new (option_list l)).
Proof.
  intros Hp. destruct x as [a|]; simpl.
  - eapply keeps_bind; [apply Hp|]. intros l Hl.
    apply keeps_ret. by repeat constructor.
  - apply keeps_ret. constructor.
Qed.

Lemma keeps_parseArray {A} (parseElement : A → Heap loc) l :
  (∀ a, keeps h0 (parseElement a) new) →
  keeps h0 (parseArray parseElement l) new.
Proof.
  intros Hp. unfold parseArray.
  eapply keeps_bind; [by apply keeps_mapHeap|].
  intros ls Hls. by apply keeps_allocate.
Qed.

Lemma keeps_parseItem item : keeps h0 (parseItem item) new.
Proof. apply keeps_allocate. constructor. Qed.

Lemma keeps_parseMember member : keeps h0 (parseMember member) new.
Proof.
  unfold parseMember.
  eapply keeps_bind.
  - apply keeps_parseOptional. intros items.
    apply keeps_parseArray, keeps_parseItem.
  - intros items Hitems. by apply keeps_allocate.
Qed.

Lemma keeps_parseSession session : keeps h0 (parseSession session) new.
Proof.
  unfold parseSession.
  eapply keeps_bind.
  - apply keeps_parseOptional. intros members.
    apply keeps_parseArray, keeps_parseMember.
  - intros members Hmembers. by apply keeps_allocate.
Qed.

Lemma keeps_JSON_clone session :
  keeps h0 (JSON_clone session) (λ l, Forall new (option_list l)).
Proof.
  unfold JSON_clone.
  eapply keeps_bind; [apply keeps_getSession|]. intros value _.
  apply keeps_parseOptional, keeps_parseSession.
Qed.

Lemma keeps_pushItem member name price :
  new member → keeps h0 (pushItem member name price) (λ _, True).
Proof.
  intros Hm. unfold pushItem.
  eapply keeps_bind; [by apply keeps_getObject|].
  intros [| |id memberName items advance bankInfo|] Ho;
    try apply keeps_throw.
  eapply (keeps_bind _ _ new).
  - destruct items as [array|].
    + apply keeps_ret. simpl in Ho. by inversion Ho.
    + eapply keeps_bind; [apply keeps_allocate; constructor|].
      intros array Harray.
      eapply keeps_bind; [apply keeps_assign; [done|by repeat constructor]|].
      intros _ _. by apply keeps_ret.
  - intros array Harray.
    eapply keeps_bind; [by apply keeps_getObject|].
    intros [|elements| |] Ha; try apply keeps_throw.
    eapply keeps_bind; [apply keeps_allocate; constructor|].
    intros item Hitem. apply keeps_assign; [done|].
    simpl in *. apply Forall_app. by repeat constructor.
Qed.

Lemma keeps_membersOf session :
  Forall new (option_list session) →
  keeps h0 (membersOf session) (Forall new).
Proof.
  intros Hs. destruct session as [l|]; simpl; [|apply keeps_throw].
  inversion Hs; subst.
  eapply keeps_bind; [by apply keeps_getObject|].
  intros [[array|]| | |] Ho; try apply keeps_throw.
  simpl in Ho. inversion Ho; subst.
  eapply keeps_bind; [by apply keeps_getObject|].
  intros [|elements| |] Ha; try apply keeps_throw.
  by apply keeps_ret.
Qed.

Lemma keeps_calculateSessionAt hostFunction this session :
  keeps h0 (calculateSessionAt hostFunction this session) (λ _, True).
Proof.
  unfold calculateSessionAt.
  eapply keeps_bind; [apply keeps_getSession|]. intros value _.
  by apply keeps_lift.
Qed.

Lemma keeps_calculateWithTip hostFunction this session tipAmount tipDistribution :
  keeps h0 (calculateWithTip hostFunction this session tipAmount tipDistribution)
        (λ _, True).
Proof.
  unfold calculateWithTip.
  eapply (keeps_bind _ _ (λ _, True)); [by apply keeps_lift|]. intros parsed _.
  destruct (Qle_bool _ 0); [apply keeps_calculateSessionAt|].
  eapply keeps_bind; [apply keeps_JSON_clone|]. intros sessionWithTip Hcopy.
  eapply (keeps_bind _ _ (λ _, True)); [|intros; apply keeps_calculateSessionAt].
  destruct (String.eqb tipDistribution "equal").
  { eapply keeps_bind; [by apply keeps_membersOf|]. intros members Hmembers.
    apply keeps_forEach. eapply Forall_impl; [exact Hmembers|].
    intros member Hmember. by apply keeps_pushItem. }
  destruct (String.eqb tipDistribution "proportional"); [|by apply keeps_ret].
  eapply (keeps_bind _ _ (λ _, True)).
  { unfold originalMembers.
    eapply keeps_bind; [apply keeps_getSession|]. intros [s|] _;
      [|apply keeps_throw].
    destruct (Session.members s); [by apply keeps_ret|apply keeps_throw]. }
  intros original _.
  eapply (keeps_bind _ _ (λ _, True)); [by apply keeps_lift|].
  intros memberCalculations _.
  destruct (Qlt_bool 0 _); [|by apply keeps_ret].
  eapply keeps_bind; [by apply keeps_membersOf|]. intros members Hmembers.
  apply keeps_forEach. apply Forall_forall.
  intros [member index] Hin.
  apply elem_of_zip_l in Hin.
  destruct (memberCalculations !! index); [|apply keeps_throw].
  apply keeps_pushItem. by eapply Forall_forall in Hmembers.
Qed.

End Frame.

(** Reading a session only depends on the objects it reaches. *)
Lemma mapM_weaken {A} (f g : loc → option A) (ls : list loc) (xs : list A) :
  (∀ l x, f l = Some x → g l = Some x) →
  mapM f ls = Some xs → mapM g ls = Some xs.
Proof.
  intros Hfg. rewrite !mapM_Some. intros H.
  eapply Forall2_impl; [exact H|]. apply Hfg.
Qed.

Lemma readItem_weaken (h h' : store) l item :
  h ⊆ h' → readItem h l = Some item → readItem h' l = Some item.
Proof.
  intros Hsub. unfold readItem.
  destruct (h !! l) as [o|] eqn:E; [|done].
  by rewrite (lookup_weaken _ _ _ _ E Hsub).
Qed.

Lemma readArray_weaken {A} (read : store → loc → option A) (h h' : store) l xs :
  h ⊆ h' →
  (∀ l x, read h l = Some x → read h' l = Some x) →
  readArray read h l = Some xs → readArray read h' l = Some xs.
Proof.
  intros Hsub Hread. unfold readArray.
  destruct (h !! l) as [o|] eqn:E; [|done].
  rewrite (lookup_weaken _ _ _ _ E Hsub).
  destruct o; try done. by apply mapM_weaken.
Qed.

Lemma readOptional_weaken {A} (read : store → loc → option A) (h h' : store) l x :
  (∀ l x, read h l = Some x → read h' l = Some x) →
  readOptional read h l = Some x → readOptional read h' l = Some x.
Proof.
  intros Hread. destruct l as [l|]; simpl; [|done].
  destruct (read h l) as [y|] eqn:E; [|done].
  by rewrite (Hread _ _ E).
Qed.

Lemma readMember_weaken (h h' : store) l member :
  h ⊆ h' → readMember h l = Some member → readMember h' l = Some member.
Proof.
  intros Hsub. unfold readMember.
  destruct (h !! l) as [o|] eqn:E; [|done].
  rewrite (lookup_weaken _ _ _ _ E Hsub).
  destruct o as [| |id name items advance bankInfo|]; try done.
  destruct (readOptional (readArray readItem) h items) as [its|] eqn:Ei; [|done].
  erewrite readOptional_weaken; [done| |exact Ei].
  intros l' x. apply readArray_weaken; [done|].
  intros l'' y. by apply readItem_weaken.
Qed.

Lemma readSession_weaken (h h' : store) l session :
  h ⊆ h' → readSession h l = Some session → readSession h' l = Some session.
Proof.
  intros Hsub. unfold readSession.
  destruct (h !! l) as [o|] eqn:E; [|done].
  rewrite (lookup_weaken _ _ _ _ E Hsub).
  destruct o as [members| | |]; try done.
  destruct (readOptional (readArray readMember) h members) as [ms|] eqn:Em; [|done].
  erewrite readOptional_weaken; [done| |exact Em].
  intros l' x. apply readArray_weaken; [done|].
  intros l'' y. by apply readMember_weaken.
Qed.


(** * Cost distribution *)

Lemma fold_min_le (l : list Q) a : fold_left Qmin l a <= a.
Proof.
  revert a. induction l as [|x l IH]; intros a; simpl; [lra|].
  eapply Qle_trans; [apply IH|]. apply Q.le_min_l.
Qed.

Lemma fold_min_elem (l : list Q) a x : x ∈ l → fold_left Qmin l a <= x.
Proof.
  revert a. induction l as [|y l IH]; intros a Hx; [by apply elem_of_nil in Hx|].
  apply elem_of_cons in Hx as [->|Hx]; simpl.
  - eapply Qle_trans; [apply fold_min_le|]. apply Q.le_min_r.
  - by apply IH.
Qed.

Lemma fold_max_ge (l : list Q) a : a <= fold_left Qmax l a.
Proof.
  revert a. induction l as [|x l IH]; intros a; simpl; [lra|].
  eapply Qle_trans; [|apply IH]. apply Q.le_max_l.
Qed.

Lemma fold_max_elem (l : list Q) a x : x ∈ l → x <= fold_left Qmax l a.
Proof.
  revert a. induction l as [|y l IH]; intros a Hx; [by apply elem_of_nil in Hx|].
  apply elem_of_cons in Hx as [->|Hx]; simpl.
  - eapply Qle_trans; [|apply fold_max_ge]. apply Q.le_max_r.
  - by apply IH.
Qed.

Lemma spread_bounds costs x :
  x ∈ costs → spreadMin costs <= x ∧ x <= spreadMax costs.
Proof.
  destruct costs as [|y l]; [by intros ?%elem_of_nil|].
  intros [->|Hx]%elem_of_cons; simpl.
  - split; [apply fold_min_le | apply fold_max_ge].
  - split; [by apply fold_min_elem | by apply fold_max_elem].
Qed.



Lemma inBucket_spec lo hi c : inBucket lo hi c = true ↔ lo <= c ∧ c < hi.
Proof.
  unfold inBucket. by rewrite andb_true_iff, Qle_bool_iff, Qlt_bool_true.
Qed.




Lemma bucket_contains costs i c :
  inBucket (Bucket.bucketMin (bucketOf costs i))
           (Bucket.bucketMax (bucketOf costs i)) c = true
  ↔ spreadMin costs + count i * bucketWidth costs <= c
    ∧ c < spreadMin costs + (count i + 1) * bucketWidth costs.
Proof. apply inBucket_spec. Qed.


Lemma bucket_exists costs c :
  c ∈ costs → c < spreadMax costs →
  ∃ j, (j < Nat.min 10 (length costs))%nat
       ∧ inBucket (Bucket.bucketMin (bucketOf costs j))
                  (Bucket.bucketMax (bucketOf costs j)) c = true.
Proof.
  intros Hc Hmax.
  destruct (spread_bounds costs c Hc) as [Hlo _].
  set (k := Nat.min 10 (length costs)).
  assert (0 < count k) as Hk.
  { apply count_pos. unfold k. destruct costs; [by apply elem_of_nil in Hc|].
    simpl. lia. }
  assert (0 < bucketWidth costs) as Hw.
  { unfold bucketWidth. fold k. apply Qlt_shift_div_l; lra. }
  assert (bucketWidth costs * count k == spreadMax costs - spreadMin costs) as Hrange.
  { unfold bucketWidth. fold k. field. lra. }
  set (m := spreadMin costs) in *. set (M := spreadMax costs) in *.
  set (w := bucketWidth costs) in *.
  set (q := (c - m) / w).
  assert (q * w == c - m) as Hq by (unfold q; field; lra).
  pose proof (Qfloor_le q) as Hf1. pose proof (Qlt_floor q) as Hf2.
  rewrite inject_Z_plus in Hf2. change (inject_Z 1) with 1 in Hf2.
  assert (0 <= q) as Hq0.
  { unfold q. apply Qle_shift_div_l; lra. }
  assert (0 <= Qfloor q)%Z as Hz.
  { apply (Qfloor_resp_le 0). lra. }
  assert (q < count k) as Hqk.
  { unfold q. apply Qlt_shift_div_r; [done|]. lra. }
  exists (Z.to_nat (Qfloor q)).
  assert (count (Z.to_nat (Qfloor q)) = inject_Z (Qfloor q)) as Hcount.
  { unfold count. by rewrite Z2Nat.id. }
  split.
  - assert (inject_Z (Qfloor q) < count k) as Hlt by lra.
    unfold count in Hlt. rewrite <- Zlt_Qlt in Hlt. lia.
  - apply bucket_contains. fold m w. rewrite Hcount.
    assert (inject_Z (Qfloor q) * w <= q * w) by (apply Qmult_le_compat_r; lra).
    assert (q * w < (inject_Z (Qfloor q) + 1) * w) by (apply Qmult_lt_compat_r; lra).
    lra.
Qed.




(** The list [generateCostAnalytics] hands to [generateCostDistribution]. *)
Lemma generateCostAnalytics_sorted sessions :
  let costs := sort (λ a b, a - b) (positiveCosts sessions) in
  CostAnalytics.distribution (generateCostAnalytics sessions)
    = generateCostDistribution costs
  ∧ Sorted Qle costs
  ∧ costs ≡ₚ positiveCosts sessions
  ∧ Forall (λ cost, 0 < cost) costs.
Proof.
  intros costs. split_and!.
  - unfold generateCostAnalytics, costs.
    by destruct (positiveCosts sessions).
  - apply sort_ascending.
  - apply sort_Permutation.
  - unfold costs. rewrite sort_Permutation. unfold positiveCosts.
    apply Forall_forall. intros c [Hc _]%list_elem_of_filter.
    by apply Qlt_bool_true.
Qed.

(** * The custom split with NaN *)

Lemma percentageOf_own percentages id :
  (id ∈ Object_prototype → is_Some (percentages !! id)) →
  WithNaN.percentageOf percentages id = Percent (percentageOf percentages id).
Proof.
  intros Hown. unfold WithNaN.percentageOf, percentageOf.
  destruct (percentages !! id) as [p|] eqn:E; [done|].
  case_bool_decide as Hin; [|done].
  by destruct (Hown Hin).
Qed.

Lemma finalize_of this member q :
  WithNaN.finalize this member (Num q)
  = ofMemberCalculation (finalize this member q).
Proof.
  unfold WithNaN.finalize, finalize, ofMemberCalculation.
  cbn [WithNaN.minus WithNaN.Math_abs WithNaN.lessThan
       MemberCalculation.id MemberCalculation.name MemberCalculation.items
       MemberCalculation.advance MemberCalculation.bankInfo
       MemberCalculation.totalSpent MemberCalculation.itemCount
       MemberCalculation.amountPerPerson MemberCalculation.finalAmount
       MemberCalculation.status].
  unfold Math_abs.
  destruct (Qlt_bool (Qabs _) _); [reflexivity|].
  destruct (Qlt_bool 0 _); reflexivity.
Qed.

Lemma summarize_of summary member :
  WithNaN.summarize (ofSummary summary) (ofMemberCalculation member)
  = ofSummary (summarize summary member).
Proof.
  unfold WithNaN.summarize, summarize, ofSummary.
  cbn [ofMemberCalculation WithNaN.MemberCalculation.status
       WithNaN.MemberCalculation.name WithNaN.MemberCalculation.finalAmount
       WithNaN.Summary.needToPay WithNaN.Summary.getRefund WithNaN.Summary.even
       WithNaN.Summary.totalNeedToPay WithNaN.Summary.totalRefund
       WithNaN.Summary.balanceCheck].
  destruct (MemberCalculation.status member);
    cbn [Summary.needToPay Summary.getRefund Summary.even
         Summary.totalNeedToPay Summary.totalRefund Summary.balanceCheck
         WithNaN.plus];
    by rewrite ?map_app.
Qed.

Lemma generateSummary_of this members totals :
  WithNaN.generateSummary this (map ofMemberCalculation members) totals
  = ofSummary (generateSummary this members totals).
Proof.
  unfold WithNaN.generateSummary, generateSummary.
  set (empty := {| Summary.needToPay := []; Summary.getRefund := [];
                   Summary.even := []; Summary.totalNeedToPay := 0;
                   Summary.totalRefund := 0; Summary.balanceCheck := 0 |}).
  change (WithNaN.Summary.mk [] [] [] (Num 0) (Num 0) (Num 0))
    with (ofSummary empty).
  assert (∀ l s, fold_left WithNaN.summarize (map ofMemberCalculation l)
                   (ofSummary s)
                 = ofSummary (fold_left summarize l s)) as ->.
  { induction l as [|m l IH]; intros s; [done|].
    cbn [map fold_left]. by rewrite summarize_of, IH. }
  reflexivity.
Qed.

(** On percentages that yield no inherited value the custom split with NaN
    is the custom split of [calculateCustomSplit] above. *)
Lemma calculateCustomSplit_of hostFunction this s members percentages :
  Session.members s = Some members →
  ownPercentages percentages members →
  Qabs (totalPercentage percentages - 100) <= 1 # 100 →
  WithNaN.calculateCustomSplit hostFunction this (Some s) (Some percentages)
  = Normal (ofCalculations (splitBy hostFunction this members percentages)).
Proof.
  intros Hm Hown Hp. unfold WithNaN.calculateCustomSplit. rewrite Hm.
  apply Qlt_bool_false in Hp. rewrite Hp.
  rewrite calculateMemberCosts_normal.
  cbn [mbind completion_bind try_catch].
  unfold splitBy, ofCalculations.
  cbn [Calculations.memberCalculations Calculations.totals Calculations.summary].
  set (T := Totals.totalCost _).
  assert (map (λ member,
                 WithNaN.finalize this member
                   (WithNaN.shareOf T
                      (WithNaN.percentageOf percentages (MemberCost.id member))))
              (map (costOf hostFunction this) members)
          = map ofMemberCalculation
              (map (λ member,
                      finalize this member
                        (T * percentageOf percentages (MemberCost.id member) / 100))
                   (map (costOf hostFunction this) members))) as ->.
  { rewrite <- !list_fmap_compose. apply list_fmap_ext.
    intros i member Hi. unfold compose. cbn [costOf MemberCost.id].
    rewrite percentageOf_own.
    - cbn [WithNaN.shareOf]. apply finalize_of.
    - apply (Forall_lookup_1 _ _ _ _ Hown Hi). }
  by rewrite generateSummary_of.
Qed.

(** A member whose id finds an inherited value gets NaN as share and as
    final amount, and the status [gets_refund]. *)
Lemma finalize_inherited this member percentages totalCost :
  percentages !! MemberCost.id member = None →
  MemberCost.id member ∈ Object_prototype →
  let c := WithNaN.finalize this member
             (WithNaN.shareOf totalCost
                (WithNaN.percentageOf percentages (MemberCost.id member))) in
  WithNaN.MemberCalculation.amountPerPerson c = NaN
  ∧ WithNaN.MemberCalculation.finalAmount c = NaN
  ∧ WithNaN.MemberCalculation.status c = gets_refund.
Proof.
  intros Hnone Hin. unfold WithNaN.percentageOf. rewrite Hnone.
  by rewrite bool_decide_eq_true_2.
Qed.

Lemma stuck_loopCondition st : stuck st → WithNaN.loopCondition st = true.
Proof.
  intros (payer & receiver & Lp & Lr & _). unfold WithNaN.loopCondition.
  apply lookup_lt_Some in Lp, Lr.
  apply andb_true_iff. split; apply Nat.ltb_lt; lia.
Qed.

(** With NaN as one of the two amounts the transfer is NaN, both amounts
    become NaN and no index moves. *)
Lemma loopBody_stuck this st : stuck st → stuck (WithNaN.loopBody this st).
Proof.
  intros (payer & receiver & Lp & Lr & Hnan).
  unfold WithNaN.loopBody. rewrite Lp, Lr.
  assert (WithNaN.Math_min (WithNaN.Entry.amount payer)
                           (WithNaN.Entry.amount receiver) = NaN) as ->.
  { destruct Hnan as [-> | ->]; [done|].
    by destruct (WithNaN.Entry.amount payer). }
  assert (∀ x, WithNaN.minus x NaN = NaN) as Hminus by (by intros []).
  cbn [WithNaN.lessThan WithNaN.setAmount WithNaN.Entry.amount].
  rewrite !Hminus. cbn [WithNaN.atMost].
  exists (WithNaN.Entry.mk (WithNaN.Entry.name payer) NaN),
         (WithNaN.Entry.mk (WithNaN.Entry.name receiver) NaN).
  cbn [WithNaN.Matching.needToPay WithNaN.Matching.getRefund
       WithNaN.Matching.payIndex WithNaN.Matching.refundIndex
       WithNaN.Entry.amount].
  split_and!.
  - apply list_lookup_insert_eq. by eapply lookup_lt_Some.
  - apply list_lookup_insert_eq. by eapply lookup_lt_Some.
  - by left.
Qed.

Lemma whileLoop_stuck this fuel st :
  stuck st → WithNaN.whileLoop this fuel st = None.
Proof.
  revert st. induction fuel as [|fuel IH]; intros st Hs; simpl;
    rewrite (stuck_loopCondition st Hs); [done|].
  by rewrite (IH _ (loopBody_stuck this st Hs)).
Qed.

(** On amounts without NaN the matching loop with NaN is the matching loop
    of [generatePaymentSuggestions] above. *)
Lemma filter_map_status status (l : list MemberCalculation.t) :
  WithNaN.withStatus status (map ofMemberCalculation l)
  = map ofMemberCalculation (withStatus status l).
Proof.
  unfold WithNaN.withStatus, withStatus.
  induction l as [|m l IH]; [done|].
  cbn [map]. rewrite !filter_cons.
  cbn [ofMemberCalculation WithNaN.MemberCalculation.status].
  destruct (decide (MemberCalculation.status m = status)); cbn [map];
    by rewrite IH.
Qed.

Lemma insertSorted_of x l :
  WithNaN.insertSorted
    (λ a b, WithNaN.minus (WithNaN.Entry.amount b) (WithNaN.Entry.amount a))
    (ofEntry x) (map ofEntry l)
  = map ofEntry (insertSorted (λ a b, Entry.amount b - Entry.amount a) x l).
Proof.
  induction l as [|y l IH]; [done|].
  cbn [map WithNaN.insertSorted insertSorted ofEntry WithNaN.Entry.amount
       WithNaN.minus WithNaN.lessThan].
  destruct (Qlt_bool 0 _); cbn [map]; [|done].
  f_equal. exact IH.
Qed.

Lemma sort_of l :
  WithNaN.sort
    (λ a b, WithNaN.minus (WithNaN.Entry.amount b) (WithNaN.Entry.amount a))
    (map ofEntry l)
  = map ofEntry (sort (λ a b, Entry.amount b - Entry.amount a) l).
Proof.
  induction l as [|x l IH]; [done|].
  cbn [map WithNaN.sort sort]. by rewrite IH, insertSorted_of.
Qed.

Lemma entries_of status l :
  WithNaN.entries status (map ofMemberCalculation l)
  = map ofEntry (entries status l).
Proof.
  unfold WithNaN.entries, entries. rewrite filter_map_status.
  rewrite <- sort_of. f_equal.
  rewrite <- !list_fmap_compose. by apply list_fmap_ext.
Qed.

Lemma loopBody_of this st :
  WithNaN.loopBody this (ofMatching st) = ofMatching (loopBody this st).
Proof.
  unfold WithNaN.loopBody, loopBody.
  cbn [ofMatching WithNaN.Matching.needToPay WithNaN.Matching.getRefund
       WithNaN.Matching.payIndex WithNaN.Matching.refundIndex
       WithNaN.Matching.suggestions].
  rewrite !list_lookup_fmap.
  destruct (Matching.needToPay st !! _) as [payer|]; [|done].
  destruct (Matching.getRefund st !! _) as [receiver|]; [|done].
  cbn [fmap option_fmap option_map ofEntry WithNaN.Entry.amount
       WithNaN.Entry.name WithNaN.Math_min WithNaN.lessThan WithNaN.minus
       WithNaN.setAmount WithNaN.atMost WithNaN.roundNumber].
  unfold ofMatching, Math_min.
  cbn [Matching.needToPay Matching.getRefund Matching.suggestions
       Matching.payIndex Matching.refundIndex setAmount Entry.amount Entry.name].
  rewrite !list_fmap_insert.
  f_equal.
  destruct (Qlt_bool (1 # 100) _); [|done].
  by rewrite fmap_app.
Qed.

Lemma whileLoop_of this fuel st :
  WithNaN.whileLoop this fuel (ofMatching st)
  = (λ result, (result.1, ofMatching result.2)) <$> whileLoop this fuel st.
Proof.
  revert st. induction fuel as [|fuel IH]; intros st;
    cbn [WithNaN.whileLoop whileLoop];
    assert (WithNaN.loopCondition (ofMatching st) = loopCondition st) as ->
      by (unfold WithNaN.loopCondition, loopCondition; cbn; by rewrite !length_map).
  - by destruct (loopCondition st).
  - destruct (loopCondition st); [|done].
    rewrite loopBody_of, IH.
    by destruct (whileLoop this fuel (loopBody this st)) as [[n final]|].
Qed.

Lemma generatePaymentSuggestions_of this calculations :
  WithNaN.generatePaymentSuggestions this (ofCalculations calculations)
    (map ofSuggestion (generatePaymentSuggestions this calculations)).
Proof.
  destruct (runMatching_returns this calculations) as (n & final & Hrun & _).
  unfold generatePaymentSuggestions. rewrite Hrun.
  exists (enoughFuel (initialMatching calculations)), n, (ofMatching final).
  split; [|done].
  assert (WithNaN.initialMatching (ofCalculations calculations)
          = ofMatching (initialMatching calculations)) as ->.
  { unfold WithNaN.initialMatching, initialMatching, ofMatching.
    cbn [ofCalculations WithNaN.Calculations.memberCalculations
         Matching.needToPay Matching.getRefund Matching.suggestions
         Matching.payIndex Matching.refundIndex].
    by rewrite !entries_of. }
  rewrite whileLoop_of. unfold runMatching in Hrun. by rewrite Hrun.
Qed.

(** * The claims *)

(** With Bob's advance stored as the text ["60000"], scenario A comes out as
    expected: 25000 per person, Alice owes 25000, Bob is owed 35000, and the
    one suggested transfer is Alice to Bob, 25000. *)
Lemma scenarioA_text_advance :
  ∃ calculations,
    calculateSession ReferenceHost.run constructor (scenarioA (JsString "60000"))
      = Normal calculations
    ∧ scenarioA_expected calculations
        (generatePaymentSuggestions constructor calculations).
Proof.
  eexists. split; [vm_compute; reflexivity|].
  split; [vm_compute; reflexivity|].
  split.
  - do 2 eexists. split; [vm_compute; reflexivity|]. simpl.
    split_and!; try reflexivity; vm_compute; reflexivity.
  - eexists. split; [vm_compute; reflexivity|]. simpl.
    split_and!; try reflexivity; vm_compute; reflexivity.
Qed.

(** C1.  Scenario A with Bob's advance given as the number 60000:
    [parseExpression] calls [trim] on the number, the call throws, and the
    advance is taken as 0.  The cost per person is still 25000, but Bob comes
    out as owing 25000 ([needs_to_pay]) instead of being owed 35000, and no
    transfer is suggested: the expected outcome of scenario A is not
    reached. *)
Theorem scenarioA_numeric_advance :
  ∃ calculations a b,
    calculateSession ReferenceHost.run constructor (scenarioA (JsNumber 60000))
      = Normal calculations
    ∧ Totals.costPerPerson (Calculations.totals calculations) == 25000
    ∧ Calculations.memberCalculations calculations = [a; b]
    ∧ MemberCalculation.advance b == 0
    ∧ MemberCalculation.finalAmount b == 25000
    ∧ MemberCalculation.status b = needs_to_pay
    ∧ generatePaymentSuggestions constructor calculations = []
    ∧ ¬ scenarioA_expected calculations
          (generatePaymentSuggestions constructor calculations).
Proof.
  do 3 eexists. split; [vm_compute; reflexivity|].
  split; [vm_compute; reflexivity|].
  split; [vm_compute; reflexivity|]. simpl.
  split_and!; try (vm_compute; reflexivity).
  intros (_ & _ & t & Ht & _). vm_compute in Ht. discriminate.
Qed.

(** C2.  Whenever [calculateSession] returns, the [totalSpent] of the
    returned member calculations sum to [totals.totalCost]: exactly, and so
    within 0.01. *)
Theorem totalSpent_adds_up_to_totalCost hostFunction this session calculations :
  calculateSession hostFunction this session = Normal calculations →
  sumOf MemberCalculation.totalSpent (Calculations.memberCalculations calculations)
    == Totals.totalCost (Calculations.totals calculations)
  ∧ Qabs (sumOf MemberCalculation.totalSpent
            (Calculations.memberCalculations calculations)
          - Totals.totalCost (Calculations.totals calculations)) <= 1 # 100.
Proof.
  destruct (calculateSession_settle hostFunction this session) as [members ->].
  intros [= <-].
  pose proof (totalSpent_sum hostFunction this members) as H.
  split; [done|]. apply Qabs_Qle_condition. split; lra.
Qed.

Lemma totalSpent_adds_up_to_totalCost_witness :
  ∃ calculations,
    calculateSession ReferenceHost.run constructor (scenarioA (JsString "60000"))
      = Normal calculations
    ∧ Qabs (sumOf MemberCalculation.totalSpent
              (Calculations.memberCalculations calculations)
            - Totals.totalCost (Calculations.totals calculations)) <= 1 # 100.
Proof.
  destruct (calculateSession_returns ReferenceHost.run constructor
              (scenarioA (JsString "60000"))) as [calculations H].
  exists calculations. split; [done|].
  exact (proj2 (totalSpent_adds_up_to_totalCost _ _ _ _ H)).
Defined.

(** C3.  [parseExpression] never throws: for every input it returns a
    number.  It returns 0 for a falsy input (null, undefined, the empty
    text), for a blank text, for a text whose cleaned form does not pass
    [isValidExpression] (unbalanced parentheses, as in ["(2+3"]), and
    whenever the host does not produce a finite number for the cleaned text,
    be it by throwing, by a result that is not a number, or by a non-finite
    one, as for ["1/0"]. *)
Theorem parseExpression_never_raises hostFunction this :
  (∀ expression, returns (parseExpression hostFunction this expression))
  ∧ (∀ expression, truthy expression = false →
       parseExpression hostFunction this expression = Normal 0)
  ∧ (∀ s, isBlank s = true →
       parseExpression hostFunction this (JsString s) = Normal 0)
  ∧ (∀ s, isValidExpression (cleanExpression s) = false →
       parseExpression hostFunction this (JsString s) = Normal 0)
  ∧ (∀ s, (∀ q, hostFunction ("return (" ++ cleanExpression s ++ ")")%string
               ≠ HostNumber q) →
       parseExpression hostFunction this (JsString s) = Normal 0)
  ∧ parseExpression hostFunction this (JsString "(2+3") = Normal 0
  ∧ parseExpression ReferenceHost.run this (JsString "1/0") = Normal 0.
Proof.
  split_and!.
  - apply parseExpression_returns.
  - intros e He. unfold parseExpression, parseExpression_try. by rewrite He.
  - intros s Hs. unfold parseExpression, parseExpression_try.
    destruct (negb (truthy (JsString s))); [done|]. by rewrite Hs.
  - intros s Hs. unfold parseExpression, parseExpression_try.
    destruct (negb (truthy (JsString s))); [done|].
    destruct (isBlank s); [done|].
    destruct (String.eqb _ ""); [done|]. by rewrite Hs.
  - intros s Hs. unfold parseExpression, parseExpression_try.
    destruct (negb (truthy (JsString s))); [done|].
    destruct (isBlank s); [done|].
    destruct (String.eqb _ ""); [done|].
    destruct (negb (isValidExpression _)); [done|].
    unfold evaluateExpression.
    destruct (hostFunction _) as [q| | |] eqn:E; try done.
    by destruct (Hs q).
  - reflexivity.
  - reflexivity.
Qed.

Lemma parseExpression_never_raises_witness :
  returns (parseExpression ReferenceHost.run constructor (JsString "2+*3"))
  ∧ parseExpression ReferenceHost.run constructor JsNull = Normal 0
  ∧ parseExpression ReferenceHost.run constructor (JsString "   ") = Normal 0
  ∧ parseExpression ReferenceHost.run constructor (JsString "2+3)") = Normal 0
  ∧ parseExpression ReferenceHost.run constructor (JsString "2+*3") = Normal 0.
Proof.
  destruct (parseExpression_never_raises ReferenceHost.run constructor)
    as (H1 & H2 & H3 & H4 & H5 & _).
  split_and!.
  - apply H1.
  - apply H2. reflexivity.
  - apply H3. reflexivity.
  - apply H4. reflexivity.
  - apply H5. intros q. vm_compute. discriminate.
Defined.

(** C4, as stated, fails on scenario A: Alice pays Bob 25000, after which
    Bob, who was owed 35000, is still owed 10000. *)
Lemma scenarioA_leaves_receiver_unpaid :
  settled constructor
    (settle ReferenceHost.run constructor [alice; bob (JsString "60000")])
  ∧ ¬ transfersSettleEveryone constructor
        (settle ReferenceHost.run constructor [alice; bob (JsString "60000")]).
Proof.
  split; [apply settle_settled|].
  intros (_ & _ & Hr). unfold receiversServed in Hr.
  vm_compute in Hr. apply Forall_cons_1 in Hr as [H _]. by apply H.
Qed.

(** C4, amended.  With the engine as the program makes it, for every
    settlement result the suggested amounts sum to at most the smaller of
    the two totals (what is owed in all, what is due in all), and once the
    suggested transfers are made one side has been served: every member who
    needs to pay owes at most 0.01 beyond what the suggestions have that
    name pay, or every member who gets a refund is due at most 0.01 beyond
    what the suggestions have that name receive. *)
Theorem suggestions_within_totals calculations :
  settled constructor calculations →
  let members := Calculations.memberCalculations calculations in
  let suggestions := generatePaymentSuggestions constructor calculations in
  sumOf Suggestion.amount suggestions
  <= Qmin (sumOf MemberCalculation.finalAmount (withStatus needs_to_pay members))
          (sumOf MemberCalculation.finalAmount (withStatus gets_refund members))
  ∧ (Forall (λ m, MemberCalculation.finalAmount m
                  - paidBy (MemberCalculation.name m) suggestions <= 1 # 100)
            (withStatus needs_to_pay members)
     ∨ Forall (λ m, MemberCalculation.finalAmount m
                    - receivedBy (MemberCalculation.name m) suggestions <= 1 # 100)
              (withStatus gets_refund members)).
Proof.
  intros Hs members suggestions. subst members.
  destruct (runMatching_returns constructor calculations) as (n & final & Hrun & Hc & _).
  assert (suggestions = Matching.suggestions final) as Hg
    by (unfold suggestions, generatePaymentSuggestions; by rewrite Hrun).
  set (owed := sumOf MemberCalculation.finalAmount
                 (withStatus needs_to_pay (Calculations.memberCalculations calculations))).
  set (due := sumOf MemberCalculation.finalAmount
                (withStatus gets_refund (Calculations.memberCalculations calculations))).
  set (I := λ st : Matching.t, invariant constructor owed due st ∧ served calculations st).
  assert (I final) as [[I1 I2 I3 I4 I5 I6] [Up Ur Hpos Hone Hother Heither]].
  { apply (whileLoop_invariant constructor I) with
      (fuel := enoughFuel (initialMatching calculations))
      (st := initialMatching calculations) (iterations := n); [|exact Hrun|].
    - intros st Hcond [Hinv Hserved]. split.
      + by apply loopBody_invariant.
      + by eapply loopBody_served.
    - split; [by apply initial_invariant|apply initial_served]. }
  split.
  - rewrite Hg. fold (paid final). fold owed due.
    pose proof (sumOf_nonneg Entry.amount (Matching.needToPay final)) as Hp.
    pose proof (sumOf_nonneg Entry.amount (Matching.getRefund final)) as Hr.
    apply Q.min_glb.
    + assert (0 <= sumOf Entry.amount (Matching.needToPay final)); [|lra].
      apply Hp. intros e He. by destruct (proj1 (Forall_forall _ _) I1 e He).
    + assert (0 <= sumOf Entry.amount (Matching.getRefund final)); [|lra].
      apply Hr. intros e He. by destruct (proj1 (Forall_forall _ _) I2 e He).
  - set (P0 := Matching.needToPay (initialMatching calculations)) in *.
    set (R0 := Matching.getRefund (initialMatching calculations)) in *.
    assert (length (Matching.needToPay final) = length P0) as Lp.
    { destruct Up as [Hn _]. by rewrite <- (length_map Entry.name), Hn, length_map. }
    assert (length (Matching.getRefund final) = length R0) as Lr.
    { destruct Ur as [Hn _]. by rewrite <- (length_map Entry.name), Hn, length_map. }
    assert (covered P0 (Matching.needToPay final)
                    (λ name, paidBy name (Matching.suggestions final)) →
            tinyFrom (Matching.payIndex final) P0 →
            Forall (λ m, MemberCalculation.finalAmount m
                         - paidBy (MemberCalculation.name m) suggestions
                         <= 1 # 100)
                   (withStatus needs_to_pay
                      (Calculations.memberCalculations calculations))) as Sp.
    { intros Hcov Hty.
      pose proof (covered_served _ _ _ _ Lp
                    (λ name, paidBy_nonneg name _ Hpos) I5 Hcov Hty) as Hall.
      unfold P0 in Hall. cbn [initialMatching Matching.needToPay] in Hall.
      rewrite entries_Permutation in Hall.
      rewrite Forall_fmap in Hall. rewrite Hg.
      eapply Forall_impl; [exact Hall|]. by intros m. }
    assert (covered R0 (Matching.getRefund final)
                    (λ name, receivedBy name (Matching.suggestions final)) →
            tinyFrom (Matching.refundIndex final) R0 →
            Forall (λ m, MemberCalculation.finalAmount m
                         - receivedBy (MemberCalculation.name m) suggestions
                         <= 1 # 100)
                   (withStatus gets_refund
                      (Calculations.memberCalculations calculations))) as Sr.
    { intros Hcov Hty.
      pose proof (covered_served _ _ _ _ Lr
                    (λ name, receivedBy_nonneg name _ Hpos) I6 Hcov Hty) as Hall.
      unfold R0 in Hall. cbn [initialMatching Matching.getRefund] in Hall.
      rewrite entries_Permutation in Hall.
      rewrite Forall_fmap in Hall. rewrite Hg.
      eapply Forall_impl; [exact Hall|]. by intros m. }
    apply not_true_iff_false in Hc. rewrite loopCondition_true in Hc.
    destruct (decide (Matching.payIndex final < length (Matching.needToPay final))%nat)
      as [Hlt|Hge].
    + assert (tinyFrom (Matching.refundIndex final) R0) as Hend
        by (apply tinyFrom_end; lia).
      destruct Hother as [Hcov|Hty]; [right; by apply Sr|].
      destruct Heither as [Hcov|Hcov]; [left; by apply Sp|right; by apply Sr].
    + assert (tinyFrom (Matching.payIndex final) P0) as Hend
        by (apply tinyFrom_end; lia).
      destruct Hone as [Hcov|Hty]; [left; by apply Sp|].
      destruct Heither as [Hcov|Hcov]; [left; by apply Sp|right; by apply Sr].
Qed.

(** Scenario A: Alice, the only payer, owes nothing after her transfer. *)
Lemma suggestions_within_totals_witness :
  let calculations :=
    settle ReferenceHost.run constructor [alice; bob (JsString "60000")] in
  let suggestions := generatePaymentSuggestions constructor calculations in
  sumOf Suggestion.amount suggestions <= 25000
  ∧ (payersServed calculations suggestions
     ∨ receiversServed calculations suggestions).
Proof.
  intros calculations suggestions.
  destruct (suggestions_within_totals calculations) as [Hsum Hside].
  - apply settle_settled.
  - split; [|exact Hside].
    eapply Qle_trans; [exact Hsum|]. by vm_compute.
Defined.

(** C5.  [calculateCustomSplit] throws when the session is absent, when its
    members are absent, when the percentages are absent, and when the
    percentages differ from 100 by more than 0.01. *)
Theorem calculateCustomSplit_rejects hostFunction this session percentages :
  session = None
  ∨ (∃ s, session = Some s ∧ Session.members s = None)
  ∨ percentages = None
  ∨ (∃ p, percentages = Some p ∧ 1 # 100 < Qabs (totalPercentage p - 100)) →
  ∃ message,
    calculateCustomSplit hostFunction this session percentages = Throw message.
Proof.
  unfold calculateCustomSplit.
  intros [->|[(s & -> & Hs)|[->|(p & -> & Hp)]]].
  - by eexists.
  - rewrite Hs. destruct percentages; by eexists.
  - destruct session; by eexists.
  - destruct session as [s|]; [|by eexists].
    destruct (Session.members s); [|by eexists].
    apply Qlt_bool_true in Hp. unfold Math_abs. rewrite Hp. by eexists.
Qed.

(** Scenario D: [{a: 60, b: 41}] sums to 101 and is rejected. *)
Lemma calculateCustomSplit_rejects_witness :
  totalPercentage scenarioD == 101
  ∧ ∃ message,
      calculateCustomSplit ReferenceHost.run constructor
        (scenarioA (JsString "60000")) (Some scenarioD) = Throw message.
Proof.
  split; [by vm_compute|].
  apply calculateCustomSplit_rejects. right; right; right.
  exists scenarioD. split; [done|]. by vm_compute.
Defined.

(** C6, as stated, fails twice.  A percentage given to an id that is no
    member is lost: one member with a bill of 100 and [{b: 100}] gets a share
    of 0.  And every share is rounded on its own: of a bill of 1, five shares
    of 0.375% round to 0 and one of 98.125% rounds to 0.98, so the shares sum
    to 0.98. *)
Lemma customSplit_misses_totalCost :
  ¬ customSplitAddsUp ReferenceHost.run constructor strangerSession
      strangerPercentages
  ∧ ¬ customSplitAddsUp ReferenceHost.run constructor
        (Some {| Session.members := Some crumbsMembers |}) crumbsPercentages.
Proof.
  split; intros H.
  - specialize (H (splitBy ReferenceHost.run constructor [guest "a" "100"]
                     strangerPercentages)).
    assert (¬ Qabs (sumOf MemberCalculation.amountPerPerson
                      (Calculations.memberCalculations
                         (splitBy ReferenceHost.run constructor [guest "a" "100"]
                            strangerPercentages))
                    - Totals.totalCost
                        (Calculations.totals
                           (splitBy ReferenceHost.run constructor [guest "a" "100"]
                              strangerPercentages))) <= 1 # 100) as Hno.
    { vm_compute. intros Hle. by apply Hle. }
    apply Hno, H; by vm_compute.
  - specialize (H (splitBy ReferenceHost.run constructor crumbsMembers
                     crumbsPercentages)).
    assert (¬ Qabs (sumOf MemberCalculation.amountPerPerson
                      (Calculations.memberCalculations
                         (splitBy ReferenceHost.run constructor crumbsMembers
                            crumbsPercentages))
                    - Totals.totalCost
                        (Calculations.totals
                           (splitBy ReferenceHost.run constructor crumbsMembers
                              crumbsPercentages))) <= 1 # 100) as Hno.
    { vm_compute. intros Hle. by apply Hle. }
    apply Hno, H; by vm_compute.
Qed.

(** C6, amended.  When the keys of the percentages are exactly the ids of
    the members, the ids are distinct and the percentages sum to 100, the
    [amountPerPerson] of the returned member calculations sum to
    [totals.totalCost] within 0.005 per member. *)
Theorem customSplit_adds_up hostFunction s members percentages calculations :
  Session.members s = Some members →
  NoDup (map Member.id members) →
  dom percentages = list_to_set (map Member.id members) →
  totalPercentage percentages == 100 →
  calculateCustomSplit hostFunction constructor (Some s) (Some percentages)
    = Normal calculations →
  Qabs (sumOf MemberCalculation.amountPerPerson
          (Calculations.memberCalculations calculations)
        - Totals.totalCost (Calculations.totals calculations))
  <= count (length members) * (1 # 200).
Proof.
  intros Hm Hnd Hdom Hsum Hc.
  rewrite (calculateCustomSplit_accepts hostFunction constructor s members percentages)
    in Hc; [|done|].
  2:{ rewrite Hsum. by vm_compute. }
  injection Hc as <-. unfold splitBy.
  cbn [Calculations.memberCalculations Calculations.totals].
  set (T := Totals.totalCost _).
  rewrite sumOf_map. cbn [finalize MemberCalculation.amountPerPerson].
  rewrite sumOf_map.
  set (share := λ member : Member.t,
         T * percentageOf percentages
               (MemberCost.id (costOf hostFunction constructor member)) / 100).
  assert (sumOf share members == T) as Hshare.
  { unfold share.
    rewrite (sumOf_ext _ (λ member, (T / 100)
               * default 0 (percentages !! Member.id member))).
    2:{ intros member _. cbn [costOf MemberCost.id]. unfold percentageOf.
        rewrite orZero_eq. field. }
    rewrite sumOf_scale.
    rewrite <- (sumOf_map (λ id, default 0 (percentages !! id)) Member.id).
    rewrite sum_of_lookups by done.
    fold (totalPercentage percentages). rewrite Hsum. field. }
  pose proof (sumOf_rounding_error share members) as Herr.
  apply Qabs_Qle_condition in Herr. apply Qabs_Qle_condition.
  change (sumOf _ members)
    with (sumOf (λ x, roundNumber constructor (share x)) members).
  split; lra.
Qed.

Lemma customSplit_adds_up_witness :
  Qabs (sumOf MemberCalculation.amountPerPerson
          (Calculations.memberCalculations
             (splitBy ReferenceHost.run constructor pairMembers pairPercentages))
        - Totals.totalCost
            (Calculations.totals
               (splitBy ReferenceHost.run constructor pairMembers pairPercentages)))
  <= count 2 * (1 # 200).
Proof.
  apply (customSplit_adds_up ReferenceHost.run
           {| Session.members := Some pairMembers |} pairMembers pairPercentages).
  - reflexivity.
  - apply (bool_decide_unpack _). by vm_compute.
  - apply (bool_decide_unpack _). by vm_compute.
  - by vm_compute.
  - apply calculateCustomSplit_accepts; [reflexivity|by vm_compute].
Defined.




(** Two sessions that cost 100 and 200: the buckets range from 100 to 150 and
    from 150 to 200, both without their upper bound, so that the session
    that cost 200 is counted in neither. *)
Example greatest_cost_in_no_bucket :
  let sessions :=
    map (λ cost, {| StoredSession.totals :=
                      Some (Totals.mk cost 0 0 0 0 0 0) |}) [100; 200] in
  let distribution := CostAnalytics.distribution (generateCostAnalytics sessions) in
  CostAnalytics.max (generateCostAnalytics sessions) == 200
  ∧ map Bucket.count distribution = [1%nat; 0%nat]
  ∧ countedIn distribution 200 = 0%nat.
Proof. by vm_compute. Qed.

(** On amounts without NaN the matching loop ends: with fuel for
    [|payers| + |receivers|] iterations it stops with its condition false
    after at most [|payers| + |receivers| - 1] of them (none at all when one
    of the two lists is empty), because every iteration moves at least one
    of the two indices forward. *)
Lemma matching_loop_terminates this calculations :
  let st := initialMatching calculations in
  ∃ iterations final,
    runMatching this calculations = Some (iterations, final)
    ∧ loopCondition final = false
    ∧ (iterations
       ≤ length (Matching.needToPay st) + length (Matching.getRefund st) - 1)%nat
    ∧ ((length (Matching.needToPay st) = 0 ∨ length (Matching.getRefund st) = 0)%nat
       → iterations = 0%nat)
    ∧ ∀ st', loopCondition st' = true →
        (Matching.payIndex st' + Matching.refundIndex st'
         < Matching.payIndex (loopBody this st')
           + Matching.refundIndex (loopBody this st'))%nat.
Proof.
  intros st.
  destruct (runMatching_returns this calculations)
    as (n & final & Hrun & Hc & Hz & Hs).
  exists n, final. fold st in Hz, Hs.
  split_and!; [done|done| | |].
  - destruct (loopCondition st) eqn:E.
    + specialize (Hs eq_refl). unfold remaining in Hs. subst st.
      cbn [initialMatching Matching.payIndex Matching.refundIndex
           Matching.needToPay Matching.getRefund] in *. lia.
    + rewrite Hz by done. lia.
  - intros Hempty. apply Hz. apply not_true_iff_false.
    rewrite loopCondition_true. subst st.
    cbn [initialMatching Matching.payIndex Matching.refundIndex
         Matching.needToPay Matching.getRefund] in *. lia.
  - intros st' Hc'. by destruct (loopBody_progress this st' Hc') as (_ & _ & ?).
Qed.

(** C8, as stated, fails on the custom split of the session of
    [guest "a" "100"] and [guest "toString" "0"] by [{a: 100}]: the first
    member is to pay 100, the second is to get NaN back, and with this one
    payer and one receiver the loop never ends: whatever the number of
    iterations allowed, its condition is still true after them, so that
    [generatePaymentSuggestions] returns nothing. *)
Theorem matching_loop_never_ends :
  ∃ calculations,
    WithNaN.calculateCustomSplit ReferenceHost.run constructor
      inheritedIdSession (Some inheritedIdPercentages) = Normal calculations
    ∧ length (WithNaN.Matching.needToPay (WithNaN.initialMatching calculations))
      = 1%nat
    ∧ length (WithNaN.Matching.getRefund (WithNaN.initialMatching calculations))
      = 1%nat
    ∧ (∀ fuel,
         WithNaN.whileLoop constructor fuel (WithNaN.initialMatching calculations)
         = None)
    ∧ ¬ ∃ suggestions,
          WithNaN.generatePaymentSuggestions constructor calculations suggestions.
Proof.
  destruct (WithNaN.calculateCustomSplit ReferenceHost.run constructor
              inheritedIdSession (Some inheritedIdPercentages))
    as [calculations|] eqn:E; [|by vm_compute in E].
  exists calculations. split; [done|].
  vm_compute in E. injection E as <-.
  split; [reflexivity|]. split; [reflexivity|].
  match goal with
  | |- (∀ fuel, WithNaN.whileLoop _ fuel ?st = None) ∧ _ =>
      assert (stuck st) as Hstuck
  end.
  { eexists _, _. split; [by vm_compute|]. split; [by vm_compute|]. by right. }
  match goal with
  | |- (∀ fuel, WithNaN.whileLoop _ fuel ?st = None) ∧ _ =>
      assert (∀ fuel, WithNaN.whileLoop constructor fuel st = None) as Hnever
        by (intros fuel; by apply whileLoop_stuck)
  end.
  split; [exact Hnever|].
  intros (suggestions & fuel & iterations & final & Hrun & _).
  by rewrite Hnever in Hrun.
Qed.

(** C9.  [calculateWithTip] changes no object that was in the store when it
    was called: the store afterwards extends the store before, so every
    session read from it, the one passed in included, has the members and
    items it had before.  The tip items go to objects created by the call. *)
Theorem calculateWithTip_leaves_session_unchanged
    hostFunction this (h : store) session tipAmount tipDistribution :
  let after :=
    (calculateWithTip hostFunction this session tipAmount tipDistribution h).1 in
  h ⊆ after
  ∧ (∀ l o, h !! l = Some o → after !! l = Some o)
  ∧ (∀ l value, readSession h l = Some value → readSession after l = Some value).
Proof.
  intros after.
  destruct (keeps_calculateWithTip h hostFunction this session tipAmount
              tipDistribution h (isolated_refl h)) as [[Hsub _] _].
  fold after in Hsub. split_and!; [done| |].
  - intros l o Hl. by eapply lookup_weaken.
  - intros l value. by apply readSession_weaken.
Qed.

Lemma calculateWithTip_leaves_session_unchanged_witness :
  ∃ value,
    readSession scenarioStore 1%positive = Some value
    ∧ readSession
        (calculateWithTip ReferenceHost.run constructor (Some 1%positive)
           (JsString "30000") "equal" scenarioStore).1 1%positive
      = Some value.
Proof.
  destruct (calculateWithTip_leaves_session_unchanged ReferenceHost.run
              constructor scenarioStore (Some 1%positive) (JsString "30000")
              "equal") as (_ & _ & H).
  eexists. split; [by vm_compute|].
  apply H. by vm_compute.
Defined.

(** The call does work on its copy: each member of the copy has got one more
    item, which the returned calculation counts. *)
Example calculateWithTip_counts_tip_items :
  ∃ calculations,
    (calculateWithTip ReferenceHost.run constructor (Some 1%positive)
       (JsString "30000") "equal" scenarioStore).2 = Normal calculations
    ∧ map MemberCalculation.itemCount (Calculations.memberCalculations calculations)
      = [2%nat; 1%nat].
Proof. eexists. split; vm_compute; reflexivity. Qed.

(** A member whose id is no key of the percentages and names no property of
    [Object.prototype] is no error in [calculateCustomSplit]: the call
    returns, and that member's share is 0: [amountPerPerson] is 0 and status
    and final amount follow from the advance alone ([even] with 0 below
    0.01, else the rounded advance to get back, or to pay when the advance
    is negative). *)
Lemma absent_percentage_counts_as_zero hostFunction this s members percentages :
  Session.members s = Some members →
  Qabs (totalPercentage percentages - 100) < 1 # 100 →
  ∃ calculations,
    WithNaN.calculateCustomSplit hostFunction this (Some s) (Some percentages)
      = Normal calculations
    ∧ length (WithNaN.Calculations.memberCalculations calculations)
      = length members
    ∧ ∀ i member,
        members !! i = Some member →
        percentages !! Member.id member = None →
        Member.id member ∉ Object_prototype →
        ∃ c amountPerPerson finalAmount,
          WithNaN.Calculations.memberCalculations calculations !! i = Some c
          ∧ WithNaN.MemberCalculation.id c = Member.id member
          ∧ WithNaN.MemberCalculation.amountPerPerson c = Num amountPerPerson
          ∧ WithNaN.MemberCalculation.finalAmount c = Num finalAmount
          ∧ amountPerPerson == 0
          ∧ (let advance := WithNaN.MemberCalculation.advance c in
             (Qabs advance < 1 # 100 →
                WithNaN.MemberCalculation.status c = even ∧ finalAmount == 0)
             ∧ (1 # 100 < Qabs advance → advance < 0 →
                WithNaN.MemberCalculation.status c = needs_to_pay
                ∧ finalAmount == roundNumber this (- advance))
             ∧ (1 # 100 < Qabs advance → 0 <= advance →
                WithNaN.MemberCalculation.status c = gets_refund
                ∧ finalAmount == roundNumber this advance)).
Proof.
  intros Hm Hp. eexists. split.
  { unfold WithNaN.calculateCustomSplit. rewrite Hm.
    apply Qlt_le_weak, Qlt_bool_false in Hp. rewrite Hp.
    rewrite calculateMemberCosts_normal. reflexivity. }
  cbn [WithNaN.Calculations.memberCalculations].
  split; [by rewrite !length_map|].
  intros i member Hi Hnone Hnot.
  set (T := Totals.totalCost _).
  set (cost := costOf hostFunction this member).
  exists (ofMemberCalculation (finalize this cost (T * 0 / 100))),
    (MemberCalculation.amountPerPerson (finalize this cost (T * 0 / 100))),
    (MemberCalculation.finalAmount (finalize this cost (T * 0 / 100))).
  split.
  { rewrite !list_lookup_fmap, Hi. cbn [fmap option_fmap option_map]. f_equal.
    fold cost. unfold WithNaN.percentageOf.
    replace (percentages !! MemberCost.id cost) with (@None Q) by done.
    rewrite bool_decide_eq_false_2 by done.
    cbn [WithNaN.shareOf]. apply finalize_of. }
  destruct (finalize_proper this cost (T * 0 / 100) 0) as (H1 & H2 & H3); [field|].
  destruct (finalize_zero this cost) as (Z1 & Z2 & Z3).
  split_and!; [done|done|done| | | |].
  - rewrite H3. unfold finalize. cbn [MemberCalculation.amountPerPerson].
    apply roundNumber_fixed, rounded_0.
  - intros Ha. cbn [ofMemberCalculation WithNaN.MemberCalculation.status
                    WithNaN.MemberCalculation.advance] in *.
    rewrite H1, H2. by apply Z1.
  - intros Ha Hneg. cbn [ofMemberCalculation WithNaN.MemberCalculation.status
                         WithNaN.MemberCalculation.advance] in *.
    rewrite H1, H2. apply Z2; [by apply Qlt_le_weak|done].
  - intros Ha Hpos. cbn [ofMemberCalculation WithNaN.MemberCalculation.status
                         WithNaN.MemberCalculation.advance] in *.
    rewrite H1, H2. apply Z3; [by apply Qlt_le_weak|done].
Qed.

(** C10, as stated, fails on a member whose id names a property of
    [Object.prototype]: in the session of [guest "a" "100"] and
    [guest "toString" "0"], split by [{a: 100}], the second member is absent
    from the percentages, which sum to 100, and the call returns; yet that
    member's [amountPerPerson] and [finalAmount] are NaN, not 0, with the
    status [gets_refund]. *)
Theorem inherited_id_gets_NaN :
  inheritedIdPercentages !! "toString" = None
  ∧ totalPercentage inheritedIdPercentages == 100
  ∧ ∃ calculations a b,
      WithNaN.calculateCustomSplit ReferenceHost.run constructor
        inheritedIdSession (Some inheritedIdPercentages) = Normal calculations
      ∧ WithNaN.Calculations.memberCalculations calculations = [a; b]
      ∧ WithNaN.MemberCalculation.id b = "toString"
      ∧ WithNaN.MemberCalculation.advance b == 0
      ∧ WithNaN.MemberCalculation.amountPerPerson b = NaN
      ∧ WithNaN.MemberCalculation.finalAmount b = NaN
      ∧ WithNaN.MemberCalculation.status b = gets_refund.
Proof.
  split; [done|]. split; [by vm_compute|].
  eexists _, _, _. split; [by vm_compute|].
  split; [reflexivity|]. by vm_compute.
Qed.

(** The tip items carry a number as price, and [parseExpression] takes a
    number as 0 (see [parseExpression_number]): the total cost of scenario A
    with a tip of 30000 is still 50000. *)
Example calculateWithTip_tip_priced_zero :
  ∃ calculations,
    (calculateWithTip ReferenceHost.run constructor (Some 1%positive)
       (JsString "30000") "equal" scenarioStore).2 = Normal calculations
    ∧ Totals.totalCost (Calculations.totals calculations) == 50000.
Proof. eexists. split; vm_compute; reflexivity. Qed.

(** * Further properties *)

(** * Rounding, further *)

Lemma Qfloor_round_bounds y :
  inject_Z (Qfloor y) <= y ∧ y < inject_Z (Qfloor y) + 1
  ∧ y <= inject_Z (Qceiling y) ∧ inject_Z (Qceiling y) - 1 < y.
Proof.
  pose proof (Qfloor_le y). pose proof (Qlt_floor y) as H2.
  pose proof (Qle_ceiling y). pose proof (Qceiling_lt y) as H4.
  rewrite inject_Z_plus in H2. change (inject_Z 1) with 1 in H2.
  unfold Z.sub in H4. rewrite inject_Z_plus in H4.
  rewrite inject_Z_opp in H4. change (inject_Z 1) with 1 in H4.
  split_and!; lra.
Qed.

Lemma scaled_bounds f z x lo hi :
  0 < f → x * f + lo <= inject_Z z → inject_Z z <= x * f + hi →
  x + lo / f <= inject_Z z / f ∧ inject_Z z / f <= x + hi / f.
Proof.
  intros Hf H1 H2. split.
  - apply Qle_shift_div_l; [done|].
    assert ((x + lo / f) * f == x * f + lo) as -> by (field; lra). done.
  - apply Qle_shift_div_r; [done|].
    assert ((x + hi / f) * f == x * f + hi) as -> by (field; lra). done.
Qed.

Lemma roundNumber_floor this x :
  roundingMethod this = "floor" →
  roundNumber this x <= x ∧ x <= roundNumber this x + 1 / factor this.
Proof.
  pose proof (factor_pos this) as Hf.
  unfold roundNumber. fold (factor this).
  intros ->. cbn [String.eqb Ascii.eqb Bool.eqb]. unfold Math_floor.
  destruct (Qfloor_round_bounds (x * factor this)) as (H1 & H2 & _).
  destruct (scaled_bounds (factor this) (Qfloor (x * factor this)) x (-1) 0)
    as [H3 H4]; [done|lra|lra|].
  unfold Qdiv in *. lra.
Qed.

Lemma roundNumber_ceil this x :
  roundingMethod this = "ceil" →
  x <= roundNumber this x ∧ roundNumber this x <= x + 1 / factor this.
Proof.
  pose proof (factor_pos this) as Hf.
  unfold roundNumber. fold (factor this).
  intros ->. cbn [String.eqb Ascii.eqb Bool.eqb]. unfold Math_ceil.
  destruct (Qfloor_round_bounds (x * factor this)) as (_ & _ & H1 & H2).
  destruct (scaled_bounds (factor this) (Qceiling (x * factor this)) x 0 1)
    as [H3 H4]; [done|lra|lra|].
  unfold Qdiv in *. lra.
Qed.

Lemma roundNumber_nearest this x :
  roundingMethod this ≠ "floor" → roundingMethod this ≠ "ceil" →
  Qabs (roundNumber this x - x) <= (1 # 2) / factor this.
Proof.
  pose proof (factor_pos this) as Hf.
  unfold roundNumber. fold (factor this).
  intros Hfl Hce.
  apply String.eqb_neq in Hfl, Hce. rewrite Hfl, Hce. unfold Math_round.
  destruct (Qfloor_round_bounds (x * factor this + (1 # 2))) as (H1 & H2 & _).
  destruct (scaled_bounds (factor this) (Qfloor (x * factor this + (1 # 2))) x
              (- (1 # 2)) (1 # 2)) as [H3 H4]; [done|lra|lra|].
  apply Qabs_Qle_condition. unfold Qdiv in *. split; lra.
Qed.

(** X1.  The three rounding methods: [floor] never rounds up, [ceil] never rounds
    down, both stay within one unit of the last kept decimal, and every other
    setting rounds to the nearest such unit. *)
Theorem roundNumber_bounds this x :
  (roundingMethod this = "floor" →
     roundNumber this x <= x ∧ x <= roundNumber this x + 1 / factor this)
  ∧ (roundingMethod this = "ceil" →
     x <= roundNumber this x ∧ roundNumber this x <= x + 1 / factor this)
  ∧ (roundingMethod this ≠ "floor" → roundingMethod this ≠ "ceil" →
     Qabs (roundNumber this x - x) <= (1 # 2) / factor this).
Proof.
  split_and!.
  - apply roundNumber_floor.
  - apply roundNumber_ceil.
  - apply roundNumber_nearest.
Qed.

Lemma roundNumber_bounds_witness :
  roundNumber {| precision := 2; currency := "VND"; roundingMethod := "floor" |}
              (1234567 # 1000) <= 1234567 # 1000
  ∧ (1234567 # 1000)
    <= roundNumber {| precision := 2; currency := "VND"; roundingMethod := "ceil" |}
                   (1234567 # 1000)
  ∧ Qabs (roundNumber constructor (1234567 # 1000) - (1234567 # 1000))
    <= (1 # 2) / factor constructor.
Proof.
  split_and!.
  - apply (roundNumber_bounds
             {| precision := 2; currency := "VND"; roundingMethod := "floor" |}).
    reflexivity.
  - apply (roundNumber_bounds
             {| precision := 2; currency := "VND"; roundingMethod := "ceil" |}).
    reflexivity.
  - apply (roundNumber_bounds constructor); discriminate.
Defined.

(** X2.  Rounding keeps the order of amounts, whatever the precision and
    the rounding method. *)
Theorem roundNumber_monotone this x y :
  x <= y → roundNumber this x <= roundNumber this y.
Proof.
  intros Hxy. pose proof (factor_pos this) as Hf.
  assert (x * factor this <= y * factor this) as Hs
    by (apply Qmult_le_compat_r; lra).
  unfold roundNumber. fold (factor this).
  assert (∀ a b : Z, (a <= b)%Z → inject_Z a / factor this <= inject_Z b / factor this)
    as Hdiv.
  { intros a b Hab. apply Qmult_le_compat_r; [by rewrite <- Zle_Qle|].
    apply Qlt_le_weak, Qinv_lt_0_compat. done. }
  destruct (String.eqb _ "floor"); [apply Hdiv; by apply Qfloor_resp_le|].
  destruct (String.eqb _ "ceil"); [apply Hdiv; by apply Qceiling_resp_le|].
  apply Hdiv. unfold Math_round. apply Qfloor_resp_le. lra.
Qed.

Lemma roundNumber_monotone_witness :
  roundNumber constructor (1 # 3) <= roundNumber constructor (2 # 3)
  ∧ roundNumber {| precision := 2; currency := "VND"; roundingMethod := "floor" |}
                (29 # 100)
    <= roundNumber {| precision := 2; currency := "VND"; roundingMethod := "floor" |}
                   (3 # 10).
Proof.
  split.
  - apply (roundNumber_monotone constructor (1 # 3) (2 # 3)). by vm_compute.
  - apply (roundNumber_monotone
             {| precision := 2; currency := "VND"; roundingMethod := "floor" |}
             (29 # 100) (3 # 10)).
    by vm_compute.
Defined.

(** * Cleaning *)

Lemma removeAll_keep (bad : ascii → bool) s :
  allChars (λ c, negb (bad c)) s = true → removeAll bad s = s.
Proof.
  induction s as [|c s IH]; simpl; [done|].
  intros [Hc Hs]%andb_true_iff. apply negb_true_iff in Hc. rewrite Hc.
  by rewrite IH.
Qed.

Lemma removeAll_allChars (bad : ascii → bool) s :
  allChars (λ c, negb (bad c)) (removeAll bad s) = true.
Proof.
  induction s as [|c s IH]; simpl; [done|].
  destruct (bad c) eqn:E; simpl; [done|]. by rewrite E.
Qed.

Lemma allChars_impl (p q : ascii → bool) s :
  (∀ c, p c = true → q c = true) → allChars p s = true → allChars q s = true.
Proof.
  intros Hpq. induction s as [|c s IH]; simpl; [done|].
  intros [Hc Hs]%andb_true_iff. by rewrite (Hpq c Hc), IH.
Qed.

Lemma allChars_removeAll (p bad : ascii → bool) s :
  allChars p s = true → allChars p (removeAll bad s) = true.
Proof.
  induction s as [|c s IH]; simpl; [done|].
  intros [Hc Hs]%andb_true_iff. destruct (bad c); simpl; [by apply IH|].
  by rewrite Hc, IH.
Qed.

Lemma isKept_not_space c : isKept c = true → isCommaOrSpace c = false.
Proof.
  destruct c as [[] [] [] [] [] [] [] []]; vm_compute; congruence.
Qed.

Lemma cleanExpression_kept s : allChars isKept (cleanExpression s) = true.
Proof.
  unfold cleanExpression.
  eapply allChars_impl; [|apply removeAll_allChars].
  intros c. cbn beta. by rewrite negb_involutive.
Qed.

Lemma cleanExpression_idempotent s :
  cleanExpression (cleanExpression s) = cleanExpression s.
Proof.
  pose proof (cleanExpression_kept s) as Hk.
  unfold cleanExpression at 1.
  rewrite (removeAll_keep isCommaOrSpace).
  - apply removeAll_keep. eapply allChars_impl; [|exact Hk].
    intros c. cbn beta. by rewrite negb_involutive.
  - eapply allChars_impl; [|exact Hk].
    intros c Hc. by rewrite (isKept_not_space c Hc).
Qed.

Lemma isBlank_clean s : isBlank s = true → cleanExpression s = "".
Proof.
  intros Hb. unfold cleanExpression.
  assert (removeAll isCommaOrSpace s = "") as ->; [|done].
  induction s as [|c s IH]; [done|].
  unfold isBlank in Hb. simpl in Hb. apply andb_true_iff in Hb as [Hc Hs].
  simpl. unfold isCommaOrSpace at 1. rewrite Hc, orb_true_r. by apply IH.
Qed.

Lemma kept_not_blank s : allChars isKept s = true → s ≠ "" → isBlank s = false.
Proof.
  destruct s as [|c s]; [done|]. simpl. intros [Hc _]%andb_true_iff _.
  unfold isBlank. simpl.
  assert (isWhitespace c = false) as ->; [|done].
  pose proof (isKept_not_space c Hc) as H. unfold isCommaOrSpace in H.
  by apply orb_false_iff in H as [_ ?].
Qed.

Lemma parseExpression_clean hostFunction this s :
  parseExpression hostFunction this (JsString s)
  = parseExpression hostFunction this (JsString (cleanExpression s)).
Proof.
  destruct (String.eqb_spec (cleanExpression s) "") as [He|Hne].
  - rewrite He. change (parseExpression hostFunction this (JsString ""))
      with (@Normal Q 0).
    unfold parseExpression, parseExpression_try.
    destruct (negb (truthy (JsString s))); [done|].
    destruct (isBlank s); [done|]. by rewrite He.
  - assert (isBlank s = false) as Hb.
    { destruct (isBlank s) eqn:E; [|done]. by apply isBlank_clean in E. }
    assert (s ≠ "") as Hs by (intros ->; by apply Hne).
    unfold parseExpression, parseExpression_try.
    cbn [truthy]. apply String.eqb_neq in Hs. rewrite Hs, Hb.
    rewrite (proj2 (String.eqb_neq _ _) Hne).
    cbn [negb]. rewrite cleanExpression_idempotent.
    rewrite kept_not_blank; [|apply cleanExpression_kept|done].
    by rewrite (proj2 (String.eqb_neq _ _) Hne).
Qed.

(** X3.  Only the cleaned text counts: two texts that differ in commas, blanks,
    letters, currency signs or any other character outside
    [0-9 + - * / ( ) .] are given the same value. *)
Theorem parseExpression_ignores_other_characters hostFunction this s t :
  cleanExpression s = cleanExpression t →
  parseExpression hostFunction this (JsString s)
  = parseExpression hostFunction this (JsString t).
Proof.
  intros H. rewrite (parseExpression_clean _ _ s), (parseExpression_clean _ _ t).
  by rewrite H.
Qed.

Lemma parseExpression_ignores_other_characters_witness :
  parseExpression ReferenceHost.run constructor (JsString "1,250,000 VND")
  = parseExpression ReferenceHost.run constructor (JsString "1250000").
Proof.
  apply parseExpression_ignores_other_characters. reflexivity.
Defined.

(** * Numbers as prices and advances *)

Lemma fold_prices_app hostFunction this items extra total :
  Forall (λ item, ∃ q, Item.price item = JsNumber q) extra →
  fold_left (λ total item,
               total + orZero (parseValue hostFunction this (Item.price item)))
            (items ++ extra) total
  == fold_left (λ total item,
                  total + orZero (parseValue hostFunction this (Item.price item)))
               items total.
Proof.
  intros Hextra. rewrite fold_left_app.
  generalize (fold_left
                (λ total item,
                   total + orZero (parseValue hostFunction this (Item.price item)))
                items total).
  induction Hextra as [|item extra [q Hq] _ IH]; intros acc; simpl; [reflexivity|].
  rewrite IH, Hq. unfold parseValue. rewrite parseExpression_number.
  unfold orZero. simpl. lra.
Qed.

(** X4.  A price or an advance that is a number, not a text, counts as 0: items
    priced by a number raise [itemCount] but leave [totalSpent] as it is, and
    a numeric advance gives an advance of 0. *)
Theorem numbers_count_as_zero hostFunction this member items extra q :
  Member.items member = Some items →
  Forall (λ item, ∃ q, Item.price item = JsNumber q) extra →
  ∃ before after,
    memberCost hostFunction this member = Normal before
    ∧ memberCost hostFunction this
        {| Member.id := Member.id member;
           Member.name := Member.name member;
           Member.items := Some (items ++ extra);
           Member.advance := JsNumber q;
           Member.bankInfo := Member.bankInfo member |} = Normal after
    ∧ MemberCost.totalSpent after == MemberCost.totalSpent before
    ∧ MemberCost.itemCount after
      = (MemberCost.itemCount before + length extra)%nat
    ∧ MemberCost.advance after = 0.
Proof.
  intros Hitems Hextra. do 2 eexists.
  split; [apply memberCost_normal|]. split; [apply memberCost_normal|].
  unfold costOf. cbn [Member.items Member.advance MemberCost.totalSpent
                      MemberCost.itemCount MemberCost.advance].
  rewrite Hitems. cbn [default from_option id]. split_and!.
  - apply roundNumber_proper. by apply fold_prices_app.
  - by rewrite length_app.
  - unfold parseValue. by rewrite parseExpression_number.
Qed.

Lemma numbers_count_as_zero_witness :
  ∃ after,
    memberCost ReferenceHost.run constructor
      {| Member.id := "a"; Member.name := "Alice";
         Member.items :=
           Some [ {| Item.name := "beer"; Item.price := JsString "2*25000" |};
                  {| Item.name := "tip"; Item.price := JsNumber 15000 |} ];
         Member.advance := JsNumber 60000;
         Member.bankInfo := None |} = Normal after
    ∧ MemberCost.advance after = 0.
Proof.
  destruct (numbers_count_as_zero ReferenceHost.run constructor alice
              [ {| Item.name := "beer"; Item.price := JsString "2*25000" |} ]
              [ {| Item.name := "tip"; Item.price := JsNumber 15000 |} ] 60000)
    as (before & after & _ & H & _ & _ & Ha).
  - reflexivity.
  - repeat constructor. by eexists.
  - by exists after.
Defined.

(** * isValidExpression *)

Lemma parenthesesLoop_spec s n :
  (0 <= n)%Z →
  match parenthesesLoop n s with
  | Some m =>
      m = (n + occurrences "(" s - occurrences ")" s)%Z
      ∧ ∀ k, (0 <= n + occurrences "(" (firstChars k s)
                     - occurrences ")" (firstChars k s))%Z
  | None =>
      ∃ k, (n + occurrences "(" (firstChars k s)
              - occurrences ")" (firstChars k s) < 0)%Z
  end.
Proof.
  revert n. induction s as [|c s IH]; intros n Hn; simpl.
  - split; [lia|]. intros [|k]; simpl; lia.
  - set (n1 := if Ascii.eqb c "(" then (n + 1)%Z else n).
    set (n2 := if Ascii.eqb c ")" then (n1 - 1)%Z else n1).
    assert (n2 = (n + (if Ascii.eqb c "(" then 1 else 0)
                    - (if Ascii.eqb c ")" then 1 else 0))%Z) as Hn2.
    { unfold n2, n1. destruct (Ascii.eqb c "("), (Ascii.eqb c ")"); lia. }
    destruct (Z.ltb_spec n2 0) as [Hneg|Hpos].
    + exists 1%nat. simpl. lia.
    + specialize (IH n2 Hpos). destruct (parenthesesLoop n2 s) as [m|].
      * destruct IH as [-> IH]. split; [lia|].
        intros [|k]; simpl; [lia|]. specialize (IH k). lia.
      * destruct IH as [k IH]. exists (S k). simpl. lia.
Qed.

(** X5.  [isValidExpression] accepts exactly the non-empty texts made of digits,
    operators, dots, parentheses and blanks whose parentheses are
    balanced. *)
Theorem isValidExpression_balanced expression :
  isValidExpression expression = true
  ↔ validPattern expression = true ∧ balanced expression.
Proof.
  unfold isValidExpression, balanced.
  destruct (validPattern expression); cbn [negb]; [|by split; [|intros []]].
  pose proof (parenthesesLoop_spec expression 0 (Z.le_refl 0)) as H.
  destruct (parenthesesLoop 0 expression) as [m|].
  - destruct H as [-> H]. rewrite Z.eqb_eq. split.
    + intros Hm. split; [done|]. split; [|lia].
      intros n. specialize (H n). lia.
    + intros [_ [_ Heq]]. lia.
  - destruct H as [k H]. split; [done|].
    intros [_ [Hpre _]]. specialize (Hpre k). lia.
Qed.

Lemma isValidExpression_balanced_witness :
  balanced "(2+3)*(4-1)" ∧ ¬ balanced "2+3)*(4".
Proof.
  split.
  - apply (isValidExpression_balanced "(2+3)*(4-1)"). reflexivity.
  - intros H.
    assert (isValidExpression "2+3)*(4" = true) as Hv
      by (apply isValidExpression_balanced; by split).
    discriminate.
Defined.

Lemma roundNumber_within_unit this x :
  Qabs (roundNumber this x - x) <= 1 / factor this.
Proof.
  pose proof (factor_pos this) as Hf.
  assert (0 < 1 / factor this) as Hu by (apply Qlt_shift_div_l; lra).
  pose proof (roundNumber_floor this x) as Hfloor.
  pose proof (roundNumber_ceil this x) as Hceil.
  pose proof (roundNumber_nearest this x) as Hround.
  apply Qabs_Qle_condition.
  destruct (decide (roundingMethod this = "floor")) as [E|Nf].
  { destruct (Hfloor E). split; lra. }
  destruct (decide (roundingMethod this = "ceil")) as [E|Nc].
  { destruct (Hceil E). split; lra. }
  specialize (Hround Nf Nc). apply Qabs_Qle_condition in Hround.
  assert ((1 # 2) / factor this <= 1 / factor this) as Hh.
  { apply Qmult_le_compat_r; [lra|]. apply Qlt_le_weak, Qinv_lt_0_compat. done. }
  split; lra.
Qed.

Lemma roundNumber_0 this : roundNumber this 0 == 0.
Proof. apply roundNumber_fixed, rounded_0. Qed.

Lemma rounded_count this n : rounded this (count n).
Proof.
  exists (Z.of_nat n * 10 ^ Z.of_nat (precision this))%Z.
  pose proof (factor_pos this) as Hf. unfold factor in *.
  rewrite inject_Z_mult. unfold count. field. lra.
Qed.

Lemma rounded_orZero this x : rounded this x → rounded this (orZero x).
Proof. intros H. unfold orZero. destruct (Qeq_bool x 0); [apply rounded_0|done]. Qed.

Lemma parseValue_rounded hostFunction this expression :
  rounded this (parseValue hostFunction this expression).
Proof.
  unfold parseValue, parseExpression, parseExpression_try.
  destruct (negb (truthy expression)); simpl; [apply rounded_0|].
  destruct expression; simpl; try apply rounded_0.
  destruct (isBlank s); simpl; [apply rounded_0|].
  destruct (String.eqb _ ""); simpl; [apply rounded_0|].
  destruct (negb (isValidExpression _)); simpl; [apply rounded_0|].
  unfold evaluateExpression.
  destruct (hostFunction _); simpl; try apply rounded_0.
  apply roundNumber_rounded.
Qed.

Lemma costOf_advance_rounded hostFunction this member :
  rounded this (MemberCost.advance (costOf hostFunction this member)).
Proof. apply rounded_orZero, parseValue_rounded. Qed.

Lemma costPerPerson_rounded this costs :
  rounded this (Totals.costPerPerson (calculateSessionTotals this costs)).
Proof. apply roundNumber_rounded. Qed.

(** * The empty session *)

(** X6.  A session that is absent, has no [members], or has an empty [members]
    array is no error: the result has no member calculations, every total is
    0 and the three lists of the summary are empty. *)
Theorem empty_session_gives_zeros hostFunction this session :
  session = None
  ∨ (∃ s, session = Some s
          ∧ (Session.members s = None ∨ Session.members s = Some [])) →
  ∃ calculations,
    calculateSession hostFunction this session = Normal calculations
    ∧ Calculations.memberCalculations calculations = []
    ∧ (let totals := Calculations.totals calculations in
       Totals.totalCost totals == 0 ∧ Totals.totalAdvance totals == 0
       ∧ Totals.memberCount totals == 0 ∧ Totals.totalItems totals == 0
       ∧ Totals.averageSpent totals == 0 ∧ Totals.costPerPerson totals == 0
       ∧ Totals.remainingBalance totals == 0)
    ∧ (let summary := Calculations.summary calculations in
       Summary.needToPay summary = [] ∧ Summary.getRefund summary = []
       ∧ Summary.even summary = []
       ∧ Summary.totalNeedToPay summary == 0 ∧ Summary.totalRefund summary == 0
       ∧ Summary.balanceCheck summary == 0).
Proof.
  intros H. exists (emptyCalculations this). split.
  { rewrite calculateSession_normal.
    destruct H as [->|(s & -> & [-> | ->])]; reflexivity. }
  split; [done|].
  unfold emptyCalculations, calculateSessionTotals, generateSummary.
  cbn [Calculations.totals Calculations.summary Totals.totalCost
       Totals.totalAdvance Totals.memberCount Totals.totalItems
       Totals.averageSpent Totals.costPerPerson Totals.remainingBalance
       Summary.needToPay Summary.getRefund Summary.even Summary.totalNeedToPay
       Summary.totalRefund Summary.balanceCheck fold_left length].
  rewrite !sumOf_nil. change (count 0) with 0. change (Qlt_bool 0 0) with false.
  cbn iota.
  split_and!; try done; try apply roundNumber_0.
  rewrite (roundNumber_0 this). apply roundNumber_0.
Qed.

Lemma empty_session_gives_zeros_witness :
  ∃ calculations,
    calculateSession ReferenceHost.run constructor
      (Some {| Session.members := Some [] |}) = Normal calculations
    ∧ Calculations.memberCalculations calculations = [].
Proof.
  destruct (empty_session_gives_zeros ReferenceHost.run constructor
              (Some {| Session.members := Some [] |}))
    as (calculations & H & Hm & _).
  - right. eexists. split; [done|]. by right.
  - by exists calculations.
Defined.

(** * Session totals *)

Lemma settle_members hostFunction this members :
  Calculations.memberCalculations (settle hostFunction this members)
  = map (λ member,
           finalize this member
             (Totals.costPerPerson
                (calculateSessionTotals this (map (costOf hostFunction this) members))))
        (map (costOf hostFunction this) members).
Proof. reflexivity. Qed.

Lemma costPerPerson_bound this (costs : list MemberCost.t) :
  rounded this (sumOf MemberCost.totalSpent costs) →
  Qabs (roundNumber this
          (if Qlt_bool 0 (count (length costs))
           then sumOf MemberCost.totalSpent costs / count (length costs)
           else 0)
        * count (length costs)
        - roundNumber this (sumOf MemberCost.totalSpent costs))
  <= count (length costs) / factor this.
Proof.
  intros Rcost.
  rewrite (roundNumber_fixed this (sumOf MemberCost.totalSpent costs)) by done.
  set (T := sumOf MemberCost.totalSpent costs).
  set (n := count (length costs)).
  pose proof (factor_pos this) as Hf.
  destruct (Qlt_bool 0 n) eqn:E.
  - apply Qlt_bool_true in E.
    pose proof (roundNumber_within_unit this (T / n)) as Hr.
    apply Qabs_Qle_condition in Hr. destruct Hr as [H1 H2].
    set (c := roundNumber this (T / n)) in *.
    assert (c * n - T == (c - T / n) * n) as -> by (field; lra).
    assert (n / factor this == (1 / factor this) * n) as -> by (field; lra).
    apply Qabs_Qle_condition. split.
    + assert (- (1 / factor this * n) == (- (1 / factor this)) * n) as -> by ring.
      apply Qmult_le_compat_r; lra.
    + apply Qmult_le_compat_r; lra.
  - apply Qlt_bool_false in E.
    assert (0 <= n) as Hn by (apply (count_le 0); lia).
    assert (n == 0) as Hz by lra.
    assert (T == 0) as HT.
    { unfold T. destruct costs; [reflexivity|].
      unfold n in Hz. cbn [length] in Hz. rewrite count_S in Hz.
      pose proof (count_le 0 (length costs)) as H. unfold count at 1 in H.
      change (inject_Z (Z.of_nat 0)) with 0 in H.
      assert (0 <= count (length costs)) by (apply H; lia). lra. }
    rewrite Hz, HT, roundNumber_0.
    apply Qabs_Qle_condition. unfold Qdiv. split; lra.
Qed.

(** X7.  The totals of a result agree with its member calculations: the member
    count is their number, the total advance and the item total are their
    sums, the remaining balance is the total cost minus the total advance
    with no rounding loss, and the cost per person times the number of
    members misses the total cost by at most one unit of the last decimal
    per member. *)
Theorem totals_agree_with_members hostFunction this session calculations :
  calculateSession hostFunction this session = Normal calculations →
  let totals := Calculations.totals calculations in
  let members := Calculations.memberCalculations calculations in
  Totals.memberCount totals == count (length members)
  ∧ Totals.totalAdvance totals == sumOf MemberCalculation.advance members
  ∧ Totals.totalItems totals
    == sumOf (λ m, count (MemberCalculation.itemCount m)) members
  ∧ Totals.remainingBalance totals
    == Totals.totalCost totals - Totals.totalAdvance totals
  ∧ Totals.averageSpent totals == Totals.costPerPerson totals
  ∧ Qabs (Totals.costPerPerson totals * count (length members)
          - Totals.totalCost totals)
    <= count (length members) / factor this.
Proof.
  destruct (calculateSession_settle hostFunction this session) as [ms ->].
  intros [= <-]. intros totals members.
  set (costs := map (costOf hostFunction this) ms).
  assert (length members = length costs) as Hlen.
  { unfold members. rewrite settle_members. by rewrite length_map. }
  assert (sumOf MemberCalculation.advance members == sumOf MemberCost.advance costs)
    as Hadv.
  { unfold members. rewrite settle_members. by rewrite sumOf_map. }
  assert (sumOf (λ m, count (MemberCalculation.itemCount m)) members
          == sumOf (λ m, count (MemberCost.itemCount m)) costs) as Hitems.
  { unfold members. rewrite settle_members. by rewrite sumOf_map. }
  assert (rounded this (sumOf MemberCost.advance costs)) as Radv.
  { apply sumOf_rounded. intros x [m [-> _]]%list_elem_of_fmap.
    apply costOf_advance_rounded. }
  assert (rounded this (sumOf MemberCost.totalSpent costs)) as Rcost.
  { apply sumOf_rounded. intros x [m [-> _]]%list_elem_of_fmap.
    apply roundNumber_rounded. }
  assert (rounded this (sumOf (λ m, count (MemberCost.itemCount m)) costs)) as Ritems.
  { apply sumOf_rounded. intros x _. apply rounded_count. }
  unfold totals, settle, calculateSessionTotals.
  cbn [Calculations.totals Totals.memberCount Totals.totalAdvance
       Totals.totalItems Totals.remainingBalance Totals.averageSpent
       Totals.costPerPerson Totals.totalCost].
  fold costs. rewrite Hlen, Hadv, Hitems.
  split_and!.
  - apply roundNumber_fixed, rounded_count.
  - by apply roundNumber_fixed.
  - by apply roundNumber_fixed.
  - rewrite (roundNumber_fixed this (_ - _)) by (by apply rounded_minus).
    rewrite (roundNumber_fixed this (sumOf MemberCost.totalSpent costs)) by done.
    by rewrite (roundNumber_fixed this (sumOf MemberCost.advance costs)) by done.
  - reflexivity.
  - by apply costPerPerson_bound.
Qed.

Lemma totals_agree_with_members_witness :
  ∃ calculations,
    calculateSession ReferenceHost.run constructor (scenarioA (JsString "60000"))
      = Normal calculations
    ∧ Totals.remainingBalance (Calculations.totals calculations)
      == Totals.totalCost (Calculations.totals calculations)
         - Totals.totalAdvance (Calculations.totals calculations).
Proof.
  destruct (calculateSession_returns ReferenceHost.run constructor
              (scenarioA (JsString "60000"))) as [calculations H].
  exists calculations. split; [done|].
  by destruct (totals_agree_with_members _ _ _ _ H) as (_ & _ & _ & ? & _).
Defined.

(** * Final amounts *)

Lemma finalize_cases this member amount :
  rounded this amount → rounded this (MemberCost.advance member) →
  let c := finalize this member amount in
  let d := amount - MemberCost.advance member in
  MemberCalculation.amountPerPerson c == amount
  ∧ ((MemberCalculation.status c = even ∧ Qabs d < 1 # 100
      ∧ MemberCalculation.finalAmount c == 0)
     ∨ (MemberCalculation.status c = needs_to_pay ∧ 1 # 100 <= d
        ∧ MemberCalculation.finalAmount c == d)
     ∨ (MemberCalculation.status c = gets_refund ∧ d <= - (1 # 100)
        ∧ MemberCalculation.finalAmount c == - d)).
Proof.
  intros Ra Rb c d. unfold c, finalize.
  cbn [MemberCalculation.amountPerPerson MemberCalculation.status
       MemberCalculation.finalAmount].
  fold d. assert (rounded this d) as Rd by (by apply rounded_minus).
  split; [by apply roundNumber_fixed|]. unfold Math_abs.
  destruct (Qlt_bool (Qabs d) (1 # 100)) eqn:E1; cbn [fst snd].
  - apply Qlt_bool_true in E1. left. split_and!; [done|done|apply roundNumber_0].
  - apply Qlt_bool_false in E1.
    destruct (Qlt_bool 0 d) eqn:E2; cbn [fst snd].
    + apply Qlt_bool_true in E2. right; left.
      rewrite Qabs_pos in E1 by lra.
      split_and!; [done|done|by apply roundNumber_fixed].
    + apply Qlt_bool_false in E2. right; right.
      rewrite Qabs_neg in E1 by lra. rewrite Qabs_neg by lra.
      split_and!; [done|lra|].
      apply roundNumber_fixed.
      apply (rounded_proper this (0 - d)); [ring|].
      apply rounded_minus; [apply rounded_0|done].
Qed.

Lemma cents_below_one_cent d : rounded constructor d → Qabs d < 1 # 100 → d == 0.
Proof.
  intros [z Hz] Hd. change (factor constructor) with 100 in Hz.
  rewrite Hz in Hd |- *.
  assert (z = 0%Z) as ->; [|reflexivity].
  apply Qabs_Qlt_condition in Hd. destruct Hd as [H1 H2].
  assert (-1 < inject_Z z) as H3.
  { apply (Qmult_lt_r _ _ (1 # 100)); [reflexivity|].
    unfold Qdiv in H1. change (/ 100) with (1 # 100) in H1. lra. }
  assert (inject_Z z < 1) as H4.
  { apply (Qmult_lt_r _ _ (1 # 100)); [reflexivity|].
    unfold Qdiv in H2. change (/ 100) with (1 # 100) in H2. lra. }
  change (-1) with (inject_Z (-1)) in H3. change 1 with (inject_Z 1) in H4.
  rewrite <- Zlt_Qlt in H3, H4. lia.
Qed.

(** X8.  With the engine as the program makes it (two decimals, rounding to
    the nearest), every member calculation of a result is classified by
    [costPerPerson - advance]: when that is 0 the member is [even] with final
    amount 0, above a cent the member [needs_to_pay] exactly that difference,
    below minus a cent the member [gets_refund] exactly its opposite; the
    final amount never exceeds the difference.  A difference of exactly one
    cent either way is left out here: there the comparison with 0.01 is
    decided by the last binary digit of the subtraction. *)
Theorem final_amounts_exact hostFunction session calculations :
  calculateSession hostFunction constructor session = Normal calculations →
  Forall (λ c,
            let d := shareLeft (Calculations.totals calculations) c in
            MemberCalculation.amountPerPerson c
              == Totals.costPerPerson (Calculations.totals calculations)
            ∧ (Qabs d < 1 # 100 →
               d == 0 ∧ MemberCalculation.status c = even
               ∧ MemberCalculation.finalAmount c == 0)
            ∧ (1 # 100 < d →
               MemberCalculation.status c = needs_to_pay
               ∧ MemberCalculation.finalAmount c == d)
            ∧ (d < - (1 # 100) →
               MemberCalculation.status c = gets_refund
               ∧ MemberCalculation.finalAmount c == - d)
            ∧ 0 <= MemberCalculation.finalAmount c <= Qabs d)
         (Calculations.memberCalculations calculations).
Proof.
  destruct (calculateSession_settle hostFunction constructor session) as [ms ->].
  intros [= <-]. rewrite settle_members.
  apply Forall_fmap, Forall_fmap, Forall_forall. intros member _.
  set (share := Totals.costPerPerson _).
  assert (rounded constructor share) as Rs by apply costPerPerson_rounded.
  pose proof (costOf_advance_rounded hostFunction constructor member) as Ra.
  destruct (finalize_cases constructor (costOf hostFunction constructor member)
              share Rs Ra) as [Hshare Hcases].
  unfold compose. cbn beta zeta. unfold shareLeft. fold share.
  change (MemberCalculation.advance
            (finalize constructor (costOf hostFunction constructor member) share))
    with (MemberCost.advance (costOf hostFunction constructor member)).
  set (c := finalize constructor (costOf hostFunction constructor member) share) in *.
  set (d := share - MemberCost.advance (costOf hostFunction constructor member)) in *.
  assert (rounded constructor d) as Rd by (by apply rounded_minus).
  split; [done|]. clearbody d c share.
  destruct Hcases as [(Hst & Hd & Hf)|[(Hst & Hd & Hf)|(Hst & Hd & Hf)]].
  - pose proof (cents_below_one_cent d Rd Hd) as Hz. split_and!.
    + intros _. split_and!; [exact Hz|exact Hst|exact Hf].
    + intros Hgt. exfalso. lra.
    + intros Hlt. exfalso. lra.
    + lra.
    + pose proof (Qabs_nonneg d). lra.
  - assert (Qabs d == d) as Habs by (apply Qabs_pos; lra). split_and!.
    + intros Hsmall. exfalso. lra.
    + intros _. split; [exact Hst|exact Hf].
    + intros Hlt. exfalso. lra.
    + lra.
    + lra.
  - assert (Qabs d == - d) as Habs by (apply Qabs_neg; lra). split_and!.
    + intros Hsmall. exfalso. lra.
    + intros Hgt. exfalso. lra.
    + intros _. split; [exact Hst|exact Hf].
    + lra.
    + lra.
Qed.

Lemma final_amounts_exact_witness :
  ∃ calculations,
    calculateSession ReferenceHost.run constructor (scenarioA (JsString "60000"))
      = Normal calculations
    ∧ Forall (λ c, MemberCalculation.amountPerPerson c == 25000)
             (Calculations.memberCalculations calculations).
Proof.
  destruct (calculateSession_returns ReferenceHost.run constructor
              (scenarioA (JsString "60000"))) as [calculations H].
  exists calculations. split; [done|].
  eapply Forall_impl; [exact (final_amounts_exact _ _ _ H)|].
  intros c [Hc _]. rewrite Hc.
  vm_compute in H. injection H as <-. by vm_compute.
Defined.

(** * The summary *)

Lemma summarize_fold l acc :
  let s := fold_left summarize l acc in
  Summary.needToPay s
    = Summary.needToPay acc ++ map entryOf (withStatus needs_to_pay l)
  ∧ Summary.getRefund s
    = Summary.getRefund acc ++ map entryOf (withStatus gets_refund l)
  ∧ Summary.even s
    = Summary.even acc
      ++ map (λ m, Entry.mk (MemberCalculation.name m) 0) (withStatus even l)
  ∧ Summary.totalNeedToPay s
    == Summary.totalNeedToPay acc
       + sumOf MemberCalculation.finalAmount (withStatus needs_to_pay l)
  ∧ Summary.totalRefund s
    == Summary.totalRefund acc
       + sumOf MemberCalculation.finalAmount (withStatus gets_refund l).
Proof.
  revert acc. induction l as [|m l IH]; intros acc; cbn [fold_left].
  - unfold withStatus. rewrite !filter_nil. cbn [map]. rewrite !app_nil_r, !sumOf_nil.
    split_and!; try done; ring.
  - destruct (IH (summarize acc m)) as (H1 & H2 & H3 & H4 & H5).
    cbv zeta. rewrite H1, H2, H3, H4, H5. clear IH H1 H2 H3 H4 H5.
    unfold withStatus. rewrite !filter_cons. unfold summarize.
    destruct (MemberCalculation.status m) eqn:E;
      repeat (destruct (decide _) as [?|?]; try congruence);
      cbn [Summary.needToPay Summary.getRefund Summary.even
           Summary.totalNeedToPay Summary.totalRefund map];
      rewrite <- ?app_assoc; cbn [app]; rewrite ?sumOf_cons;
      split_and!; try done; ring.
Qed.

Lemma withStatus_lengths (l : list MemberCalculation.t) :
  (length (withStatus needs_to_pay l) + length (withStatus gets_refund l)
   + length (withStatus even l) = length l)%nat.
Proof.
  unfold withStatus. induction l as [|m l IH]; [done|].
  rewrite !filter_cons.
  destruct (MemberCalculation.status m);
    repeat (destruct (decide _) as [?|?]; try congruence);
    cbn [length]; lia.
Qed.

(** X9.  The summary sorts every member into exactly one of its three lists, in
    the order of the members, with the member's final amount (0 for an even
    member); the two totals are the rounded sums of the final amounts of the
    members who pay and of those who get money back, and the balance check is
    their rounded difference. *)
Theorem summary_partitions_members this memberCalculations totals :
  let summary := generateSummary this memberCalculations totals in
  Summary.needToPay summary
    = map entryOf (withStatus needs_to_pay memberCalculations)
  ∧ Summary.getRefund summary
    = map entryOf (withStatus gets_refund memberCalculations)
  ∧ Summary.even summary
    = map (λ m, Entry.mk (MemberCalculation.name m) 0)
          (withStatus even memberCalculations)
  ∧ (length (Summary.needToPay summary) + length (Summary.getRefund summary)
     + length (Summary.even summary) = length memberCalculations)%nat
  ∧ Summary.totalNeedToPay summary
    == roundNumber this
         (sumOf MemberCalculation.finalAmount
            (withStatus needs_to_pay memberCalculations))
  ∧ Summary.totalRefund summary
    == roundNumber this
         (sumOf MemberCalculation.finalAmount
            (withStatus gets_refund memberCalculations))
  ∧ Summary.balanceCheck summary
    == roundNumber this
         (Summary.totalNeedToPay summary - Summary.totalRefund summary).
Proof.
  intros summary. unfold summary, generateSummary.
  set (start := {| Summary.needToPay := []; Summary.getRefund := [];
                   Summary.even := []; Summary.totalNeedToPay := 0;
                   Summary.totalRefund := 0; Summary.balanceCheck := 0 |}).
  destruct (summarize_fold memberCalculations start) as (H1 & H2 & H3 & H4 & H5).
  cbn [Summary.needToPay Summary.getRefund Summary.even Summary.totalNeedToPay
       Summary.totalRefund Summary.balanceCheck].
  rewrite H1, H2, H3. cbn [start Summary.needToPay Summary.getRefund Summary.even app].
  split_and!; try done.
  - rewrite !length_map. apply withStatus_lengths.
  - apply roundNumber_proper. rewrite H4. cbn [start Summary.totalNeedToPay]. ring.
  - apply roundNumber_proper. rewrite H5. cbn [start Summary.totalRefund]. ring.
Qed.

(** * validateCalculations *)

Lemma sumOf_withStatus (f : MemberCalculation.t → Q) status l :
  sumOf f (withStatus status l)
  == sumOf (λ m, if decide (MemberCalculation.status m = status) then f m else 0) l.
Proof.
  unfold withStatus. induction l as [|m l IH]; [reflexivity|].
  rewrite filter_cons, sumOf_cons.
  destruct (decide (MemberCalculation.status m = status)).
  - rewrite sumOf_cons, IH. reflexivity.
  - rewrite IH. ring.
Qed.

Lemma sumOf_plus {A} (f g : A → Q) l :
  sumOf (λ x, f x + g x) l == sumOf f l + sumOf g l.
Proof.
  induction l as [|x l IH].
  - rewrite !sumOf_nil. ring.
  - rewrite !sumOf_cons, IH. ring.
Qed.

Lemma sumOf_const {A} (k : Q) (l : list A) :
  sumOf (λ _, k) l == count (length l) * k.
Proof.
  induction l as [|x l IH].
  - rewrite sumOf_nil. change (count (length [])) with 0. ring.
  - rewrite sumOf_cons, IH. cbn [length]. rewrite count_S. ring.
Qed.

(** X10.  What [validateCalculations] compares.  In a result, the advances
    plus the amounts still to pay come to the cost per person times the
    number of members, plus all refunds, minus what the members counted as
    even were let off.  The check passes when that is less than 0.01 from
    the total cost and fails when it is more than 0.01 from it (at exactly
    0.01 the last binary digit decides); so it fails as soon as the refunds
    exceed 0.01 plus two cents per member. *)
Theorem validation_counts_refunds hostFunction session calculations :
  calculateSession hostFunction constructor session = Normal calculations →
  let members := Calculations.memberCalculations calculations in
  let totals := Calculations.totals calculations in
  let refunds :=
    sumOf MemberCalculation.finalAmount (withStatus gets_refund members) in
  let letOff := sumOf (shareLeft totals) (withStatus even members) in
  let compared :=
    count (length members) * Totals.costPerPerson totals + refunds - letOff in
  sumOf MemberCalculation.advance members
  + sumOf MemberCalculation.finalAmount (withStatus needs_to_pay members)
  == compared
  ∧ (Qabs (compared - Totals.totalCost totals) < 1 # 100 →
     validateCalculations members totals = true)
  ∧ (1 # 100 < Qabs (compared - Totals.totalCost totals) →
     validateCalculations members totals = false)
  ∧ ((1 # 100) + count (length members) * (2 # 100) < refunds →
     validateCalculations members totals = false).
Proof.
  intros Hcalc members totals refunds letOff compared.
  destruct (calculateSession_settle hostFunction constructor session) as [ms Hms].
  rewrite Hms in Hcalc. injection Hcalc as <-.
  set (costs := map (costOf hostFunction constructor) ms).
  assert (Forall (λ x, rounded constructor (MemberCost.totalSpent x)) costs) as Rspent.
  { apply Forall_fmap, Forall_forall. intros m _. apply roundNumber_rounded. }
  assert (Qabs (Totals.costPerPerson totals * count (length members)
                - Totals.totalCost totals)
          <= count (length members) / factor constructor) as Hcpp.
  { unfold members, totals. rewrite settle_members, length_map. fold costs.
    apply (costPerPerson_bound constructor costs).
    apply sumOf_rounded. intros x Hx. by eapply Forall_forall in Rspent. }
  assert (Forall (λ m,
            let d := shareLeft totals m in
            (MemberCalculation.status m = even ∧ Qabs d < 1 # 100)
            ∨ (MemberCalculation.status m = needs_to_pay
               ∧ MemberCalculation.finalAmount m == d)
            ∨ (MemberCalculation.status m = gets_refund
               ∧ MemberCalculation.finalAmount m == - d)) members) as Hfinal.
  { unfold members, totals. rewrite settle_members.
    apply Forall_fmap, Forall_fmap, Forall_forall. intros member _.
    destruct (finalize_cases constructor (costOf hostFunction constructor member)
                (Totals.costPerPerson
                   (calculateSessionTotals constructor costs)))
      as [_ [(? & ? & _)|[(? & _ & ?)|(? & _ & ?)]]];
      [apply costPerPerson_rounded|apply costOf_advance_rounded| | |]; cbv zeta; auto. }
  assert (Forall (λ c, rounded constructor (shareLeft totals c)) members) as Hround.
  { unfold members, totals. rewrite settle_members.
    apply Forall_fmap, Forall_fmap, Forall_forall. intros member _.
    unfold shareLeft. apply rounded_minus.
    - apply costPerPerson_rounded.
    - apply costOf_advance_rounded. }
  set (c := Totals.costPerPerson totals) in *.
  assert (sumOf MemberCalculation.advance members
          + sumOf MemberCalculation.finalAmount (withStatus needs_to_pay members)
          == count (length members) * c + refunds) as Hsum0.
  { unfold refunds. rewrite !sumOf_withStatus, <- sumOf_plus.
    rewrite <- (sumOf_const c members), <- sumOf_plus.
    apply sumOf_ext. intros m Hm.
    pose proof (proj1 (Forall_forall _ _) Hfinal m Hm) as Hm'.
    pose proof (proj1 (Forall_forall _ _) Hround m Hm) as Hr.
    unfold shareLeft in Hm', Hr. fold c in Hm', Hr. cbv zeta in Hm'.
    destruct Hm' as [(-> & Hd)|[(-> & Hf)|(-> & Hf)]];
      repeat (destruct (decide _) as [?|?]; try congruence).
    - pose proof (cents_below_one_cent _ Hr Hd). lra.
    - lra.
    - lra. }
  assert (letOff == 0) as Hzero.
  { unfold letOff. rewrite sumOf_withStatus.
    rewrite (sumOf_ext _ (λ _, 0)).
    - rewrite sumOf_const. ring.
    - intros m Hm. destruct (decide _) as [He|]; [|reflexivity].
      pose proof (proj1 (Forall_forall _ _) Hfinal m Hm) as Hm'.
      pose proof (proj1 (Forall_forall _ _) Hround m Hm) as Hr.
      cbv zeta in Hm'. destruct Hm' as [(_ & Hd)|[(? & _)|(? & _)]];
        [|congruence..].
      by apply cents_below_one_cent. }
  assert (sumOf MemberCalculation.advance members
          + sumOf MemberCalculation.finalAmount (withStatus needs_to_pay members)
          == compared) as Hsum.
  { rewrite Hsum0. unfold compared. fold c. lra. }
  split; [exact Hsum|].
  assert (validateCalculations members totals = true
          ↔ Qabs (compared - Totals.totalCost totals) <= 1 # 100) as Hiff.
  { unfold validateCalculations, Math_abs. rewrite Qle_bool_iff.
    by rewrite Hsum. }
  split_and!.
  - intros Hlt. apply Hiff. lra.
  - intros Hgt. apply not_true_iff_false. rewrite Hiff. lra.
  - intros Hbig. apply not_true_iff_false. rewrite Hiff.
    change (factor constructor) with 100 in Hcpp.
    apply Qabs_Qle_condition in Hcpp. destruct Hcpp as [H1 H2].
    intros Hle. apply Qabs_Qle_condition in Hle. destruct Hle as [H3 H4].
    unfold compared in H3, H4. fold c in H1, H2.
    assert (0 <= count (length members)) as Hn.
    { unfold count. change 0 with (inject_Z 0). rewrite <- Zle_Qle. lia. }
    unfold Qdiv in H1, H2. change (/ 100) with (1 # 100) in H1, H2. lra.
Qed.

Lemma validation_counts_refunds_witness :
  ∃ calculations,
    calculateSession ReferenceHost.run constructor (scenarioA (JsString "60000"))
      = Normal calculations
    ∧ validateCalculations (Calculations.memberCalculations calculations)
        (Calculations.totals calculations) = false.
Proof.
  destruct (calculateSession_returns ReferenceHost.run constructor
              (scenarioA (JsString "60000"))) as [calculations H].
  exists calculations. split; [done|].
  destruct (validation_counts_refunds _ _ _ H) as (_ & _ & _ & Hfails).
  apply Hfails.
  vm_compute in H. injection H as <-. by vm_compute.
Defined.

(** * Custom split: totals *)

(** X11.  The percentages of a custom split only decide the shares.  When they
    sum to 100 within less than 0.01 and no member id finds an inherited
    value in them, the call returns, the totals are those of
    [calculateSession] on the same session, the members come in the same
    order with the same id, name, advance and total spent, and each
    [amountPerPerson] is a number within one unit of the precision of the
    member's percentage of the total cost, 0 percent for an id without a
    percentage. *)
Theorem customSplit_keeps_totals hostFunction this s members percentages :
  Session.members s = Some members →
  Qabs (totalPercentage percentages - 100) < 1 # 100 →
  ownPercentages percentages members →
  ∃ custom equal,
    WithNaN.calculateCustomSplit hostFunction this (Some s) (Some percentages)
      = Normal custom
    ∧ calculateSession hostFunction this (Some s) = Normal equal
    ∧ WithNaN.Calculations.totals custom = Calculations.totals equal
    ∧ Forall2 (λ c e,
                 WithNaN.MemberCalculation.id c = MemberCalculation.id e
                 ∧ WithNaN.MemberCalculation.name c = MemberCalculation.name e
                 ∧ WithNaN.MemberCalculation.advance c
                   = MemberCalculation.advance e
                 ∧ WithNaN.MemberCalculation.totalSpent c
                   = MemberCalculation.totalSpent e
                 ∧ ∃ amountPerPerson,
                     WithNaN.MemberCalculation.amountPerPerson c
                       = Num amountPerPerson
                     ∧ Qabs (amountPerPerson
                             - Totals.totalCost (Calculations.totals equal)
                               * default 0 (percentages
                                              !! WithNaN.MemberCalculation.id c)
                               / 100)
                       <= 1 / factor this)
              (WithNaN.Calculations.memberCalculations custom)
              (Calculations.memberCalculations equal).
Proof.
  intros Hm Hp Hown.
  exists (ofCalculations (splitBy hostFunction this members percentages)),
    (settle hostFunction this members).
  split; [apply calculateCustomSplit_of; [done|done|by apply Qlt_le_weak]|].
  split.
  { rewrite calculateSession_normal, Hm. by destruct members. }
  split; [reflexivity|].
  unfold splitBy, settle, calculateFinalAmounts, ofCalculations.
  cbn [Calculations.memberCalculations Calculations.totals
       WithNaN.Calculations.memberCalculations].
  rewrite <- !list_fmap_compose.
  apply Forall2_fmap, Forall_Forall2_diag, Forall_forall. intros member _.
  unfold compose.
  cbn [ofMemberCalculation finalize costOf
       WithNaN.MemberCalculation.id WithNaN.MemberCalculation.name
       WithNaN.MemberCalculation.advance WithNaN.MemberCalculation.totalSpent
       WithNaN.MemberCalculation.amountPerPerson
       MemberCalculation.id MemberCalculation.name MemberCalculation.advance
       MemberCalculation.totalSpent MemberCalculation.amountPerPerson
       MemberCost.id MemberCost.name MemberCost.advance MemberCost.totalSpent].
  split_and!; [done..|].
  eexists. split; [reflexivity|].
  set (T := Totals.totalCost _).
  assert (T * percentageOf percentages (Member.id member) / 100
          == T * default 0 (percentages !! Member.id member) / 100) as Hshare.
  { unfold percentageOf. by rewrite orZero_eq. }
  rewrite <- Hshare. apply roundNumber_within_unit.
Qed.

Lemma customSplit_keeps_totals_witness :
  ∃ custom equal,
    WithNaN.calculateCustomSplit ReferenceHost.run constructor
      (Some {| Session.members := Some pairMembers |}) (Some pairPercentages)
      = Normal custom
    ∧ calculateSession ReferenceHost.run constructor
        (Some {| Session.members := Some pairMembers |}) = Normal equal
    ∧ WithNaN.Calculations.totals custom = Calculations.totals equal.
Proof.
  destruct (customSplit_keeps_totals ReferenceHost.run constructor
              {| Session.members := Some pairMembers |} pairMembers pairPercentages)
    as (custom & equal & H1 & H2 & H3 & _).
  - reflexivity.
  - by vm_compute.
  - unfold ownPercentages, pairMembers.
    repeat (constructor; [intros _; eexists; vm_compute; reflexivity|]).
    constructor.
  - by exists custom, equal.
Defined.

(** * Payment suggestions *)

Lemma entries_names status calculations e :
  e ∈ entries status (Calculations.memberCalculations calculations) →
  Entry.name e ∈ namesWith status calculations.
Proof.
  rewrite entries_Permutation. intros (m & -> & Hm)%list_elem_of_fmap.
  unfold namesWith. apply list_elem_of_fmap. by exists m.
Qed.

Lemma whileLoop_suggestions this fuel st iterations final :
  whileLoop this fuel st = Some (iterations, final) →
  (length (Matching.suggestions final)
   ≤ length (Matching.suggestions st) + iterations)%nat.
Proof.
  revert st iterations. induction fuel as [|fuel IH]; intros st n; simpl;
    destruct (loopCondition st) eqn:Hc; try done.
  - intros [= <- <-]. lia.
  - destruct (whileLoop this fuel (loopBody this st)) as [[n' final']|] eqn:Hw;
      simpl; [|done].
    intros [= <- <-]. apply IH in Hw.
    assert (length (Matching.suggestions (loopBody this st))
            ≤ S (length (Matching.suggestions st)))%nat; [|lia].
    unfold loopBody. destruct (_ !! _); [|simpl; lia].
    destruct (_ !! _); [|simpl; lia]. simpl.
    destruct (Qlt_bool _ _); [rewrite length_app; simpl|]; lia.
  - intros [= <- <-]. lia.
Qed.

(** X12.  Every suggestion goes from a member who needs to pay to a member who
    gets a refund, is of 0.01 or more and is a rounded amount; and there are
    fewer suggestions than payers and receivers together.  The transfer is
    more than 0.01 before it is rounded for the suggestion. *)
Theorem suggestions_are_proper this calculations :
  settled this calculations →
  Forall (properSuggestion this calculations)
         (generatePaymentSuggestions this calculations)
  ∧ (length (generatePaymentSuggestions this calculations)
     ≤ length (namesWith needs_to_pay calculations)
       + length (namesWith gets_refund calculations) - 1)%nat.
Proof.
  intros Hs.
  destruct (runMatching_returns this calculations)
    as (n & final & Hrun & _ & Hz & Hn).
  unfold generatePaymentSuggestions. rewrite Hrun.
  set (owed := sumOf MemberCalculation.finalAmount
                 (withStatus needs_to_pay (Calculations.memberCalculations calculations))).
  set (due := sumOf MemberCalculation.finalAmount
                (withStatus gets_refund (Calculations.memberCalculations calculations))).
  set (I := λ st : Matching.t,
         invariant this owed due st
         ∧ map Entry.name (Matching.needToPay st)
           = map Entry.name (Matching.needToPay (initialMatching calculations))
         ∧ map Entry.name (Matching.getRefund st)
           = map Entry.name (Matching.getRefund (initialMatching calculations))
         ∧ Forall (properSuggestion this calculations) (Matching.suggestions st)).
  assert (I final) as (_ & _ & _ & Hfinal).
  { apply (whileLoop_invariant this I) with
      (fuel := enoughFuel (initialMatching calculations))
      (st := initialMatching calculations) (iterations := n); [|exact Hrun|].
    - intros st Hc (Hinv & Hp & Hr & Hsug).
      split; [by apply loopBody_invariant|].
      destruct (loopCondition_lookup st Hc) as (payer & receiver & Lp & Lr).
      unfold loopBody. rewrite Lp, Lr.
      cbn [Matching.needToPay Matching.getRefund Matching.suggestions].
      rewrite !setAmount_names by done. split_and!; [done|done|].
      destruct (Qlt_bool (1 # 100) _) eqn:E; [|done].
      apply Qlt_bool_true in E. apply Forall_app. split; [done|].
      constructor; [|constructor].
      destruct Hinv as [I1 I2 _ _ _ _].
      pose proof (Forall_lookup_1 _ _ _ _ I1 Lp) as [_ Rp].
      pose proof (Forall_lookup_1 _ _ _ _ I2 Lr) as [_ Rr].
      assert (rounded this (Math_min (Entry.amount payer) (Entry.amount receiver)))
        as Rt by (by apply rounded_min).
      unfold properSuggestion.
      cbn [Suggestion.amount Suggestion.from Suggestion.to].
      split_and!.
      + rewrite roundNumber_fixed by done. by apply Qlt_le_weak.
      + apply roundNumber_rounded.
      + assert (Entry.name payer ∈ map Entry.name (Matching.needToPay st)) as Hin.
        { apply list_elem_of_fmap. exists payer. split; [done|].
          by eapply list_elem_of_lookup_2. }
        rewrite Hp in Hin. apply list_elem_of_fmap in Hin as (e & -> & He).
        by apply entries_names.
      + assert (Entry.name receiver ∈ map Entry.name (Matching.getRefund st)) as Hin.
        { apply list_elem_of_fmap. exists receiver. split; [done|].
          by eapply list_elem_of_lookup_2. }
        rewrite Hr in Hin. apply list_elem_of_fmap in Hin as (e & -> & He).
        by apply entries_names.
    - split_and!; [by apply initial_invariant|done|done|constructor]. }
  split; [done|].
  pose proof (whileLoop_suggestions this _ _ _ _ Hrun) as Hlen.
  cbn [initialMatching Matching.suggestions length] in Hlen.
  assert (length (namesWith needs_to_pay calculations)
          = length (Matching.needToPay (initialMatching calculations))) as ->.
  { unfold namesWith. cbn [initialMatching Matching.needToPay].
    rewrite (Permutation_length (entries_Permutation _ _)).
    by rewrite !length_map. }
  assert (length (namesWith gets_refund calculations)
          = length (Matching.getRefund (initialMatching calculations))) as ->.
  { unfold namesWith. cbn [initialMatching Matching.getRefund].
    rewrite (Permutation_length (entries_Permutation _ _)).
    by rewrite !length_map. }
  destruct (loopCondition (initialMatching calculations)) eqn:E.
  - specialize (Hn eq_refl). unfold remaining in Hn.
    cbn [initialMatching Matching.payIndex Matching.refundIndex] in Hn. lia.
  - rewrite (Hz eq_refl) in Hlen. lia.
Qed.

Lemma suggestions_are_proper_witness :
  Forall (properSuggestion constructor
            (settle ReferenceHost.run constructor [alice; bob (JsString "60000")]))
         (generatePaymentSuggestions constructor
            (settle ReferenceHost.run constructor [alice; bob (JsString "60000")])).
Proof.
  apply suggestions_are_proper, settle_settled.
Defined.

Lemma loopBody_imbalance this st :
  loopCondition st = true → imbalance (loopBody this st) == imbalance st.
Proof.
  intros (payer & receiver & Lp & Lr)%loopCondition_lookup.
  unfold imbalance, loopBody. rewrite Lp, Lr.
  cbn [Matching.needToPay Matching.getRefund].
  rewrite (sumOf_insert _ _ _ _ _ Lp), (sumOf_insert _ _ _ _ _ Lr).
  cbn [setAmount Entry.amount]. ring.
Qed.

Lemma small_sum (l : list Entry.t) :
  small l → sumOf Entry.amount l <= (1 # 100) * count (length l).
Proof.
  induction 1 as [|e l He _ IH].
  - rewrite sumOf_nil. change (count (length [])) with 0. lra.
  - rewrite sumOf_cons. cbn [length]. rewrite count_S. lra.
Qed.

(** X13.  The loop takes the same amount from a payer and from a receiver in every
    iteration, so what is owed minus what is due stays what it was.  When the
    two totals of a settlement result are equal, what is left on either side
    when the loop ends is therefore the same, and at most 0.01 per payer or
    at most 0.01 per receiver. *)
Theorem matching_keeps_imbalance this calculations :
  ∃ iterations final,
    runMatching this calculations = Some (iterations, final)
    ∧ imbalance final == imbalance (initialMatching calculations)
    ∧ (settled this calculations →
       imbalance (initialMatching calculations) == 0 →
       let left := sumOf Entry.amount (Matching.needToPay final) in
       left == sumOf Entry.amount (Matching.getRefund final)
       ∧ (left <= (1 # 100) * count (length (Matching.needToPay final))
          ∨ left <= (1 # 100) * count (length (Matching.getRefund final)))).
Proof.
  destruct (runMatching_returns this calculations) as (n & final & Hrun & Hc & _).
  exists n, final. split; [done|].
  assert (imbalance final == imbalance (initialMatching calculations)) as Him.
  { apply (whileLoop_invariant this
             (λ st, imbalance st == imbalance (initialMatching calculations)))
      with (fuel := enoughFuel (initialMatching calculations))
           (st := initialMatching calculations) (iterations := n);
      [|exact Hrun|reflexivity].
    intros st Hcond H. by rewrite loopBody_imbalance. }
  split; [done|].
  intros Hs Hzero left.
  rewrite Hzero in Him. unfold imbalance in Him.
  assert (left == sumOf Entry.amount (Matching.getRefund final)) as Heq
    by (unfold left; lra).
  split; [done|].
  pose proof (whileLoop_invariant this _ (loopBody_invariant this _ _) _ _ _ _
                Hrun (initial_invariant this calculations Hs))
    as [_ _ _ _ I5 I6].
  apply not_true_iff_false in Hc. rewrite loopCondition_true in Hc.
  destruct (decide (Matching.payIndex final < length (Matching.needToPay final))%nat).
  - right. rewrite take_ge in I6 by lia. rewrite Heq. by apply small_sum.
  - left. rewrite take_ge in I5 by lia. by apply small_sum.
Qed.

Lemma matching_keeps_imbalance_witness :
  ∃ iterations final,
    runMatching constructor
      (splitBy ReferenceHost.run constructor
         [alice; bob (JsString "50000")] {[ "a" := 40; "b" := 60 ]})
    = Some (iterations, final)
    ∧ sumOf Entry.amount (Matching.needToPay final)
      == sumOf Entry.amount (Matching.getRefund final).
Proof.
  destruct (matching_keeps_imbalance constructor
              (splitBy ReferenceHost.run constructor
                 [alice; bob (JsString "50000")] {[ "a" := 40; "b" := 60 ]}))
    as (n & final & Hrun & _ & H).
  exists n, final. split; [done|].
  apply H.
  - apply splitBy_settled.
  - by vm_compute.
Defined.

(** * The tip: the copy and its items *)

Lemma fresh_lookup (h : store) : h !! fresh (dom h) = None.
Proof. apply not_elem_of_dom, is_fresh. Qed.

Lemma fresh_subseteq (h : store) o : h ⊆ <[fresh (dom h) := o]> h.
Proof. apply insert_subseteq, fresh_lookup. Qed.

Lemma omap_cons_eq {A B} (f : A → option B) x (l : list A) :
  omap f (x :: l)
  = match f x with Some y => y :: omap f l | None => omap f l end.
Proof. done. Qed.

Lemma omap_ext_in {A B} (f g : A → option B) (l : list A) :
  (∀ x, x ∈ l → f x = g x) → omap f l = omap g l.
Proof.
  induction l as [|x l IH]; intros H; [done|].
  rewrite !omap_cons_eq, (H x), IH; [done| |by left].
  intros y Hy. apply H. by right.
Qed.

Lemma Forall2_lookup_l_in {A B} (P : A → B → Prop) (l : list A) k x :
  Forall2 P l k → x ∈ l → ∃ y, P x y.
Proof.
  intros H Hx. apply list_elem_of_lookup in Hx as [i Hi].
  destruct (Forall2_lookup_l _ _ _ _ _ H Hi) as (y & _ & Hy). by exists y.
Qed.

Lemma itemsLocOf_weaken (h h' : store) l o :
  h ⊆ h' → h !! l = Some o → itemsLocOf h' l = itemsLocOf h l.
Proof.
  intros Hsub Hl. unfold itemsLocOf.
  by rewrite Hl, (lookup_weaken _ _ _ _ Hl Hsub).
Qed.

Lemma itemsLocOf_insert (h : store) k o l :
  l ≠ k → itemsLocOf (<[k := o]> h) l = itemsLocOf h l.
Proof. intros Hne. unfold itemsLocOf. by rewrite lookup_insert_ne. Qed.

Lemma readMember_lookup h l member :
  readMember h l = Some member →
  ∃ items,
    h !! l = Some (MemberObject (Member.id member) (Member.name member) items
                                (Member.advance member) (Member.bankInfo member))
    ∧ readOptional (readArray readItem) h items = Some (Member.items member).
Proof.
  unfold readMember. destruct (h !! l) as [[| |id name items advance bank|]|]; try done.
  destruct (readOptional _ h items) as [its|] eqn:E; [|done].
  intros [= <-]. by exists items.
Qed.

Lemma readArray_lookup {A} (read : store → loc → option A) h l xs :
  readArray read h l = Some xs →
  ∃ elements, h !! l = Some (ArrayObject elements)
              ∧ mapM (read h) elements = Some xs.
Proof.
  unfold readArray. destruct (h !! l) as [[|elements| |]|]; try done.
  intros H. by exists elements.
Qed.

(** ** The copy made by [JSON.parse(JSON.stringify(session))] *)

Lemma parseItems_read items h :
  ∃ h' ls, mapHeap parseItem items h = (h', Normal ls)
           ∧ h ⊆ h' ∧ mapM (readItem h') ls = Some items.
Proof.
  revert h. induction items as [|item items IH]; intros h.
  - by exists h, [].
  - destruct (IH (<[fresh (dom h) := ItemObject (Item.name item) (Item.price item)]> h))
      as (h' & ls & Hrun & Hsub & Hread).
    exists h', (fresh (dom h) :: ls).
    cbn [mapHeap]. unfold bindHeap at 1. unfold parseItem at 1, allocate.
    unfold bindHeap at 1. rewrite Hrun. split; [done|].
    pose proof (fresh_subseteq h (ItemObject (Item.name item) (Item.price item))) as Hs.
    split; [by etrans|].
    rewrite mapM_Some. constructor; [|by apply mapM_Some].
    unfold readItem. erewrite lookup_weaken; [|apply lookup_insert_eq|done].
    by destruct item.
Qed.

Lemma parseMember_read member h :
  ∃ h' l, parseMember member h = (h', Normal l)
          ∧ h ⊆ h' ∧ h !! l = None ∧ readMember h' l = Some member
          ∧ ∀ array, itemsLocOf h' l = Some array →
                     h !! array = None ∧ is_Some (h' !! array).
Proof.
  unfold parseMember. destruct member as [id name items advance bank].
  cbn [Member.items Member.id Member.name Member.advance Member.bankInfo].
  destruct items as [items|]; cbn [parseOptional].
  - destruct (parseItems_read items h) as (h1 & ls & Hrun & Hsub & Hread).
    unfold parseArray, bindHeap. rewrite Hrun. unfold allocate, retHeap.
    set (array := fresh (dom h1)).
    set (h2 := <[array := ArrayObject ls]> h1).
    set (l := fresh (dom h2)).
    assert (h1 ⊆ h2) as H12 by apply fresh_subseteq.
    assert (h2 !! array = Some (ArrayObject ls)) as Harray
      by apply lookup_insert_eq.
    eexists _, l. split; [done|].
    pose proof (fresh_subseteq h2 (MemberObject id name (Some array) advance bank)) as H23.
    fold l in H23. split_and!.
    + by do 2 (etrans; [done|]).
    + eapply lookup_weaken_None; [apply fresh_lookup|]. by etrans.
    + unfold readMember. rewrite lookup_insert_eq. cbn [readOptional].
      unfold readArray. rewrite (lookup_weaken _ _ _ _ Harray H23).
      erewrite mapM_weaken; [done| |exact Hread].
      intros l' x. apply readItem_weaken. by etrans.
    + intros a. unfold itemsLocOf. rewrite lookup_insert_eq. intros [= <-].
      split.
      * eapply lookup_weaken_None; [apply fresh_lookup|done].
      * exists (ArrayObject ls). by apply (lookup_weaken _ _ _ _ Harray).
  - unfold bindHeap, retHeap, allocate. eexists _, _. split; [done|].
    split_and!.
    + apply fresh_subseteq.
    + apply fresh_lookup.
    + unfold readMember. by rewrite lookup_insert_eq.
    + intros a. unfold itemsLocOf. by rewrite lookup_insert_eq.
Qed.

Lemma parseMembers_read members h :
  ∃ h' ls, mapHeap parseMember members h = (h', Normal ls)
           ∧ h ⊆ h'
           ∧ Forall2 (λ l member, readMember h' l = Some member) ls members
           ∧ NoDup ls ∧ Forall (λ l, h !! l = None) ls
           ∧ NoDup (omap (itemsLocOf h') ls)
           ∧ Forall (λ array, h !! array = None ∧ is_Some (h' !! array))
                    (omap (itemsLocOf h') ls).
Proof.
  revert h. induction members as [|member members IH]; intros h.
  - exists h, []. split_and!; try done; constructor.
  - destruct (parseMember_read member h) as (h1 & l & Hrun & Hsub & Hl & Hread & Harr).
    destruct (IH h1) as (h' & ls & Hrun' & Hsub' & Hreads & Hnd & Hfresh & Hnda & Hfa).
    exists h', (l :: ls). cbn [mapHeap]. unfold bindHeap at 1. rewrite Hrun.
    unfold bindHeap at 1. rewrite Hrun'. split; [done|].
    destruct (readMember_lookup _ _ _ Hread) as (items & Hobj & _).
    assert (itemsLocOf h' l = itemsLocOf h1 l) as Hsame
      by (by eapply itemsLocOf_weaken).
    split_and!.
    + by etrans.
    + constructor; [|done]. by eapply readMember_weaken.
    + constructor; [|done]. intros Hin.
      rewrite Forall_forall in Hfresh. specialize (Hfresh _ Hin). congruence.
    + constructor; [done|]. eapply Forall_impl; [exact Hfresh|].
      intros x Hx; cbn beta in *. exact (lookup_weaken_None _ _ _ Hx Hsub).
    + rewrite omap_cons_eq, Hsame. destruct (itemsLocOf h1 l) as [array|] eqn:E; [|done].
      constructor; [|done]. intros Hin.
      rewrite Forall_forall in Hfa. destruct (Hfa _ Hin) as [Hnone _].
      destruct (Harr _ eq_refl) as [_ [o Ho]]. congruence.
    + rewrite omap_cons_eq, Hsame. assert (Forall (λ array : loc, h !! array = None ∧ is_Some (h' !! array))
                               (omap (itemsLocOf h') ls)) as Hrest.
      { eapply Forall_impl; [exact Hfa|]. intros x [Hx Hy]. split; [|done].
        by eapply lookup_weaken_None. }
      destruct (itemsLocOf h1 l) as [array|] eqn:E; [|done].
      constructor; [|done]. destruct (Harr _ eq_refl) as [Hnone [o Ho]].
      split; [done|]. exists o. by eapply lookup_weaken.
Qed.

Lemma parseSession_owns members h :
  ∃ h' root array ls,
    parseSession (Session.mk (Some members)) h = (h', Normal root)
    ∧ h ⊆ h' ∧ h !! root = None
    ∧ ownsMembers h' root array ls members.
Proof.
  destruct (parseMembers_read members h)
    as (h1 & ls & Hrun & Hsub & Hreads & Hnd & Hfresh & Hnda & Hfa).
  unfold parseSession. cbn [Session.members parseOptional].
  unfold parseArray, bindHeap. rewrite Hrun. unfold allocate, retHeap.
  set (array := fresh (dom h1)).
  set (h2 := <[array := ArrayObject ls]> h1).
  set (root := fresh (dom h2)).
  assert (h1 ⊆ h2) as H12 by apply fresh_subseteq.
  pose proof (fresh_subseteq h2 (SessionObject (Some array))) as H23.
  fold root in H23.
  assert (h2 !! array = Some (ArrayObject ls)) as Harray by apply lookup_insert_eq.
  eexists _, root, array, ls. split; [done|]. unfold ownsMembers. split_and!.
  - by do 2 (etrans; [done|]).
  - eapply lookup_weaken_None; [apply fresh_lookup|]. by etrans.
  - apply lookup_insert_eq.
  - by apply (lookup_weaken _ _ _ _ Harray).
  - done.
  - eapply Forall2_impl; [exact Hreads|]. intros l member Hread.
    eapply readMember_weaken; [|exact Hread]. by etrans; [exact H12|].
  - assert (omap (itemsLocOf (<[root := SessionObject (Some array)]> h2)) ls
            = omap (itemsLocOf h1) ls) as ->.
    { apply omap_ext_in. intros l Hl.
      destruct (Forall2_lookup_l_in _ _ _ _ Hreads Hl) as (member & Hread).
      destruct (readMember_lookup _ _ _ Hread) as (items & Hobj & _).
      eapply itemsLocOf_weaken; [|exact Hobj]. by etrans; [exact H12|]. }
    constructor; [|done]. intros Hin.
    rewrite Forall_forall in Hfa. destruct (Hfa _ Hin) as [_ [o Ho]].
    pose proof (fresh_lookup h1). unfold array in *. congruence.
Qed.

(** ** [member.items.push] on a member of the copy *)

Lemma readItem_insert (h : store) k o l item :
  readItem h l = Some item → l ≠ k → readItem (<[k := o]> h) l = Some item.
Proof. intros H Hne. unfold readItem. by rewrite lookup_insert_ne. Qed.

Lemma readItem_lookup h l item :
  readItem h l = Some item →
  h !! l = Some (ItemObject (Item.name item) (Item.price item)).
Proof.
  unfold readItem. destruct (h !! l) as [[| | |name price]|]; try done.
  by intros [= <-].
Qed.

Lemma readItems_insert (h : store) k o l items :
  readArray readItem h l = Some items → l ≠ k →
  (∀ name price, h !! k ≠ Some (ItemObject name price)) →
  readArray readItem (<[k := o]> h) l = Some items.
Proof.
  intros H Hne Hk. destruct (readArray_lookup _ _ _ _ H) as (elements & Hl & Hread).
  unfold readArray. rewrite lookup_insert_ne, Hl by done.
  eapply mapM_weaken; [|exact Hread]. intros e item He.
  apply readItem_insert; [done|]. intros ->.
  apply readItem_lookup in He. by eapply Hk.
Qed.

Lemma readMember_insert (h : store) k o l member :
  readMember h l = Some member → l ≠ k → itemsLocOf h l ≠ Some k →
  (∀ name price, h !! k ≠ Some (ItemObject name price)) →
  readMember (<[k := o]> h) l = Some member.
Proof.
  intros H Hne Harr Hk.
  destruct (readMember_lookup _ _ _ H) as (items & Hl & Hread).
  unfold readMember. rewrite lookup_insert_ne, Hl by done.
  unfold itemsLocOf in Harr. rewrite Hl in Harr.
  destruct items as [array|]; cbn [readOptional] in *.
  - destruct (readArray readItem h array) as [its|] eqn:E; [|done].
    erewrite readItems_insert; [| exact E | congruence | done].
    cbn in *. destruct member. cbn in *. congruence.
  - cbn in *. destruct member. cbn in *. congruence.
Qed.

Lemma NoDup_omap_inj {A B} (f : A → option B) (l : list A) i j x y b :
  NoDup (omap f l) → l !! i = Some x → l !! j = Some y →
  f x = Some b → f y = Some b → i = j.
Proof.
  revert i j. induction l as [|a l IH]; intros i j Hnd Hi Hj Hx Hy; [done|].
  rewrite omap_cons_eq in Hnd.
  assert (∀ z, z ∈ l → f z = Some b → b ∈ omap f l) as Hin.
  { intros z Hz Hfz. apply list_elem_of_omap. eauto. }
  destruct i as [|i], j as [|j]; cbn in Hi, Hj; simplify_eq; [done| | |].
  - rewrite Hx in Hnd. apply NoDup_cons in Hnd as [Hb _]. destruct Hb.
    apply (Hin y); [by eapply list_elem_of_lookup_2|done].
  - rewrite Hy in Hnd. apply NoDup_cons in Hnd as [Hb _]. destruct Hb.
    apply (Hin x); [by eapply list_elem_of_lookup_2|done].
  - f_equal. apply IH; try done.
    destruct (f a); [by apply NoDup_cons in Hnd as [_ ?]|done].
Qed.

Lemma NoDup_omap_update {A B} `{EqDecision A} (f g : A → option B) (l : list A) x b :
  NoDup l → NoDup (omap f l) → (∀ y, y ∈ l → y ≠ x → g y = f y) →
  f x = None → g x = Some b → b ∉ omap f l →
  NoDup (omap g l) ∧ ∀ c, c ∈ omap g l → c = b ∨ c ∈ omap f l.
Proof.
  intros Hl Hnd Hg Hfx Hgx Hb.
  assert (∀ c (k : list A), (∀ y, y ∈ k → y ≠ x → g y = f y) →
            c ∈ omap g k → c = b ∨ c ∈ omap f k) as Hin.
  { clear -Hgx EqDecision0. intros c k Hg. rewrite !list_elem_of_omap.
    intros (y & Hy & Hgy). destruct (decide (y = x)) as [->|Hne].
    - left. congruence.
    - right. exists y. by rewrite <- Hg. }
  split; [|by intros c; apply Hin].
  induction l as [|a l IH]; [constructor|].
  apply NoDup_cons in Hl as [Ha Hl]. rewrite omap_cons_eq in Hnd, Hb.
  assert (∀ y, y ∈ l → y ≠ x → g y = f y) as Hg'
    by (intros y Hy; apply Hg; by right).
  rewrite omap_cons_eq. destruct (decide (a = x)) as [->|Hne].
  - rewrite Hgx. rewrite Hfx in Hnd, Hb.
    assert (omap g l = omap f l) as ->.
    { apply omap_ext_in. intros y Hy. apply Hg'; [done|]. by intros ->. }
    by constructor.
  - rewrite (Hg a) by (done || by left). destruct (f a) as [c|].
    + apply NoDup_cons in Hnd as [Hc Hnd]. apply not_elem_of_cons in Hb as [Hbc Hb].
      constructor; [|by apply IH]. intros Hcin.
      destruct (Hin _ _ Hg' Hcin); [congruence|done].
    + by apply IH.
Qed.

Lemma itemsLocOf_array h l member array :
  readMember h l = Some member → itemsLocOf h l = Some array →
  ∃ elements items, h !! array = Some (ArrayObject elements)
           ∧ mapM (readItem h) elements = Some items
           ∧ Member.items member = Some items.
Proof.
  intros Hread Harr. destruct (readMember_lookup _ _ _ Hread) as (items & Hl & Hitems).
  unfold itemsLocOf in Harr. rewrite Hl in Harr.
  destruct items as [a|]; [|done]. injection Harr as ->.
  cbn [readOptional] in Hitems.
  destruct (readArray readItem h array) as [its|] eqn:E; [|done].
  destruct (readArray_lookup _ _ _ _ E) as (elements & Ha & Hread').
  exists elements, its. cbn in Hitems. split_and!; congruence.
Qed.

Lemma ownsMembers_array h root array ls members a :
  ownsMembers h root array ls members → a ∈ omap (itemsLocOf h) ls →
  ∃ elements, h !! a = Some (ArrayObject elements).
Proof.
  intros (_ & _ & _ & Hreads & _) Ha.
  apply list_elem_of_omap in Ha as (l & Hl & Harr).
  destruct (Forall2_lookup_l_in _ _ _ _ Hreads Hl) as (member & Hread).
  destruct (itemsLocOf_array _ _ _ _ Hread Harr) as (elements & _ & ? & _).
  by exists elements.
Qed.

Lemma ownsMembers_update h h' root array ls members i l member member' :
  ownsMembers h root array ls members →
  ls !! i = Some l → members !! i = Some member →
  h' !! root = h !! root → h' !! array = h !! array →
  readMember h' l = Some member' →
  (∀ j l' m', j ≠ i → ls !! j = Some l' → members !! j = Some m' →
              readMember h' l' = Some m' ∧ itemsLocOf h' l' = itemsLocOf h l') →
  (itemsLocOf h' l = itemsLocOf h l
   ∨ itemsLocOf h l = None ∧ ∃ a, itemsLocOf h' l = Some a ∧ h !! a = None) →
  ownsMembers h' root array ls (<[i := member']> members).
Proof.
  intros Howns Hl Hm Hroot Harray Hread Hothers Hitems.
  pose proof Howns as (Hr & Ha & Hnd & Hreads & Hnda).
  assert (∀ l', l' ∈ ls → l' ≠ l → itemsLocOf h' l' = itemsLocOf h l') as Hsame.
  { intros l' Hin Hne. apply list_elem_of_lookup in Hin as [j Hj].
    destruct (Forall2_lookup_l _ _ _ _ _ Hreads Hj) as (m' & Hm' & _).
    eapply Hothers; [|done..]. intros ->. congruence. }
  unfold ownsMembers. split_and!.
  - congruence.
  - congruence.
  - done.
  - apply Forall2_same_length_lookup. split.
    + rewrite length_insert. by eapply Forall2_length.
    + intros j l' m' Hj Hm'. destruct (decide (j = i)) as [->|Hne].
      * rewrite list_lookup_insert_eq in Hm' by (by eapply lookup_lt_Some).
        by simplify_eq.
      * rewrite list_lookup_insert_ne in Hm' by done.
        by eapply Hothers.
  - apply NoDup_cons in Hnda as [Harr Hnda].
    destruct Hitems as [Heq|(Hnone & a & Hsome & Hfresh)].
    + assert (omap (itemsLocOf h') ls = omap (itemsLocOf h) ls) as ->; [|by constructor].
      apply omap_ext_in. intros l' Hin.
      destruct (decide (l' = l)) as [->|Hne]; [done|by apply Hsame].
    + assert (a ∉ omap (itemsLocOf h) ls) as Ha'.
      { intros Hin. destruct (ownsMembers_array _ _ _ _ _ _ Howns Hin). congruence. }
      destruct (NoDup_omap_update (itemsLocOf h) (itemsLocOf h') ls l a)
        as [Hnd' Hin]; try done.
      constructor; [|done]. intros Hin'. destruct (Hin _ Hin'); [|done].
      congruence.
Qed.

Lemma pushItem_owns h root array ls members i l member name price :
  ownsMembers h root array ls members →
  ls !! i = Some l → members !! i = Some member →
  ∃ h', pushItem l name price h = (h', Normal tt)
        ∧ ownsMembers h' root array ls
            (<[i := withItem name price member]> members).
Proof.
  intros Howns Hl Hm. pose proof Howns as (Hroot & Harray & Hnd & Hreads & Hnda).
  assert (readMember h l = Some member) as Hread.
  { by destruct (Forall2_lookup_l _ _ _ _ _ Hreads Hl) as (m' & ? & ?); simplify_eq. }
  destruct (readMember_lookup _ _ _ Hread) as (items & Hobj & Hitems).
  assert (∀ j l' m', j ≠ i → ls !! j = Some l' → members !! j = Some m' →
            l' ≠ l ∧ readMember h l' = Some m') as Hother.
  { intros j l' m' Hne Hj Hm'. split.
    - intros ->. destruct Hne. exact (NoDup_lookup _ _ _ _ Hnd Hj Hl).
    - by destruct (Forall2_lookup_l _ _ _ _ _ Hreads Hj) as (m'' & ? & ?); simplify_eq. }
  unfold pushItem, bindHeap at 1. unfold getObject at 1. rewrite Hobj.
  destruct items as [la|].
  - (* the member has an array of items *)
    assert (itemsLocOf h l = Some la) as Hla by (unfold itemsLocOf; by rewrite Hobj).
    destruct (itemsLocOf_array _ _ _ _ Hread Hla) as (elements & its & Hela & Hels & Hits).
    unfold bindHeap, retHeap, getObject. rewrite Hela.
    unfold allocate, assign.
    set (li := fresh (dom h)).
    set (h1 := <[li := ItemObject name price]> h).
    assert (h !! li = None) as Hli by apply fresh_lookup.
    assert (h ⊆ h1) as H01 by apply fresh_subseteq.
    assert (∀ name price, h1 !! la ≠ Some (ItemObject name price)) as Hkind.
    { intros ??. by rewrite (lookup_weaken _ _ _ _ Hela H01). }
    eexists. split; [done|].
    eapply ownsMembers_update; [exact Howns|exact Hl|exact Hm|..].
    + unfold h1. rewrite !lookup_insert_ne; [done|congruence..].
    + unfold h1. rewrite !lookup_insert_ne; [done|congruence|].
      intros <-. apply NoDup_cons in Hnda as [Hnot _]. apply Hnot.
      apply list_elem_of_omap. exists l. split; [|done].
      by eapply list_elem_of_lookup_2.
    + unfold readMember. unfold h1 at 1.
      rewrite !lookup_insert_ne, Hobj by congruence.
      cbn [readOptional]. unfold readArray. rewrite lookup_insert_eq.
      assert (mapM (readItem (<[la := ArrayObject (elements ++ [li])]> h1))
                (elements ++ [li]) = Some (its ++ [Item.mk name price])) as ->.
      { apply mapM_Some, Forall2_app.
        - apply mapM_Some in Hels. eapply Forall2_impl; [exact Hels|].
          intros e item He. apply readItem_insert.
          + by eapply readItem_weaken.
          + apply readItem_lookup in He. congruence.
        - constructor; [|constructor]. unfold readItem.
          rewrite lookup_insert_ne by congruence. unfold h1.
          by rewrite lookup_insert_eq. }
      unfold withItem. by rewrite Hits.
    + intros j l' m' Hne Hj Hm'. destruct (Hother _ _ _ Hne Hj Hm') as [Hll Hrd].
      destruct (readMember_lookup _ _ _ Hrd) as (items' & Hobj' & _).
      assert (l' ≠ la) by congruence. assert (l' ≠ li) by congruence.
      split; [|by unfold h1; rewrite !itemsLocOf_insert].
      apply readMember_insert; [by eapply readMember_weaken|done| |done].
      unfold h1. rewrite itemsLocOf_insert by done. intros Hsame.
      destruct Hne. by eapply (NoDup_omap_inj (itemsLocOf h) ls j i l' l la);
        [by apply NoDup_cons in Hnda as [_ ?]|..].
    + left. unfold h1. rewrite !itemsLocOf_insert; [done|congruence..].
  - (* the member has no items yet *)
    assert (itemsLocOf h l = None) as Hla by (unfold itemsLocOf; by rewrite Hobj).
    unfold bindHeap, retHeap, allocate, assign, getObject.
    set (la := fresh (dom h)).
    set (h1 := <[la := ArrayObject []]> h).
    set (o := MemberObject (Member.id member) (Member.name member) (Some la)
                           (Member.advance member) (Member.bankInfo member)).
    set (h2 := <[l := o]> h1).
    assert (h !! la = None) as Hfresh by apply fresh_lookup.
    assert (l ≠ la) as Hlla by congruence.
    assert (h2 !! la = Some (ArrayObject [])) as Hela.
    { unfold h2, h1. by rewrite lookup_insert_ne, lookup_insert_eq. }
    rewrite Hela.
    set (li := fresh (dom h2)).
    set (h3 := <[li := ItemObject name price]> h2).
    assert (h2 !! li = None) as Hli by apply fresh_lookup.
    assert (h !! li = None) as Hli0.
    { unfold h2, h1 in Hli. destruct (decide (li = l)) as [E|E].
      - rewrite E, lookup_insert_eq in Hli. done.
      - rewrite lookup_insert_ne in Hli by done.
        destruct (decide (li = la)) as [E'|E'].
        + rewrite E', lookup_insert_eq in Hli. done.
        + by rewrite lookup_insert_ne in Hli. }
    assert (li ≠ la) as Hlila by congruence.
    assert (li ≠ l) as Hlil by congruence.
    assert (h ⊆ h1) as H01 by apply fresh_subseteq.
    assert (h2 ⊆ h3) as H23 by apply fresh_subseteq.
    eexists. split; [done|].
    eapply ownsMembers_update; [exact Howns|exact Hl|exact Hm|..].
    + unfold h3, h2, h1. rewrite !lookup_insert_ne; [done|congruence..].
    + unfold h3, h2, h1. rewrite !lookup_insert_ne; [done|congruence..].
    + unfold readMember. unfold h3 at 1. unfold h2 at 1.
      rewrite !lookup_insert_ne by done. rewrite lookup_insert_eq.
      unfold o. cbn [readOptional]. unfold readArray. rewrite lookup_insert_eq.
      cbn. unfold readItem. rewrite lookup_insert_ne by done.
      unfold h3. rewrite lookup_insert_eq. cbn.
      unfold withItem. cbn in Hitems. injection Hitems as <-. done.
    + intros j l' m' Hne Hj Hm'. destruct (Hother _ _ _ Hne Hj Hm') as [Hll Hrd].
      destruct (readMember_lookup _ _ _ Hrd) as (items' & Hobj' & _).
      assert (l' ≠ la) by congruence. assert (l' ≠ li) by congruence.
      assert (itemsLocOf h3 l' = itemsLocOf h l') as Hsame.
      { unfold h3, h2, h1. by rewrite !itemsLocOf_insert. }
      split; [|by rewrite itemsLocOf_insert].
      assert (∀ a, itemsLocOf h l' = Some a → is_Some (h !! a) ∧ a ≠ l) as Harr.
      { intros a Ha.
        destruct (itemsLocOf_array _ _ _ _ Hrd Ha) as (els & ? & Hsome & _).
        split; [by eexists|congruence]. }
      apply readMember_insert; [|done| |].
      * eapply readMember_weaken; [exact H23|].
        apply readMember_insert; [by eapply readMember_weaken|done| |].
        -- unfold h1. rewrite itemsLocOf_insert by done. intros Ha.
           by destruct (Harr _ Ha).
        -- intros ??. unfold h1. rewrite lookup_insert_ne by done. congruence.
      * rewrite Hsame. intros Ha. destruct (Harr _ Ha) as [[? ?] _]. congruence.
      * intros ??. unfold h3. rewrite lookup_insert_ne by done. congruence.
    + right. split; [done|]. exists la. split; [|done].
      unfold itemsLocOf, h3, h2.
      rewrite lookup_insert_ne, lookup_insert_ne, lookup_insert_eq by done.
      done.
Qed.

Lemma forEach_owns {B} (f : B → Heap unit) (upd : B → Member.t → Member.t)
    root array ls (ys : list B) :
  length ys = length ls →
  (∀ i y l member h members,
     ys !! i = Some y → ls !! i = Some l → members !! i = Some member →
     ownsMembers h root array ls members →
     ∃ h', f y h = (h', Normal tt)
           ∧ ownsMembers h' root array ls (<[i := upd y member]> members)) →
  ∀ h members,
    ownsMembers h root array ls members →
    ∃ h', forEach f ys h = (h', Normal tt)
          ∧ ownsMembers h' root array ls (zip_with upd ys members).
Proof.
  intros Hlen Hstep.
  assert (∀ n k h cur,
            (n + k)%nat = length ys → ownsMembers h root array ls cur →
            ∃ h', forEach f (drop k ys) h = (h', Normal tt)
                  ∧ ownsMembers h' root array ls
                      (take k cur ++ zip_with upd (drop k ys) (drop k cur))) as H.
  { induction n as [|n IH]; intros k h cur Hk Howns.
    - cbn in Hk. subst k. rewrite drop_all. exists h. split; [done|].
      cbn [zip_with]. rewrite app_nil_r, take_ge; [done|].
      destruct Howns as (_ & _ & _ & Hreads & _).
      apply Forall2_length in Hreads. lia.
    - assert (length cur = length ls) as Hcur.
      { destruct Howns as (_ & _ & _ & Hreads & _). by apply Forall2_length in Hreads. }
      destruct (lookup_lt_is_Some_2 ys k) as [y Hy]; [lia|].
      destruct (lookup_lt_is_Some_2 ls k) as [l Hl]; [lia|].
      destruct (lookup_lt_is_Some_2 cur k) as [m Hm]; [lia|].
      destruct (Hstep _ _ _ _ _ _ Hy Hl Hm Howns) as (h1 & Hrun & Howns1).
      destruct (IH (S k) h1 _ ltac:(lia) Howns1) as (h' & Hrun' & Howns').
      exists h'. rewrite (drop_S _ _ _ Hy). cbn [forEach]. unfold bindHeap at 1.
      rewrite Hrun. split; [done|].
      rewrite (drop_S _ _ _ Hm). cbn [zip_with].
      rewrite (take_S_r _ _ (upd y m)) in Howns'
        by (apply list_lookup_insert_eq; by eapply lookup_lt_Some).
      rewrite take_insert_ge, drop_insert_lt in Howns' by lia.
      by rewrite <- app_assoc in Howns'. }
  intros h members Howns. destruct (H (length ys) 0%nat h members) as (h' & ? & ?);
    [lia|done|]. by exists h'.
Qed.

Lemma ownsMembers_readSession h root array ls members :
  ownsMembers h root array ls members →
  readSession h root = Some (Session.mk (Some members)).
Proof.
  intros (Hroot & Harray & _ & Hreads & _). unfold readSession. rewrite Hroot.
  cbn [readOptional]. unfold readArray. rewrite Harray.
  apply mapM_Some in Hreads. by rewrite Hreads.
Qed.

Lemma membersOf_owns h root array ls members :
  ownsMembers h root array ls members →
  membersOf (Some root) h = (h, Normal ls).
Proof.
  intros (Hroot & Harray & _). unfold membersOf, bindHeap, getObject.
  by rewrite Hroot, Harray.
Qed.

Lemma calculateSession_members hostFunction this session members :
  Session.members session = Some members →
  calculateSession hostFunction this (Some session)
  = Normal (settle hostFunction this members).
Proof.
  intros H. rewrite calculateSession_normal, H. by destruct members.
Qed.

Lemma sameSpending_refl hostFunction this member :
  sameSpending hostFunction this member member.
Proof. by repeat split. Qed.

Lemma sameSpending_withItem hostFunction this name q member :
  sameSpending hostFunction this (withItem name (JsNumber q) member) member.
Proof.
  unfold sameSpending, withItem, costOf.
  cbn [Member.id Member.name Member.advance Member.items MemberCost.totalSpent
       default from_option id].
  split_and!; try done. apply roundNumber_proper, fold_prices_app.
  constructor; [|constructor]. by exists q.
Qed.

Lemma sameSpending_zip_with {B} hostFunction this
    (upd : B → Member.t → Member.t) (ys : list B) members :
  length ys = length members →
  (∀ y member, sameSpending hostFunction this (upd y member) member) →
  Forall2 (sameSpending hostFunction this) (zip_with upd ys members) members.
Proof.
  intros Hlen Hupd. revert ys Hlen.
  induction members as [|member members IH]; intros [|y ys] Hlen; try done.
  cbn [zip_with]. constructor; [apply Hupd|]. apply IH. by injection Hlen.
Qed.

Lemma settle_sameSpending hostFunction this members' members :
  Forall2 (sameSpending hostFunction this) members' members →
  sameAmounts (settle hostFunction this members')
              (settle hostFunction this members).
Proof.
  intros H.
  set (costs' := map (costOf hostFunction this) members').
  set (costs := map (costOf hostFunction this) members).
  assert (length costs' = length costs) as Hlen.
  { unfold costs', costs. rewrite !length_map. by eapply Forall2_length. }
  assert (sumOf MemberCost.totalSpent costs' == sumOf MemberCost.totalSpent costs
          ∧ sumOf MemberCost.advance costs' == sumOf MemberCost.advance costs)
    as [Hspent Hadvance].
  { unfold costs', costs. clear -H.
    induction H as [|a b l k (_ & _ & Hadv & Hsp) _ [IH1 IH2]]; [done|].
    cbn [map]. rewrite !sumOf_cons, IH1, IH2, Hsp. split; [reflexivity|].
    unfold costOf. cbn [MemberCost.advance]. rewrite Hadv. reflexivity. }
  assert (Totals.costPerPerson (calculateSessionTotals this costs')
          == Totals.costPerPerson (calculateSessionTotals this costs)) as Hshare.
  { unfold calculateSessionTotals. cbn [Totals.costPerPerson]. rewrite Hlen.
    apply roundNumber_proper. destruct (Qlt_bool 0 (count (length costs)));
      [by rewrite Hspent|reflexivity]. }
  unfold sameAmounts, settle. fold costs' costs.
  cbn [Calculations.totals Calculations.memberCalculations].
  split_and!.
  - unfold calculateSessionTotals. cbn [Totals.totalCost].
    by apply roundNumber_proper.
  - unfold calculateSessionTotals. cbn [Totals.totalAdvance].
    by apply roundNumber_proper.
  - done.
  - unfold calculateSessionTotals. cbn [Totals.remainingBalance].
    apply roundNumber_proper. by rewrite Hspent, Hadvance.
  - unfold calculateFinalAmounts, costs', costs.
    apply Forall2_fmap, Forall2_fmap.
    eapply Forall2_impl; [exact H|]. intros a b (Hid & Hname & Hadv & Hsp).
    fold costs' costs. cbn beta.
    destruct (finalize_proper this (costOf hostFunction this b)
                _ _ Hshare) as (Hstatus & Hfinal & _).
    assert (MemberCost.advance (costOf hostFunction this a)
            = MemberCost.advance (costOf hostFunction this b)) as Hsame
      by (unfold costOf; cbn [MemberCost.advance]; by rewrite Hadv).
    unfold finalize in *.
    cbn [MemberCalculation.id MemberCalculation.name MemberCalculation.totalSpent
         MemberCalculation.advance MemberCalculation.finalAmount
         MemberCalculation.status] in *.
    rewrite Hsame. split_and!; try done.
Qed.

Lemma bindHeap_run {A B} (m : Heap A) (k : A → Heap B) h h' a :
  m h = (h', Normal a) → bindHeap m k h = k a h'.
Proof. intros H. unfold bindHeap. by rewrite H. Qed.

Lemma calculateSessionAt_read hostFunction this h l session :
  readSession h l = Some session →
  calculateSessionAt hostFunction this (Some l) h
  = (h, calculateSession hostFunction this (Some session)).
Proof.
  intros H. unfold calculateSessionAt, bindHeap, getSession, lift. by rewrite H.
Qed.

Lemma calculateSessionAt_owns hostFunction this h root array ls members' members :
  ownsMembers h root array ls members' →
  Forall2 (sameSpending hostFunction this) members' members →
  ∃ h' withTip withoutTip,
    calculateSessionAt hostFunction this (Some root) h = (h', Normal withTip)
    ∧ calculateSession hostFunction this (Some (Session.mk (Some members)))
      = Normal withoutTip
    ∧ sameAmounts withTip withoutTip.
Proof.
  intros Howns Hsame. eexists h, _, _. split_and!.
  - rewrite (calculateSessionAt_read _ _ _ _ _ (ownsMembers_readSession _ _ _ _ _ Howns)).
    by rewrite (calculateSession_members _ _ _ members').
  - by apply calculateSession_members.
  - by apply settle_sameSpending.
Qed.

Lemma Forall2_sameSpending_refl hostFunction this members :
  Forall2 (sameSpending hostFunction this) members members.
Proof. induction members; constructor; [apply sameSpending_refl|done]. Qed.

(** X14.  A tip changes no amount: whatever the tip and the way it is shared,
    [calculateWithTip] on a session with a list of members returns, and
    the total cost, the share per person, and every member's total spent,
    final amount and status are those [calculateSession] gives without the
    tip.  The tip items are added to the copy with a number as price, and
    a number as price counts as 0. *)
Theorem tip_changes_no_amount hostFunction this h l session members
    tipAmount tipDistribution :
  readSession h l = Some session →
  Session.members session = Some members →
  ∃ h' withTip withoutTip,
    calculateWithTip hostFunction this (Some l) tipAmount tipDistribution h
    = (h', Normal withTip)
    ∧ calculateSession hostFunction this (Some session) = Normal withoutTip
    ∧ sameAmounts withTip withoutTip.
Proof.
  intros Hread Hmembers. unfold calculateWithTip.
  unfold bindHeap at 1. unfold lift at 1. rewrite parseExpression_value.
  destruct (Qle_bool _ 0).
  { eexists h, _, _. rewrite (calculateSessionAt_read _ _ _ _ _ Hread).
    rewrite (calculateSession_members _ _ _ _ Hmembers). split_and!; try done.
    apply settle_sameSpending, Forall2_sameSpending_refl. }
  destruct session as [ms]. cbn [Session.members] in Hmembers. subst ms.
  unfold bindHeap at 1. unfold JSON_clone, bindHeap at 1, getSession.
  rewrite Hread. cbn [parseOptional]. unfold bindHeap at 1.
  destruct (parseSession_owns members h)
    as (h1 & root & array & ls & -> & Hsub & Hfresh & Howns).
  unfold retHeap at 1.
  assert (length ls = length members) as Hlen.
  { destruct Howns as (_ & _ & _ & Hreads & _). by eapply Forall2_length. }
  destruct (String.eqb tipDistribution "equal").
  - (* the tip in equal parts *)
    set (price := JsNumber (orZero (parseValue hostFunction this tipAmount)
                            / count (length ls))).
    destruct (forEach_owns (λ member, pushItem member "Tip (Equal Split)" price)
                (λ _, withItem "Tip (Equal Split)" price) root array ls ls eq_refl)
      with (h := h1) (members := members) as (h2 & Hrun & Howns2); [|done|].
    { intros i y l' member h0 members0 Hy Hl Hm Ho. simplify_eq.
      by apply pushItem_owns. }
    erewrite bindHeap_run;
      [|erewrite bindHeap_run; [|by eapply membersOf_owns]; exact Hrun].
    eapply calculateSessionAt_owns; [exact Howns2|].
    apply sameSpending_zip_with; [done|]. intros _ member.
    apply sameSpending_withItem.
  - destruct (String.eqb tipDistribution "proportional").
    + (* the tip in proportion to what each member spent *)
      set (costs := map (costOf hostFunction this) members).
      assert (originalMembers (Some l) h1 = (h1, Normal members)) as Horiginal.
      { unfold originalMembers, bindHeap, getSession.
        by rewrite (readSession_weaken _ _ _ _ Hsub Hread). }
      destruct (Qlt_bool 0 (sumOf MemberCost.totalSpent costs)) eqn:Hpositive.
      * set (tipFor := λ index : nat,
               match costs !! index with
               | Some calculation =>
                   JsNumber (MemberCost.totalSpent calculation
                             / sumOf MemberCost.totalSpent costs
                             * orZero (parseValue hostFunction this tipAmount))
               | None => JsNumber 0
               end).
        destruct (forEach_owns
                    (λ '(member, index),
                       match costs !! index with
                       | Some calculation =>
                           pushItem member "Tip (Proportional)"
                             (JsNumber (MemberCost.totalSpent calculation
                                        / sumOf MemberCost.totalSpent costs
                                        * orZero (parseValue hostFunction this tipAmount)))
                       | None => throwHeap "TypeError"
                       end)
                    (λ y, withItem "Tip (Proportional)" (tipFor y.2))
                    root array ls (zip ls (seq 0 (length ls))))
          with (h := h1) (members := members) as (h2 & Hrun & Howns2); [| |done|].
        { rewrite length_zip, length_seq. lia. }
        { intros i [l' index] l'' member h0 members0 Hy Hl Hm Ho.
          apply lookup_zip_with_Some in Hy as (? & ? & [= <- <-] & Hl' & Hseq).
          apply lookup_seq in Hseq as [-> _]. simplify_eq.
          cbn [snd]. unfold tipFor. change (0 + i)%nat with i.
          destruct (costs !! i) as [calculation|] eqn:E.
          - by apply pushItem_owns.
          - apply lookup_ge_None in E. unfold costs in E. rewrite length_map in E.
            apply lookup_lt_Some in Hl'. lia. }
        erewrite bindHeap_run;
          [|erewrite bindHeap_run; [|exact Horiginal];
            erewrite bindHeap_run;
              [|unfold lift; by rewrite calculateMemberCosts_normal];
            fold costs; cbv zeta; rewrite Hpositive;
            erewrite bindHeap_run; [|by eapply membersOf_owns]; exact Hrun].
        eapply calculateSessionAt_owns; [exact Howns2|].
        apply sameSpending_zip_with.
        { rewrite length_zip, length_seq. lia. }
        intros y member. unfold tipFor. destruct (costs !! y.2);
          apply sameSpending_withItem.
      * erewrite bindHeap_run;
          [|erewrite bindHeap_run; [|exact Horiginal];
            erewrite bindHeap_run;
              [|unfold lift; by rewrite calculateMemberCosts_normal];
            fold costs; cbv zeta; rewrite Hpositive; reflexivity].
        eapply calculateSessionAt_owns; [exact Howns|].
        apply Forall2_sameSpending_refl.
    + erewrite bindHeap_run; [|reflexivity].
      eapply calculateSessionAt_owns; [exact Howns|].
      apply Forall2_sameSpending_refl.
Qed.

Lemma tip_changes_no_amount_witness :
  ∃ session,
    readSession scenarioStore 1%positive = Some session
    ∧ ∃ h' withTip withoutTip,
        calculateWithTip ReferenceHost.run constructor (Some 1%positive)
                         (JsString "30000") "proportional" scenarioStore
        = (h', Normal withTip)
        ∧ calculateSession ReferenceHost.run constructor (Some session)
          = Normal withoutTip
        ∧ sameAmounts withTip withoutTip.
Proof.
  eexists. split; [vm_compute; reflexivity|].
  eapply (tip_changes_no_amount ReferenceHost.run constructor scenarioStore 1%positive);
    reflexivity.
Defined.

(** X15.  The copy made by [JSON.parse(JSON.stringify(session))] is a new object
    that reads back as the same session, and every object of the store
    before is still there unchanged. *)
Theorem JSON_clone_round_trip h l session :
  readSession h l = Some session →
  ∃ h' l',
    JSON_clone (Some l) h = (h', Normal (Some l'))
    ∧ h !! l' = None ∧ h ⊆ h'
    ∧ readSession h' l' = Some session
    ∧ readSession h' l = Some session.
Proof.
  intros Hread. unfold JSON_clone, bindHeap at 1, getSession. rewrite Hread.
  cbn [parseOptional]. destruct session as [[members|]].
  - destruct (parseSession_owns members h)
      as (h' & root & array & ls & Hrun & Hsub & Hfresh & Howns).
    exists h', root. unfold bindHeap. rewrite Hrun. split_and!; try done.
    + by eapply ownsMembers_readSession.
    + by eapply readSession_weaken.
  - unfold bindHeap, parseSession, bindHeap. cbn [Session.members parseOptional].
    unfold retHeap, allocate. eexists _, _. split; [done|].
    pose proof (fresh_subseteq h (SessionObject None)) as Hsub.
    split_and!.
    + apply fresh_lookup.
    + done.
    + unfold readSession. by rewrite lookup_insert_eq.
    + by eapply readSession_weaken.
Qed.

Lemma JSON_clone_round_trip_witness :
  ∃ session,
    readSession scenarioStore 1%positive = Some session
    ∧ ∃ h' l',
        JSON_clone (Some 1%positive) scenarioStore = (h', Normal (Some l'))
        ∧ scenarioStore !! l' = None ∧ scenarioStore ⊆ h'
        ∧ readSession h' l' = Some session
        ∧ readSession h' 1%positive = Some session.
Proof.
  eexists. split; [vm_compute; reflexivity|].
  apply (JSON_clone_round_trip scenarioStore 1%positive). reflexivity.
Defined.

(** X16.  A tip that is a number, or a text that is empty or evaluates to a value
    that is not positive, adds nothing: [calculateWithTip] makes no copy,
    leaves the store as it is and returns what [calculateSession] returns
    for the session. *)
Theorem tip_needs_positive_text hostFunction this h l session tipAmount
    tipDistribution :
  readSession h l = Some session →
  (∃ q, tipAmount = JsNumber q)
  ∨ parseValue hostFunction this tipAmount <= 0 →
  calculateWithTip hostFunction this (Some l) tipAmount tipDistribution h
  = (h, calculateSession hostFunction this (Some session)).
Proof.
  intros Hread Htip. unfold calculateWithTip, bindHeap at 1, lift at 1.
  rewrite parseExpression_value.
  assert (Qle_bool (orZero (parseValue hostFunction this tipAmount)) 0 = true) as ->.
  { apply Qle_bool_iff. rewrite orZero_eq. destruct Htip as [[q ->]|H]; [|done].
    unfold parseValue. rewrite parseExpression_number. lra. }
  by apply calculateSessionAt_read.
Qed.

Lemma tip_needs_positive_text_witness :
  ∃ session,
    readSession scenarioStore 1%positive = Some session
    ∧ calculateWithTip ReferenceHost.run constructor (Some 1%positive)
                       (JsNumber 30000) "equal" scenarioStore
      = (scenarioStore,
         calculateSession ReferenceHost.run constructor (Some session)).
Proof.
  eexists. split; [vm_compute; reflexivity|].
  apply (tip_needs_positive_text ReferenceHost.run constructor scenarioStore 1%positive).
  - reflexivity.
  - left. by exists 30000.
Defined.

(** * Cost analytics: least, middle and greatest cost *)

Lemma sorted_nth_le (l : list Q) i j :
  Sorted Qle l → (i ≤ j < length l)%nat → nth i l 0 <= nth j l 0.
Proof.
  intros Hs. apply Sorted_StronglySorted in Hs; [|intros x y z; apply Qle_trans].
  revert i j. induction Hs as [|a l Hs IH Ha]; intros i j Hij; [simpl in Hij; lia|].
  destruct i as [|i], j as [|j]; simpl in *; try lia.
  - lra.
  - rewrite List.Forall_forall in Ha. apply Ha, nth_In. lia.
  - apply IH. lia.
Qed.

Lemma elem_of_nth (l : list Q) x : x ∈ l → ∃ i, (i < length l)%nat ∧ nth i l 0 = x.
Proof.
  intros [i Hi]%list_elem_of_lookup. exists i. split; [by eapply lookup_lt_Some|].
  by apply nth_lookup_Some with (d := 0) in Hi.
Qed.

Lemma nth_elem_of (l : list Q) i : (i < length l)%nat → nth i l 0 ∈ l.
Proof. intros Hi. apply list_elem_of_In, nth_In. lia. Qed.

(** X17.  [generateCostAnalytics] looks only at the sessions stored with a
    positive total cost.  With none, every figure is 0 and there is no
    distribution.  Otherwise [min], [median] and [max] are total costs of
    such sessions, [min] is the least and [max] the greatest of them (so the
    median lies between them), and [total] is their sum. *)
Theorem cost_analytics_order sessions :
  let analytics := generateCostAnalytics sessions in
  let costs := positiveCosts sessions in
  (costs = [] →
     CostAnalytics.total analytics = 0 ∧ CostAnalytics.average analytics = 0
     ∧ CostAnalytics.median analytics = 0 ∧ CostAnalytics.min analytics = 0
     ∧ CostAnalytics.max analytics = 0
     ∧ CostAnalytics.distribution analytics = [])
  ∧ (costs ≠ [] →
       CostAnalytics.min analytics ∈ costs
       ∧ CostAnalytics.median analytics ∈ costs
       ∧ CostAnalytics.max analytics ∈ costs
       ∧ (∀ cost, cost ∈ costs →
            CostAnalytics.min analytics <= cost
            ∧ cost <= CostAnalytics.max analytics)
       ∧ 0 < CostAnalytics.min analytics
       ∧ CostAnalytics.total analytics == sumOf id costs
       ∧ CostAnalytics.average analytics
         == sumOf id costs / count (length costs)).
Proof.
  intros analytics costs. unfold analytics, generateCostAnalytics. fold costs.
  split.
  - intros ->. by cbn.
  - intros Hne.
    destruct (generateCostAnalytics_sorted sessions) as (_ & Hsorted & Hperm & Hpos).
    fold costs in Hsorted, Hperm, Hpos.
    set (sorted := sort (λ a b, a - b) costs) in *.
    assert (length sorted = length costs) as Hlen by by rewrite Hperm.
    assert (0 < length costs)%nat as Hpos' by (destruct costs; [done|simpl; lia]).
    destruct (length costs =? 0)%nat eqn:E; [apply Nat.eqb_eq in E; lia|].
    cbn [CostAnalytics.total CostAnalytics.average CostAnalytics.median
         CostAnalytics.min CostAnalytics.max].
    assert (length sorted `div` 2 < length sorted)%nat as Hmid
      by (apply Nat.div_lt; lia).
    split_and!.
    + rewrite <- Hperm. apply nth_elem_of. lia.
    + rewrite <- Hperm. by apply nth_elem_of.
    + rewrite <- Hperm. apply nth_elem_of. lia.
    + intros cost Hcost. rewrite <- Hperm in Hcost.
      destruct (elem_of_nth _ _ Hcost) as (i & Hi & <-).
      split; apply sorted_nth_le; try done; lia.
    + rewrite Forall_forall in Hpos. apply Hpos, nth_elem_of. lia.
    + by apply sumOf_Permutation.
    + rewrite Hlen. by rewrite (sumOf_Permutation _ _ _ Hperm).
Qed.

Lemma cost_analytics_order_witness :
  let sessions :=
    [StoredSession.mk (Some (Totals.mk 300 0 2 3 150 150 300));
     StoredSession.mk None;
     StoredSession.mk (Some (Totals.mk 100 0 2 1 50 50 100))] in
  CostAnalytics.min (generateCostAnalytics sessions) <= 300
  ∧ 300 <= CostAnalytics.max (generateCostAnalytics sessions).
Proof.
  intros sessions.
  destruct (cost_analytics_order sessions) as [_ H].
  destruct H as (_ & _ & _ & Hall & _); [by vm_compute|].
  apply Hall. vm_compute. constructor.
Defined.

(** * Member and item analytics *)

Lemma forEachM_app {A S} (f : S → A → completion S) l1 l2 s :
  forEachM f (l1 ++ l2) s = forEachM f l1 s ≫= forEachM f l2.
Proof.
  revert s. induction l1 as [|x l1 IH]; intros s; [done|].
  cbn [app forEachM]. destruct (f s x) as [s'|e]; [|done]. apply IH.
Qed.

Lemma forEachM_nested {A B S} (F : S → A → completion S)
    (f : S → B → completion S) (h : A → list B) l s :
  (∀ s x, F s x = forEachM f (h x) s) →
  forEachM F l s = forEachM f (l ≫= h) s.
Proof.
  intros HF. revert s. induction l as [|x l IH]; intros s; [done|].
  cbn [forEachM]. rewrite bind_cons, forEachM_app, HF.
  destruct (forEachM f (h x) s) as [s'|e]; [|done]. apply IH.
Qed.

Lemma forEachM_fmap {A B S} (f : S → B → completion S) (g : A → B) l s :
  forEachM f (g <$> l) s = forEachM (λ s x, f s (g x)) l s.
Proof.
  revert s. induction l as [|x l IH]; intros s; [done|].
  cbn [fmap list_fmap forEachM]. destruct (f s (g x)) as [s'|e]; [|done]. apply IH.
Qed.

Lemma Steps_app {A V} (step : A → option V → V → Prop) l1 l2 old mid new :
  Steps step l1 old mid → Steps step l2 mid new → Steps step (l1 ++ l2) old new.
Proof.
  induction 1 as [|entry entries old value mid Hstep _ IH]; intros H2; [done|].
  econstructor; [done|]. by apply IH.
Qed.

Lemma Steps_nil_inv {A V} (step : A → option V → V → Prop) old new :
  Steps step [] old new → new = old.
Proof. by inversion 1. Qed.

(** A loop that sets, for every entry, the value at the entry's key. *)
Lemma forEachM_keyed {A V} (f : gmap string V → A → completion (gmap string V))
    (key : A → string) (step : A → option V → V → Prop) l acc :
  (∀ acc a, ∃ v, f acc a = Normal (<[key a := v]> acc) ∧ step a (acc !! key a) v) →
  ∃ acc', forEachM f l acc = Normal acc'
          ∧ ∀ k, Steps step (filter (λ a, key a = k) l) (acc !! k) (acc' !! k).
Proof.
  intros Hf. revert acc. induction l as [|a l IH]; intros acc.
  - exists acc. split; [done|]. intros k. constructor.
  - destruct (Hf acc a) as (v & Hrun & Hstep).
    destruct (IH (<[key a := v]> acc)) as (acc' & Hrun' & Hsteps).
    exists acc'. cbn [forEachM]. rewrite Hrun. split; [done|].
    intros k. specialize (Hsteps k). rewrite filter_cons.
    destruct (decide (key a = k)) as [<-|Hne].
    + rewrite lookup_insert_eq in Hsteps. by econstructor.
    + by rewrite lookup_insert_ne in Hsteps.
Qed.

Section AnalyticsFacts.

Variable hostFunction : string → HostResult.
Variable calculationEngine : option CalculationEngine.

Lemma parsedOrZero_normal value :
  parsedOrZero hostFunction calculationEngine value
  = Normal (priceOf hostFunction calculationEngine value).
Proof.
  unfold parsedOrZero, priceOf. destruct calculationEngine as [this|]; [|done].
  by rewrite parseExpression_value.
Qed.

Lemma addItem_normal stats item :
  addItem hostFunction calculationEngine stats item
  = Normal {| MemberStats.sessions := MemberStats.sessions stats;
              MemberStats.totalSpent :=
                MemberStats.totalSpent stats
                + priceOf hostFunction calculationEngine (Item.price item);
              MemberStats.totalAdvance := MemberStats.totalAdvance stats;
              MemberStats.items := MemberStats.items stats + 1;
              MemberStats.averagePerSession :=
                MemberStats.averagePerSession stats |}.
Proof. unfold addItem. by rewrite parsedOrZero_normal. Qed.

Lemma addItem_run items stats :
  ∃ stats',
    forEachM (addItem hostFunction calculationEngine) items stats = Normal stats'
    ∧ MemberStats.sessions stats' = MemberStats.sessions stats
    ∧ MemberStats.totalAdvance stats' = MemberStats.totalAdvance stats
    ∧ MemberStats.items stats' = (MemberStats.items stats + length items)%nat
    ∧ MemberStats.totalSpent stats'
      == MemberStats.totalSpent stats
         + sumOf (λ item, priceOf hostFunction calculationEngine (Item.price item))
                 items.
Proof.
  revert stats. induction items as [|item items IH]; intros stats.
  - exists stats. split_and!; try done. rewrite sumOf_nil. lra.
  - cbn [forEachM]. rewrite addItem_normal. cbn [mbind completion_bind].
    match goal with |- context [forEachM _ items ?s] =>
      destruct (IH s) as (stats' & Hrun & Hs & Ha & Hi & Ht) end.
    exists stats'. cbn [MemberStats.sessions MemberStats.totalAdvance
                        MemberStats.items MemberStats.totalSpent] in *.
    split_and!; try done.
    + cbn [length]. lia.
    + rewrite Ht, sumOf_cons. lra.
Qed.

Lemma addMember_run memberStats member :
  ∃ stats,
    addMember hostFunction calculationEngine memberStats member
    = Normal (<[Member.name member := stats]> memberStats)
    ∧ memberStep hostFunction calculationEngine member
        (memberStats !! Member.name member) stats.
Proof.
  unfold addMember.
  set (old := memberStats !! Member.name member).
  set (start := {| MemberStats.sessions := _ |}).
  assert (∃ stats',
            match Member.items member with
            | Some items => forEachM (addItem hostFunction calculationEngine) items start
            | None => Normal start
            end = Normal stats'
            ∧ MemberStats.sessions stats' = MemberStats.sessions start
            ∧ MemberStats.totalAdvance stats' = MemberStats.totalAdvance start
            ∧ MemberStats.items stats'
              = (MemberStats.items start + length (default [] (Member.items member)))%nat
            ∧ MemberStats.totalSpent stats'
              == MemberStats.totalSpent start
                 + sumOf (λ item, priceOf hostFunction calculationEngine (Item.price item))
                         (default [] (Member.items member)))
    as (stats' & -> & Hs & Ha & Hi & Ht).
  { destruct (Member.items member) as [items|]; [apply addItem_run|].
    exists start. split_and!; try done; try (simpl; lia).
    cbn [default from_option]. rewrite sumOf_nil. lra. }
  cbn [mbind completion_bind]. rewrite parsedOrZero_normal.
  cbn [mbind completion_bind]. eexists. split; [done|].
  unfold memberStep.
  cbn [MemberStats.sessions MemberStats.totalAdvance MemberStats.items
       MemberStats.totalSpent MemberStats.averagePerSession].
  rewrite Hs, Ha, Hi, Ht. unfold start.
  cbn [MemberStats.sessions MemberStats.totalAdvance MemberStats.items
       MemberStats.totalSpent].
  destruct old as [o|]; cbn [default from_option id]; split_and!; try done;
    reflexivity.
Qed.

Lemma memberSteps_total entries old new :
  Steps (memberStep hostFunction calculationEngine) entries old new →
  entries ≠ [] →
  ∃ stats,
    new = Some stats
    ∧ MemberStats.sessions stats
      = (from_option MemberStats.sessions 0%nat old + length entries)%nat
    ∧ MemberStats.items stats
      = (from_option MemberStats.items 0%nat old + length (itemsOf entries))%nat
    ∧ MemberStats.totalSpent stats
      == from_option MemberStats.totalSpent 0 old
         + sumOf (λ item, priceOf hostFunction calculationEngine (Item.price item))
                 (itemsOf entries)
    ∧ MemberStats.totalAdvance stats
      == from_option MemberStats.totalAdvance 0 old
         + sumOf (λ member,
                    priceOf hostFunction calculationEngine (Member.advance member))
                 entries
    ∧ MemberStats.averagePerSession stats
      == MemberStats.totalSpent stats / count (MemberStats.sessions stats).
Proof.
  induction 1 as [|entry entries old value new Hstep Hsteps IH]; [done|].
  intros _. destruct Hstep as (Hs & Hi & Ht & Ha & Havg).
  unfold itemsOf. rewrite bind_cons. fold (itemsOf entries).
  destruct entries as [|entry' entries].
  - inversion Hsteps; subst. exists value. split; [done|].
    change (itemsOf []) with (@nil Item.t). rewrite app_nil_r.
    split_and!; try done.
    + by rewrite Ha, sumOf_cons, sumOf_nil, Qplus_0_r.
  - destruct IH as (stats & -> & Hs' & Hi' & Ht' & Ha' & Havg'); [done|].
    exists stats. split; [done|]. cbn [from_option] in *.
    split_and!.
    + rewrite Hs', Hs. cbn [length]. lia.
    + rewrite Hi', Hi, length_app. lia.
    + rewrite Ht', Ht, sumOf_app. lra.
    + rewrite Ha', Ha, (sumOf_cons _ entry). lra.
    + done.
Qed.

End AnalyticsFacts.

(** X18.  [generateMemberAnalytics] returns, and keeps one entry per member name:
    a name no member bears has none, and the entry of a name counts, over
    all members of all sessions bearing it, how many they are (as
    [sessions], also when two of them are in one session), their items,
    the sum of the prices of those items, the sum of their advances, and
    [totalSpent / sessions] as average. *)
Theorem member_analytics_by_name hostFunction calculationEngine sessions :
  ∃ memberStats,
    generateMemberAnalytics hostFunction calculationEngine sessions
    = Normal memberStats
    ∧ ∀ name,
        let entries := membersNamed name sessions in
        (entries = [] → memberStats !! name = None)
        ∧ (entries ≠ [] →
           ∃ stats,
             memberStats !! name = Some stats
             ∧ MemberStats.sessions stats = length entries
             ∧ MemberStats.items stats = length (itemsOf entries)
             ∧ MemberStats.totalSpent stats
               == sumOf (λ item, priceOf hostFunction calculationEngine
                                         (Item.price item))
                        (itemsOf entries)
             ∧ MemberStats.totalAdvance stats
               == sumOf (λ member, priceOf hostFunction calculationEngine
                                           (Member.advance member))
                        entries
             ∧ MemberStats.averagePerSession stats
               == MemberStats.totalSpent stats / count (length entries)).
Proof.
  unfold generateMemberAnalytics.
  rewrite (forEachM_nested _ (addMember hostFunction calculationEngine)
             (λ session, default [] (SavedSession.members session)))
    by (intros s x; by destruct (SavedSession.members x)).
  fold (allMembers sessions).
  destruct (forEachM_keyed (addMember hostFunction calculationEngine) Member.name
              (memberStep hostFunction calculationEngine) (allMembers sessions) ∅
              (addMember_run hostFunction calculationEngine))
    as (memberStats & Hrun & Hsteps).
  exists memberStats. split; [done|]. intros name.
  specialize (Hsteps name). fold (membersNamed name sessions) in Hsteps.
  set (entries := membersNamed name sessions) in *.
  rewrite lookup_empty in Hsteps. split.
  - intros E. rewrite E in Hsteps. by rewrite (Steps_nil_inv _ _ _ Hsteps).
  - intros Hne.
    destruct (memberSteps_total _ _ _ _ _ Hsteps Hne)
      as (stats & Hnew & Hs & Hi & Ht & Ha & Havg).
    exists stats. cbn [from_option] in *. split_and!; try done.
    + by rewrite Ht, Qplus_0_l.
    + by rewrite Ha, Qplus_0_l.
    + by rewrite Havg, Hs.
Qed.

Lemma size_list_to_set_le (l : list string) :
  (size (list_to_set l : gset string) ≤ length l)%nat.
Proof.
  induction l as [|x l IH]; [done|].
  cbn [list_to_set foldr length]. rewrite size_union_alt, size_singleton.
  assert (list_to_set l ∖ {[x]} ⊆ (list_to_set l : gset string)) as Hsub
    by by apply subseteq_difference_l.
  apply subseteq_size in Hsub. lia.
Qed.

Lemma Qmin_cases (x y : Q) : (Qmin x y = x ∧ x <= y) ∨ (Qmin x y = y ∧ y <= x).
Proof.
  unfold Qmin, GenericMinMax.gmin. destruct (x ?= y) eqn:E.
  - left. split; [done|]. apply Qeq_alt in E. lra.
  - left. split; [done|]. apply Qlt_alt in E. lra.
  - right. split; [done|]. apply Qgt_alt in E. lra.
Qed.

Lemma Qmax_cases (x y : Q) : (Qmax x y = x ∧ y <= x) ∨ (Qmax x y = y ∧ x <= y).
Proof.
  unfold Qmax, GenericMinMax.gmax. destruct (x ?= y) eqn:E.
  - left. split; [done|]. apply Qeq_alt in E. lra.
  - right. split; [done|]. apply Qlt_alt in E. lra.
  - left. split; [done|]. apply Qgt_alt in E. lra.
Qed.

Section ItemFacts.

Variable hostFunction : string → HostResult.
Variable calculationEngine : option CalculationEngine.

Lemma countItem_run itemStats (entry : string * Item.t) :
  ∃ stats,
    countItem hostFunction calculationEngine entry.1 itemStats entry.2
    = Normal (<[Item.name entry.2 := stats]> itemStats)
    ∧ itemStep hostFunction calculationEngine entry
        (itemStats !! Item.name entry.2) stats.
Proof.
  unfold countItem. rewrite parsedOrZero_normal. cbn [mbind completion_bind].
  eexists. split; [done|]. unfold itemStep.
  cbn [ItemStats.count ItemStats.totalCost ItemStats.averageCost
       ItemStats.minCost ItemStats.maxCost ItemStats.sessions].
  by destruct (itemStats !! Item.name entry.2).
Qed.

Lemma itemSteps_total entries old new :
  Steps (itemStep hostFunction calculationEngine) entries old new →
  entries ≠ [] →
  let prices :=
    map (λ entry : string * Item.t,
           priceOf hostFunction calculationEngine (Item.price entry.2)) entries in
  ∃ stats least,
    new = Some stats
    ∧ ItemStats.count stats
      = (from_option ItemStats.count 0%nat old + length entries)%nat
    ∧ ItemStats.totalCost stats
      == from_option ItemStats.totalCost 0 old + sumOf id prices
    ∧ ItemStats.averageCost stats
      = ItemStats.totalCost stats / count (ItemStats.count stats)
    ∧ ItemStats.minCost stats = Finite least
    ∧ (least ∈ prices
       ∨ from_option ItemStats.minCost PlusInfinity old = Finite least)
    ∧ (∀ price, price ∈ prices → least <= price)
    ∧ (∀ m, from_option ItemStats.minCost PlusInfinity old = Finite m → least <= m)
    ∧ (∀ price, price ∈ prices → price <= ItemStats.maxCost stats)
    ∧ from_option ItemStats.maxCost 0 old <= ItemStats.maxCost stats
    ∧ (ItemStats.maxCost stats ∈ prices
       ∨ ItemStats.maxCost stats = from_option ItemStats.maxCost 0 old)
    ∧ ItemStats.sessions stats
      = list_to_set entries.*1 ∪ from_option ItemStats.sessions ∅ old.
Proof.
  induction 1 as [|entry entries old value new Hstep Hsteps IH]; [done|].
  intros _ prices.
  destruct Hstep as (Hc & Ht & Havg & Hmin & Hmax & Hs).
  set (price := priceOf hostFunction calculationEngine (Item.price entry.2)) in *.
  assert (∃ v0, ItemStats.minCost value = Finite v0
                ∧ (v0 = price
                   ∨ from_option ItemStats.minCost PlusInfinity old = Finite v0)
                ∧ v0 <= price
                ∧ ∀ m, from_option ItemStats.minCost PlusInfinity old = Finite m →
                       v0 <= m) as (v0 & Hv0 & Hv0in & Hv0p & Hv0o).
  { rewrite Hmin. destruct (from_option ItemStats.minCost PlusInfinity old) as [a|].
    - cbn [Math_min_extended]. unfold Math_min.
      exists (Qmin a price). split; [done|].
      destruct (Qmin_cases a price) as [[-> ?]|[-> ?]].
      + split_and!; [by right|done|]. intros m [= <-]. lra.
      + split_and!; [by left|lra|]. by intros m [= <-].
    - exists price. cbn [Math_min_extended]. split_and!; [done|by left|lra|done]. }
  assert (price <= ItemStats.maxCost value
          ∧ from_option ItemStats.maxCost 0 old <= ItemStats.maxCost value
          ∧ (ItemStats.maxCost value = price
             ∨ ItemStats.maxCost value = from_option ItemStats.maxCost 0 old))
    as (Hxp & Hxo & Hxin).
  { rewrite Hmax. unfold Math_max.
    destruct (Qmax_cases (from_option ItemStats.maxCost 0 old) price)
      as [[-> ?]|[-> ?]]; split_and!; try done; try lra; [by right|by left]. }
  destruct entries as [|entry' entries].
  - inversion Hsteps; subst. exists value, v0. split; [done|].
    unfold prices. cbn [map length fmap list_fmap list_to_set foldr].
    fold price. split_and!; try done.
    + rewrite Ht, sumOf_cons, sumOf_nil. unfold id. lra.
    + destruct Hv0in as [->|?]; [left; by left|by right].
    + by intros p ->%list_elem_of_singleton.
    + by intros p ->%list_elem_of_singleton.
    + destruct Hxin as [->|?]; [left; by left|by right].
    + rewrite Hs. by rewrite union_empty_r_L.
  - destruct IH as (stats & least & -> & Hc' & Ht' & Havg' & Hmin' & Hin' & Hle'
                    & Hold' & Hmaxle' & Hmaxold' & Hmaxin' & Hs'); [done|].
    cbn [from_option] in *.
    set (rest := map (λ entry : string * Item.t,
                        priceOf hostFunction calculationEngine (Item.price entry.2))
                     (entry' :: entries)) in *.
    assert (prices = price :: rest) as -> by done.
    exists stats, least. split; [done|]. split_and!.
    + rewrite Hc', Hc. cbn [length]. lia.
    + rewrite Ht', Ht, (sumOf_cons _ price). unfold id at 2. lra.
    + done.
    + done.
    + destruct Hin' as [?|Hsame]; [left; by right|].
      rewrite Hv0 in Hsame. injection Hsame as <-.
      destruct Hv0in as [->|?]; [left; by left|by right].
    + intros p [->|?]%elem_of_cons; [|by apply Hle'].
      specialize (Hold' _ Hv0). lra.
    + intros m Hm. specialize (Hold' _ Hv0). specialize (Hv0o _ Hm). lra.
    + intros p [->|?]%elem_of_cons; [lra|by apply Hmaxle'].
    + lra.
    + destruct Hmaxin' as [?| ->]; [left; by right|].
      destruct Hxin as [->|?]; [left; by left|by right].
    + rewrite Hs', Hs. cbn [fmap list_fmap list_to_set foldr].
      rewrite (assoc_L (∪)). f_equal. apply (comm_L (∪)).
Qed.

End ItemFacts.

(** X19.  [generateItemAnalytics] returns, and keeps one entry per item name: a
    name no item bears has none, and the entry of a name gives, over all
    items of all members of all sessions bearing it, how many they are,
    the sum of their prices and its average, the least of their prices as
    [minCost], as [maxCost] the greatest of their prices, or 0 when they
    are all below 0, and as [sessionCount] the number of different session
    ids among them. *)
Theorem item_analytics_by_name hostFunction calculationEngine sessions :
  ∃ itemStats,
    generateItemAnalytics hostFunction calculationEngine sessions
    = Normal itemStats
    ∧ ∀ name,
        let entries := itemsNamed name sessions in
        let prices :=
          map (λ entry : string * Item.t,
                 priceOf hostFunction calculationEngine (Item.price entry.2))
              entries in
        (entries = [] → itemStats !! name = None)
        ∧ (entries ≠ [] →
           ∃ stats least,
             itemStats !! name = Some stats
             ∧ ItemSummary.count stats = length entries
             ∧ ItemSummary.totalCost stats == sumOf id prices
             ∧ ItemSummary.averageCost stats
               = ItemSummary.totalCost stats / count (length entries)
             ∧ ItemSummary.minCost stats = Finite least
             ∧ least ∈ prices
             ∧ (∀ price, price ∈ prices →
                  least <= price ∧ price <= ItemSummary.maxCost stats)
             ∧ (ItemSummary.maxCost stats ∈ prices
                ∨ ItemSummary.maxCost stats = 0)
             ∧ 0 <= ItemSummary.maxCost stats
             ∧ ItemSummary.sessionCount stats
               = size (list_to_set entries.*1 : gset string)
             ∧ (1 ≤ ItemSummary.sessionCount stats ≤ length entries)%nat).
Proof.
  unfold generateItemAnalytics.
  rewrite (forEachM_nested _
             (λ itemStats (entry : string * Item.t),
                countItem hostFunction calculationEngine entry.1 itemStats entry.2)
             (λ session,
                (λ item, (SavedSession.id session, item))
                  <$> itemsOf (default [] (SavedSession.members session)))).
  2:{ intros s x. rewrite forEachM_fmap. cbn [fst snd].
      destruct (SavedSession.members x) as [members|]; [|done].
      cbn [default from_option id].
      apply (forEachM_nested _ (countItem hostFunction calculationEngine
                                          (SavedSession.id x))
               (λ member, default [] (Member.items member))).
      intros s' member. by destruct (Member.items member). }
  fold (allItems sessions).
  destruct (forEachM_keyed
              (λ itemStats (entry : string * Item.t),
                 countItem hostFunction calculationEngine entry.1 itemStats entry.2)
              (λ entry, Item.name entry.2)
              (itemStep hostFunction calculationEngine) (allItems sessions) ∅
              (countItem_run hostFunction calculationEngine))
    as (itemStats & Hrun & Hsteps).
  rewrite Hrun. cbn [mbind completion_bind].
  eexists. split; [done|]. intros name.
  specialize (Hsteps name). fold (itemsNamed name sessions) in Hsteps.
  set (entries := itemsNamed name sessions) in *.
  rewrite lookup_empty in Hsteps. rewrite lookup_fmap. split.
  - intros E. rewrite E in Hsteps. by rewrite (Steps_nil_inv _ _ _ Hsteps).
  - intros Hne.
    destruct (itemSteps_total _ _ _ _ _ Hsteps Hne)
      as (stats & least & -> & Hc & Ht & Havg & Hmin & Hin & Hle
          & _ & Hmaxle & Hmaxold & Hmaxin & Hs).
    cbn [from_option] in *.
    exists (closeStats stats), least. split; [done|].
    unfold closeStats.
    cbn [ItemSummary.count ItemSummary.totalCost ItemSummary.averageCost
         ItemSummary.minCost ItemSummary.maxCost ItemSummary.sessionCount].
    assert (ItemStats.sessions stats = list_to_set entries.*1) as Hs'
      by (by rewrite Hs, union_empty_r_L).
    split_and!; try done.
    + by rewrite Ht, Qplus_0_l.
    + by rewrite Havg, Hc.
    + by destruct Hin.
    + intros price Hp. split; [by apply Hle|by apply Hmaxle].
    + by rewrite Hs'.
    + rewrite Hs'. destruct entries as [|entry entries']; [done|].
      cbn [fmap list_fmap list_to_set foldr].
      rewrite <- (size_singleton (C := gset string) entry.1).
      apply subseteq_size, union_subseteq_l.
    + rewrite Hs'. etrans; [apply size_list_to_set_le|]. by rewrite length_fmap.
Qed.

Lemma member_analytics_by_name_witness :
  let sessions :=
    [SavedSession.mk "s1" (Some [alice; bob (JsString "60000")]);
     SavedSession.mk "s2" (Some [alice])] in
  ∃ memberStats stats,
    generateMemberAnalytics ReferenceHost.run (Some constructor) sessions
    = Normal memberStats
    ∧ memberStats !! "Alice" = Some stats
    ∧ MemberStats.sessions stats = 2%nat
    ∧ memberStats !! "Carol" = None.
Proof.
  intros sessions.
  destruct (member_analytics_by_name ReferenceHost.run (Some constructor) sessions)
    as (memberStats & Hrun & H).
  destruct (H "Alice") as [_ Halice]. destruct (H "Carol") as [Hcarol _].
  destruct Halice as (stats & Hlookup & Hsessions & _); [by vm_compute|].
  exists memberStats, stats. split_and!; [done|done|exact Hsessions|].
  apply Hcarol. by vm_compute.
Defined.

Lemma item_analytics_by_name_witness :
  let sessions :=
    [SavedSession.mk "s1" (Some [alice; bob (JsString "60000")]);
     SavedSession.mk "s2" (Some [alice])] in
  ∃ itemStats stats,
    generateItemAnalytics ReferenceHost.run (Some constructor) sessions
    = Normal itemStats
    ∧ itemStats !! "beer" = Some stats
    ∧ ItemSummary.count stats = 2%nat
    ∧ itemStats !! "wine" = None.
Proof.
  intros sessions.
  destruct (item_analytics_by_name ReferenceHost.run (Some constructor) sessions)
    as (itemStats & Hrun & H).
  destruct (H "beer") as [_ Hbeer]. destruct (H "wine") as [Hwine _].
  destruct Hbeer as (stats & least & Hlookup & Hcount & _); [by vm_compute|].
  exists itemStats, stats. split_and!; [done|done|exact Hcount|].
  apply Hwine. by vm_compute.
Defined.

(** * What parseExpression returns *)

Lemma isValidExpression_nonempty s : isValidExpression s = true → s ≠ "".
Proof. by intros H ->. Qed.

(** X20.  When the cleaned text passes [isValidExpression] and the host evaluates
    it to a finite number, [parseExpression] returns that number rounded by
    [roundNumber]; and whatever the input, the value returned is a rounded
    amount. *)
Theorem parseExpression_rounds_host_value hostFunction this :
  (∀ s q,
     isValidExpression (cleanExpression s) = true →
     hostFunction ("return (" ++ cleanExpression s ++ ")")%string = HostNumber q →
     parseExpression hostFunction this (JsString s)
     = Normal (roundNumber this q))
  ∧ (∀ expression, ∃ value,
       parseExpression hostFunction this expression = Normal value
       ∧ rounded this value).
Proof.
  split.
  - intros s q Hvalid Hhost.
    pose proof (isValidExpression_nonempty _ Hvalid) as Hne.
    unfold parseExpression, parseExpression_try.
    assert (s ≠ "") as Hs by (intros ->; by apply Hne).
    assert (isBlank s = false) as Hblank.
    { destruct (isBlank s) eqn:E; [|done]. by apply isBlank_clean in E. }
    cbn [truthy]. rewrite (proj2 (String.eqb_neq _ _) Hs). cbn [negb].
    rewrite Hblank, (proj2 (String.eqb_neq _ _) Hne), Hvalid. cbn [negb].
    unfold evaluateExpression. by rewrite Hhost.
  - intros expression. exists (parseValue hostFunction this expression).
    split; [apply parseExpression_value|apply parseValue_rounded].
Qed.

Lemma parseExpression_rounds_host_value_witness :
  parseExpression ReferenceHost.run constructor (JsString "2 * 25,000 VND")
  = Normal (roundNumber constructor 50000).
Proof.
  apply (parseExpression_rounds_host_value ReferenceHost.run constructor);
    reflexivity.
Defined.
